(** * Cosmetic filtering of uBlock Origin (legacy Firefox): a shallow embedding

    The development follows the two source files of the subsystem:

    - the static extended filtering engine, whose [compileProceduralSelector]
      turns a raw procedural selector into a descriptor ([compile],
      [decompile], the per-operator argument validators), with its entry
      points [api.compileSelector] and [api.compile], its
      [hostnamesFromPrefix] and its store [HostnameBasedDB];
    - the content script, whose [PSelector] executes a descriptor, whose
      [DOMProceduralFilterer] re-evaluates the active descriptors
      ([commitNow]), whose [domSurveyor] drains pending nodes in chunks
      ([addChunk], [nextChunk]), collects their identifiers and classes
      ([surveyPhase1]) and counts the answers ([surveyPhase3]), whose
      [domCollapser] queues the elements to look up ([add], [process],
      [send]) and hides those of blocked resources ([onProcessed]), and
      whose [SafeAnimationFrame] and [domWatcher] drive the two.

    A JavaScript string is the list of its UTF-16 code units, a code unit is
    an integer, as [charCodeAt] returns it.  What the host browser decides
    (whether a selector parses, whether a regular expression compiles, what
    a query returns) is a field of a host record; the code of the repository
    is translated function by function. *)

From Stdlib Require Import String Ascii DecimalString DecimalPos ZArith List Bool Lia.
Import ListNotations.

Set Warnings "-register-all".

Local Open Scope Z_scope.

(** ** JavaScript strings *)

Module JS.

Definition str := list Z.

(** The code units of a literal of the source. *)
Definition lit (s : string) : str :=
  map (fun a => Z.of_nat (nat_of_ascii a)) (list_ascii_of_string s).

Fixpoint eqb (a b : str) : bool :=
  match a, b with
  | [], [] => true
  | x :: a', y :: b' => (x =? y) && eqb a' b'
  | _, _ => false
  end.

(** [s.startsWith(p)] *)
Fixpoint startsWith (p s : str) : bool :=
  match p, s with
  | [], _ => true
  | x :: p', y :: s' => (x =? y) && startsWith p' s'
  | _ :: _, [] => false
  end.

(** [s.includes(p)] *)
Fixpoint includes (p s : str) : bool :=
  startsWith p s ||
  match s with
  | [] => false
  | _ :: s' => includes p s'
  end.

(** [s.slice(a, b)] for [0 <= a <= b <= s.length], the only way the code
    calls it. *)
Definition slice (a b : nat) (s : str) : str := firstn (b - a) (skipn a s).

(** [s.slice(a)] *)
Definition sliceFrom (a : nat) (s : str) : str := skipn a s.

(** [s.indexOf(c)] for a single code unit; [None] is [-1]. *)
Fixpoint indexOf (c : Z) (s : str) : option nat :=
  match s with
  | [] => None
  | x :: s' => if x =? c then Some O
               else match indexOf c s' with
                    | Some k => Some (S k)
                    | None => None
                    end
  end.

(** White space of [\s] and of [trim]: the WhiteSpace and LineTerminator
    code units of ECMAScript. *)
Definition isSpace (c : Z) : bool :=
  ((9 <=? c) && (c <=? 13)) || (c =? 32) || (c =? 160) || (c =? 5760) ||
  ((8192 <=? c) && (c <=? 8202)) || (c =? 8232) || (c =? 8233) ||
  (c =? 8239) || (c =? 8287) || (c =? 12288) || (c =? 65279).

Fixpoint trimStart (s : str) : str :=
  match s with
  | [] => []
  | c :: s' => if isSpace c then trimStart s' else s
  end.

Definition trimEnd (s : str) : str := rev (trimStart (rev s)).

Definition trim (s : str) : str := trimEnd (trimStart s).

(** [s.split(sep)] for a string separator that is not empty: the pieces
    between the occurrences of [sep], found from left to right.  [skip]
    counts the code units of a matched separator still to pass, [cur] is
    the piece being read, last code unit first. *)
Fixpoint split_go (sep s : str) (skip : nat) (cur : str) : list str :=
  match s with
  | [] => [rev cur]
  | c :: s' =>
      match skip with
      | S k => split_go sep s' k cur
      | O =>
          if startsWith sep s
          then rev cur :: split_go sep s' (length sep - 1) []
          else split_go sep s' O (c :: cur)
      end
  end.

Definition split (sep s : str) : list str := split_go sep s O [].

(** [a.join(sep)] *)
Fixpoint join (sep : str) (l : list str) : str :=
  match l with
  | [] => []
  | [x] => x
  | x :: l' => x ++ sep ++ join sep l'
  end.

Lemma eqb_eq (a b : str) : eqb a b = true <-> a = b.
Proof.
  revert b; induction a as [|x a IH]; intros [|y b]; simpl;
    try (split; congruence).
  rewrite andb_true_iff, Z.eqb_eq, IH. split.
  - intros [-> ->]; reflexivity.
  - intros H; inversion H; auto.
Qed.

Lemma eqb_refl (a : str) : eqb a a = true.
Proof. apply eqb_eq; reflexivity. Qed.

Lemma eqb_neq (a b : str) : eqb a b = false <-> a <> b.
Proof.
  split.
  - intros H E. apply eqb_eq in E. congruence.
  - intros H. destruct (eqb a b) eqn:E; auto. apply eqb_eq in E. contradiction.
Qed.

Lemma includes_cons (p : str) (c : Z) (s : str) :
  includes p (c :: s) = false -> includes p s = false.
Proof. simpl. intros H. apply orb_false_iff in H. tauto. Qed.

Lemma includes_startsWith (p s : str) :
  includes p s = false -> startsWith p s = false.
Proof. destruct s; simpl; intros H; apply orb_false_iff in H; tauto. Qed.

(** Without an occurrence of the separator, [split] returns the whole
    string as its only piece. *)
Lemma split_go_no_match (sep s cur : str) :
  includes sep s = false ->
  split_go sep s O cur = [rev cur ++ s].
Proof.
  revert cur; induction s as [|c s IH]; intros cur H.
  - simpl. rewrite app_nil_r. reflexivity.
  - cbn [split_go]. rewrite (includes_startsWith _ _ H).
    rewrite IH by (eapply includes_cons; eauto).
    simpl. rewrite <- app_assoc. reflexivity.
Qed.

Lemma split_no_match (sep s : str) :
  includes sep s = false -> split sep s = [s].
Proof. intros H. unfold split. rewrite split_go_no_match by assumption. reflexivity. Qed.

End JS.

(** ** The compiler of procedural selectors ([compileProceduralSelector]) *)

Module Compiler.

Import JS.

(** *** The host *)

(** The style sheet that [sheetSelectable] and [compileStyleProperties]
    probe.  [acceptsRule s]: [insertRule] of [s{color:red}] leaves one rule
    whose style is the single declaration [color: red].
    [acceptsDeclarations s]: [insertRule] of [a{s}] leaves a rule whose
    style text is not empty.  The sheet is empty before each probe. *)
Record StyleSheet := {
  acceptsRule : str -> bool;
  acceptsDeclarations : str -> bool
}.

(** [stylesheet] is [None] where there is no document ([null] in the
    source); [regExp s]: [new RegExp(s)] returns; [createExpression s]:
    [document.createExpression(s, null)] returns. *)
Class Host := {
  stylesheet : option StyleSheet;
  regExp : str -> bool;
  createExpression : str -> bool
}.

(** *** Descriptors *)

(** The operators of the tasks, by their names in [compileArgument]. *)
Inductive operator :=
| Has | HasText | If | IfNot
| MatchesCss | MatchesCssAfter | MatchesCssBefore
| MinTextLength | Not | Remove | Spath | Style | Upward | WatchAttr | Xpath.

Definition operatorName (o : operator) : str :=
  match o with
  | Has => lit ":has"
  | HasText => lit ":has-text"
  | If => lit ":if"
  | IfNot => lit ":if-not"
  | MatchesCss => lit ":matches-css"
  | MatchesCssAfter => lit ":matches-css-after"
  | MatchesCssBefore => lit ":matches-css-before"
  | MinTextLength => lit ":min-text-length"
  | Not => lit ":not"
  | Remove => lit ":remove"
  | Spath => lit ":spath"
  | Style => lit ":style"
  | Upward => lit ":upward"
  | WatchAttr => lit ":watch-attr"
  | Xpath => lit ":xpath"
  end.

(** A compiled descriptor [{ selector, tasks, action }] and the arguments
    of its tasks: a nested descriptor, the source of a regular expression
    alone or with its flags, a CSS declaration whose value is one, an
    integer, a string, a list of attribute names.  The source sets [tasks]
    only when the list is not empty: the empty list is the absent
    property. *)
Inductive descriptor :=
| Descriptor (selector : str) (tasks : list (operator * argument)) (action : option str)
with argument :=
| ArgDescriptor (d : descriptor)
| ArgRegex (source : str) (flags : option str)
| ArgDeclaration (name : str) (source : str) (flags : option str)
| ArgInteger (n : Z)
| ArgString (s : str)
| ArgAttrs (attrs : list str).

Definition task : Type := operator * argument.

Definition selectorOf (d : descriptor) : str :=
  match d with Descriptor s _ _ => s end.

Definition tasksOf (d : descriptor) : list task :=
  match d with Descriptor _ ts _ => ts end.

Definition actionOf (d : descriptor) : option str :=
  match d with Descriptor _ _ a => a end.

(** What [entryPoint] returns: the descriptor with its [raw]. *)
Record compiled := { desc : descriptor; raw : str }.

(** *** The regular expressions of the source *)

Definition isDigit (c : Z) : bool := (48 <=? c) && (c <=? 57).

Definition isAlpha (c : Z) : bool :=
  ((65 <=? c) && (c <=? 90)) || ((97 <=? c) && (c <=? 122)).

(** [\w] *)
Definition isWord (c : Z) : bool := isAlpha c || isDigit c || (c =? 95).

(** What [.] does not match. *)
Definition isLineTerminator (c : Z) : bool :=
  (c =? 10) || (c =? 13) || (c =? 8232) || (c =? 8233).

(** [reSimpleSelector = /^[#.][A-Za-z_][\w-]*$/] *)
Definition reSimpleSelector (s : str) : bool :=
  match s with
  | c0 :: c1 :: rest =>
      ((c0 =? 35) || (c0 =? 46)) && (isAlpha c1 || (c1 =? 95)) &&
      forallb (fun c => isWord c || (c =? 45)) rest
  | _ => false
  end.

(** [reNeedScope = /^\s*>/] *)
Definition reNeedScope (s : str) : bool :=
  match trimStart s with
  | c :: _ => c =? 62
  | [] => false
  end.

(** [reIsSiblingSelector = /^\s*[+~]/] *)
Definition reIsSiblingSelector (s : str) : bool :=
  match trimStart s with
  | c :: _ => (c =? 43) || (c =? 126)
  | [] => false
  end.

(** [reIsDanglingSelector = /[+>~\s]\s*$/]: the last code unit is a
    combinator or white space. *)
Definition reIsDanglingSelector (s : str) : bool :=
  match rev s with
  | c :: _ => (c =? 43) || (c =? 62) || (c =? 126) || isSpace c
  | [] => false
  end.

(** [/^\d+$/] *)
Definition reDigits (s : str) : bool :=
  match s with
  | [] => false
  | _ :: _ => forallb isDigit s
  end.

(** [parseInt(s, 10)] of a string of digits. *)
Definition parseInt (s : str) : Z :=
  fold_left (fun n c => 10 * n + (c - 48)) s 0.

(** The place of the last [/] of a string. *)
Fixpoint lastSlash (s : str) (i : nat) (found : option nat) : option nat :=
  match s with
  | [] => found
  | c :: s' => lastSlash s' (S i) (if c =? 47 then Some i else found)
  end.

(** [reParseRegexLiteral = /^\/(.+)\/([imu]+)?$/]: the two groups of the
    match.  The flags hold no [/], so that the second [/] of the pattern is
    the last one of the string. *)
Definition reParseRegexLiteral (s : str) : option (str * option str) :=
  match s with
  | c :: body =>
      match lastSlash body 0 None with
      | Some k =>
          let source := firstn k body in
          let flags := skipn (S k) body in
          if (c =? 47)
             && negb (Nat.eqb k 0)
             && forallb (fun c => negb (isLineTerminator c)) source
             && forallb (fun c => (c =? 105) || (c =? 109) || (c =? 117)) flags
          then Some (source, match flags with [] => None | _ :: _ => Some flags end)
          else None
      | None => None
      end
  | [] => None
  end.

(** [s.replace(reEatBackslashes, '$1')] with
    [reEatBackslashes = /\\([()])/g] *)
Fixpoint eatBackslashes (s : str) : str :=
  match s with
  | [] => []
  | c :: rest =>
      match rest with
      | c' :: rest' =>
          if (c =? 92) && ((c' =? 40) || (c' =? 41))
          then c' :: eatBackslashes rest'
          else c :: eatBackslashes rest
      | [] => [c]
      end
  end.

(** The class of [reEscapeRegex = /[.*+?^${}()|[\]\\]/g] *)
Definition isRegexSpecial (c : Z) : bool :=
  existsb (Z.eqb c) [46; 42; 43; 63; 94; 36; 123; 125; 40; 41; 124; 91; 93; 92].

(** [s.replace(reEscapeRegex, '\\$&')] *)
Fixpoint escapeRegex (s : str) : str :=
  match s with
  | [] => []
  | c :: rest =>
      if isRegexSpecial c then 92 :: c :: escapeRegex rest
      else c :: escapeRegex rest
  end.

(** The lower case of an ASCII letter, for the [i] flag. *)
Definition lower (c : Z) : Z := if (65 <=? c) && (c <=? 90) then c + 32 else c.

(** [/\/\s*\//]: a [/], white space, a [/]. *)
Fixpoint slashSpaceSlash (s : str) : bool :=
  match s with
  | [] => false
  | c :: rest =>
      ((c =? 47) && match trimStart rest with
                    | c' :: _ => c' =? 47
                    | [] => false
                    end)
      || slashSpaceSlash rest
  end.

(** [/image-set\(|url\(|\/\s*\/|\\|\/\*/i] *)
Definition reForbiddenStyle (s : str) : bool :=
  let l := map lower s in
  includes (lit "image-set(") l || includes (lit "url(") l ||
  slashSpaceSlash s || includes [92] s || includes (lit "/*") s.

(** The alternatives of [reProceduralOperator], in their order, each with
    the operator that [normalizedOperators] gives it (itself when it has no
    entry there). *)
Definition proceduralOperators : list (str * operator) :=
  [ (lit "-abp-contains", HasText);
    (lit "-abp-has", Has);
    (lit "contains", HasText);
    (lit "has", Has);
    (lit "has-text", HasText);
    (lit "if", If);
    (lit "if-not", IfNot);
    (lit "matches-css", MatchesCss);
    (lit "matches-css-after", MatchesCssAfter);
    (lit "matches-css-before", MatchesCssBefore);
    (lit "min-text-length", MinTextLength);
    (lit "not", Not);
    (lit "nth-ancestor", Upward);
    (lit "remove", Remove);
    (lit "style", Style);
    (lit "upward", Upward);
    (lit "watch-attr", WatchAttr);
    (lit "watch-attrs", WatchAttr);
    (lit "xpath", Xpath) ].

(** [reProceduralOperator.exec(s)]: the length of the match, the name and
    the parenthesis, and the operator. *)
Fixpoint matchOperator (table : list (str * operator)) (s : str) : option (nat * operator) :=
  match table with
  | [] => None
  | (name, op) :: table' =>
      if startsWith (name ++ [40]) s then Some (S (length name), op)
      else matchOperator table' s
  end.

Definition reProceduralOperator (s : str) : option (nat * operator) :=
  matchOperator proceduralOperators s.

Definition actionOperators (o : operator) : bool :=
  match o with Remove | Style => true | _ => false end.

(** *** Where the action operators of a descriptor are *)

(** No task of the descriptor or of a descriptor nested in it has an
    action operator, and none of them has an [action]. *)
Fixpoint actionFree (d : descriptor) : bool :=
  match d with
  | Descriptor _ ts a =>
      match a with None => true | Some _ => false end &&
      forallb (fun t : operator * argument =>
                 negb (actionOperators (fst t)) &&
                 match snd t with
                 | ArgDescriptor d' => actionFree d'
                 | _ => true
                 end) ts
  end.

Definition argFree (a : argument) : bool :=
  match a with
  | ArgDescriptor d => actionFree d
  | _ => true
  end.

Definition taskFree (t : task) : bool :=
  negb (actionOperators (fst t)) && argFree (snd t).

(** The tasks [ts] and the action [a] of a descriptor compiled with
    [root]: without an action no task is one of an action operator; with
    an action the descriptor is the root, its last task is the one of the
    action operator that [a] names, and no task before it is one.  No
    nested descriptor has an action operator. *)
Definition placed (root : bool) (ts : list task) (a : option str) : bool :=
  match a with
  | None => forallb taskFree ts
  | Some name =>
      root &&
      match rev ts with
      | (op, arg) :: before =>
          actionOperators op && eqb name (sliceFrom 1 (operatorName op))
          && argFree arg && forallb taskFree before
      | [] => false
      end
  end.

Definition wellPlaced (root : bool) (d : descriptor) : bool :=
  match d with Descriptor _ ts a => placed root ts a end.

(** *** The state of the module *)

(** [regexToRawValue]: the entry of a key is the first pair that holds it,
    [set] puts the pair first. *)
Definition rawValues := list (str * str).

Fixpoint mapGet (k : str) (m : rawValues) : option str :=
  match m with
  | [] => None
  | (k', v) :: m' => if eqb k' k then Some v else mapGet k m'
  end.

Definition mapSet (k v : str) (m : rawValues) : rawValues := (k, v) :: m.

(** The recursion of [compile] through [compileConditionalSelector] is
    bounded by [fuel]; [compile] gives it enough. *)
Inductive outcome (A : Type) :=
| Done (a : A)
| OutOfFuel.

Arguments Done {A} a.
Arguments OutOfFuel {A}.

Section Compile.

Context {host : Host}.

Definition sheetSelectable (s : str) : bool :=
  reSimpleSelector s ||
  match stylesheet with
  | None => true
  | Some sheet => acceptsRule sheet s
  end.

Definition isBadRegex (s : str) : bool := negb (regExp s).

(** *** The validators of the arguments *)

Definition compileText (s : str) (m : rawValues) : option argument * rawValues :=
  match reParseRegexLiteral s with
  | Some (source, flags) =>
      if isBadRegex source then (None, m) else (Some (ArgRegex source flags), m)
  | None =>
      let regexDetails := escapeRegex (eatBackslashes s) in
      (Some (ArgRegex regexDetails None), mapSet regexDetails s m)
  end.

Definition compileCSSDeclaration (s : str) (m : rawValues) : option argument * rawValues :=
  match indexOf 58 s with
  | None => (None, m)
  | Some pos =>
      let name := trim (slice 0 pos s) in
      let value := trim (sliceFrom (pos + 1) s) in
      match reParseRegexLiteral value with
      | Some (source, flags) =>
          if isBadRegex source then (None, m)
          else (Some (ArgDeclaration name source flags), m)
      | None =>
          let regexDetails := [94] ++ escapeRegex value ++ [36] in
          (Some (ArgDeclaration name regexDetails None), mapSet regexDetails value m)
      end
  end.

Definition compileInteger (s : str) (min max : Z) : option Z :=
  if negb (reDigits s) then None
  else
    let n := parseInt s in
    if (n <? min) || (max <=? n) then None else Some n.

Definition compileUpwardArgument (s : str) : option argument :=
  match compileInteger s 1 256 with
  | Some i => Some (ArgInteger i)
  | None => if sheetSelectable s then Some (ArgString s) else None
  end.

Definition compileRemoveSelector (s : str) : option argument :=
  match s with
  | [] => Some (ArgString s)
  | _ :: _ => None
  end.

Definition compileSpathExpression (s : str) : option str :=
  if sheetSelectable ([42] ++ s) then Some s else None.

Definition compileStyleProperties (s : str) : option argument :=
  if reForbiddenStyle s then None
  else
    match stylesheet with
    | None => Some (ArgString s)
    | Some sheet => if acceptsDeclarations sheet s then Some (ArgString s) else None
    end.

(** The separator is the string of the five code units [s*,s*]: in the
    string literal of the source the backslash before [s] is dropped. *)
Definition compileAttrList (s : str) : list str :=
  filter (fun attr => negb (eqb attr [])) (split (lit "s*,s*") s).

Definition compileXpathExpression (s : str) : option argument :=
  if createExpression s then Some (ArgString s) else None.

Section Body.

(** The recursive call of [compile]. *)
Variable compileRec : str -> bool -> rawValues -> outcome (option descriptor * rawValues).

Definition compileConditionalSelector (s : str) (m : rawValues)
  : outcome (option argument * rawValues) :=
  let s' := if reNeedScope s then lit ":scope " ++ s else s in
  match compileRec s' false m with
  | Done (Some d, m') => Done (Some (ArgDescriptor d), m')
  | Done (None, m') => Done (None, m')
  | OutOfFuel => OutOfFuel
  end.

Definition compileNotSelector (s : str) (m : rawValues)
  : outcome (option argument * rawValues) :=
  if negb (sheetSelectable s) then compileConditionalSelector s m
  else Done (None, m).

(** [compileArgument.get(operator)(s)] *)
Definition compileArgument (op : operator) (s : str) (m : rawValues)
  : outcome (option argument * rawValues) :=
  match op with
  | Has | If | IfNot => compileConditionalSelector s m
  | HasText => Done (compileText s m)
  | MatchesCss | MatchesCssAfter | MatchesCssBefore => Done (compileCSSDeclaration s m)
  | MinTextLength =>
      Done (option_map ArgInteger (compileInteger s 0 0x7FFFFFFF), m)
  | Not => compileNotSelector s m
  | Remove => Done (compileRemoveSelector s, m)
  | Spath => Done (option_map ArgString (compileSpathExpression s), m)
  | Style => Done (compileStyleProperties s, m)
  | Upward => Done (compileUpwardArgument s, m)
  | WatchAttr => Done (Some (ArgAttrs (compileAttrList s)), m)
  | Xpath => Done (compileXpathExpression s, m)
  end.

(** *** The loop of [compile] *)

Variable raw : str.
Variable root : bool.

(** The first loop: from [i], the place after the next colon that opens an
    operator, with the match; [None] when [i] reaches the end. *)
Fixpoint advance (s : str) (i : nat) : option (nat * (nat * operator)) :=
  match s with
  | [] => None
  | c :: s' =>
      if c =? 0x3A then
        match reProceduralOperator s' with
        | Some found => Some (S i, found)
        | None => advance s' (S i)
        end
      else advance s' (S i)
  end.

(** The second loop: the end of the argument.  It returns [i], [pcnt] and
    the last code unit read, [c]. *)
Fixpoint scanArgs (s : str) (i : nat) (pcnt : Z) (c : Z) : nat * Z * Z :=
  match s with
  | [] => (i, pcnt, c)
  | c1 :: s1 =>
      if c1 =? 0x5C then
        match s1 with
        | [] => (S i, pcnt, c1)
        | _ :: s2 => scanArgs s2 (S (S i)) pcnt c1
        end
      else if c1 =? 0x28 then scanArgs s1 (S i) (pcnt + 1) c1
      else if c1 =? 0x29 then
        if pcnt - 1 =? 0 then (S i, pcnt - 1, c1)
        else scanArgs s1 (S i) (pcnt - 1) c1
      else scanArgs s1 (S i) pcnt c1
  end.

(** The variables of [compile] that the loop changes. *)
Record loopState := {
  pos : nat;
  opPrefixBeg : nat;
  prefix : str;
  tasks : list task;
  action : option str
}.

Inductive loopExit :=
| Break (st : loopState)
| ReturnUndefined.

Definition atPos (i : nat) (st : loopState) : loopState :=
  {| pos := i; opPrefixBeg := opPrefixBeg st; prefix := prefix st;
     tasks := tasks st; action := action st |}.

(** The prefix and the tasks once the text before the operator at
    [opNameBeg] is accounted for: it is the prefix before the first
    operator, an [:spath] task after an operator. *)
Definition beforeOperator (opNameBeg : nat) (st : loopState) : option (str * list task) :=
  if Nat.eqb (opPrefixBeg st) 0 then Some (slice 0 opNameBeg raw, tasks st)
  else if negb (Nat.eqb opNameBeg (opPrefixBeg st)) then
    match action st with
    | Some _ => None
    | None =>
        match compileSpathExpression (slice (opPrefixBeg st) opNameBeg raw) with
        | None => None
        | Some spath => Some (prefix st, tasks st ++ [(Spath, ArgString spath)])
        end
    end
  else Some (prefix st, tasks st).

(** One turn of the loop [for (;;)]: it leaves the loop ([inl]) or goes on
    ([inr]). *)
Definition iteration (st : loopState) (m : rawValues)
  : outcome ((loopExit + loopState) * rawValues) :=
  match advance (sliceFrom (pos st) raw) (pos st) with
  | None => Done (inl (Break (atPos (length raw) st)), m)
  | Some (i, (len, op)) =>
      let opNameBeg := (i - 1)%nat in
      let opNameEnd := (i + len - 1)%nat in
      let '(i', pcnt, c) := scanArgs (sliceFrom (i + len) raw) (i + len) 1 0x3A in
      if negb (pcnt =? 0) && negb (c =? 0x29) then Done (inl ReturnUndefined, m)
      else if sheetSelectable (slice opNameBeg i' raw) then Done (inr (atPos i' st), m)
      else
        match compileArgument op (slice (opNameEnd + 1) (i' - 1) raw) m with
        | OutOfFuel => OutOfFuel
        | Done (None, m1) => Done (inl ReturnUndefined, m1)
        | Done (Some args, m1) =>
            match beforeOperator opNameBeg st with
            | None => Done (inl ReturnUndefined, m1)
            | Some (prefix', tasks') =>
                match action st with
                | Some _ => Done (inl ReturnUndefined, m1)
                | None =>
                    if actionOperators op && negb root then Done (inl ReturnUndefined, m1)
                    else
                      let st' :=
                        {| pos := i'; opPrefixBeg := i'; prefix := prefix';
                           tasks := tasks' ++ [(op, args)];
                           action := if actionOperators op
                                     then Some (sliceFrom 1 (operatorName op))
                                     else None |} in
                      if Nat.eqb i' (length raw) then Done (inl (Break st'), m1)
                      else Done (inr st', m1)
                end
            end
        end
  end.

(** The loop, for at most [k] turns; every turn moves [pos] forward, and
    [compile] gives the loop one turn more than the length of [raw]. *)
Fixpoint loop (k : nat) (st : loopState) (m : rawValues) : outcome (loopExit * rawValues) :=
  match k with
  | O => OutOfFuel
  | S k' =>
      match iteration st m with
      | OutOfFuel => OutOfFuel
      | Done (inl exit, m') => Done (exit, m')
      | Done (inr st', m') => loop k' st' m'
      end
  end.

(** The state that the loop reaches after [j] turns, when it goes on that
    far. *)
Fixpoint turns (j : nat) (st : loopState) (m : rawValues) : option (loopState * rawValues) :=
  match j with
  | O => Some (st, m)
  | S j' =>
      match iteration st m with
      | Done (inr st', m') => turns j' st' m'
      | _ => None
      end
  end.

(** *** After the loop *)

(** The end of [compile]: the prefix becomes the selector of the
    descriptor, or its first [:spath] task when it is a sibling selector
    of a nested descriptor. *)
Definition finishPrefix (prefix : str) (tasks : list task) (action : option str)
  : option descriptor :=
  match prefix with
  | [] => Some (Descriptor [] tasks action)
  | _ :: _ =>
      let prefix' := if reIsDanglingSelector prefix then prefix ++ [42] else prefix in
      if negb (sheetSelectable prefix') then
        if root || negb (reIsSiblingSelector prefix')
           || match compileSpathExpression prefix' with None => true | Some _ => false end
        then None
        else Some (Descriptor [] ((Spath, ArgString prefix') :: tasks) action)
      else Some (Descriptor prefix' tasks action)
  end.

Definition finish (st : loopState) : option descriptor :=
  match tasks st with
  | [] =>
      let prefix' := match action st with None => raw | Some _ => prefix st end in
      if root && sheetSelectable prefix' then
        match action st with
        | None => Some (Descriptor prefix' [] None)
        | Some a =>
            if eqb (firstn 1 a) (lit ":style") then Some (Descriptor prefix' [] (Some a))
            else finishPrefix prefix' [] (action st)
        end
      else finishPrefix prefix' [] (action st)
  | _ :: _ =>
      if Nat.ltb (opPrefixBeg st) (length raw) then
        match action st with
        | Some _ => None
        | None =>
            match compileSpathExpression (sliceFrom (opPrefixBeg st) raw) with
            | None => None
            | Some spath =>
                finishPrefix (prefix st) (tasks st ++ [(Spath, ArgString spath)]) (action st)
            end
        end
      else finishPrefix (prefix st) (tasks st) (action st)
  end.

Definition initial : loopState :=
  {| pos := 0; opPrefixBeg := 0; prefix := []; tasks := []; action := None |}.

Definition compileBody (m : rawValues) : outcome (option descriptor * rawValues) :=
  match raw with
  | [] => Done (None, m)
  | _ :: _ =>
      match loop (S (length raw)) initial m with
      | OutOfFuel => OutOfFuel
      | Done (ReturnUndefined, m') => Done (None, m')
      | Done (Break st, m') => Done (finish st, m')
      end
  end.

End Body.

Fixpoint compileFuel (fuel : nat) (raw : str) (root : bool) (m : rawValues)
  : outcome (option descriptor * rawValues) :=
  match fuel with
  | O => OutOfFuel
  | S fuel' => compileBody (compileFuel fuel') raw root m
  end.

(** [compile(raw, root)] *)
Definition compile (raw : str) (root : bool) (m : rawValues)
  : outcome (option descriptor * rawValues) :=
  compileFuel (S (length raw)) raw root m.

End Compile.

(** *** The scanning of the raw string *)

(** The number of opening parentheses of a string: it bounds the depth of
    the nested descriptors. *)
Definition parens (s : str) : nat := length (filter (Z.eqb 40) s).

Lemma skipn_length_app (a b : str) : skipn (length a) (a ++ b) = b.
Proof. induction a as [|x a IH]; cbn; auto. Qed.

Lemma parens_app (a b : str) : parens (a ++ b) = (parens a + parens b)%nat.
Proof. unfold parens. rewrite filter_app, length_app. reflexivity. Qed.

Lemma parens_skipn (k : nat) (s : str) : (parens (skipn k s) <= parens s)%nat.
Proof.
  rewrite <- (firstn_skipn k s) at 2. rewrite parens_app. lia.
Qed.

Lemma parens_firstn (k : nat) (s : str) : (parens (firstn k s) <= parens s)%nat.
Proof.
  rewrite <- (firstn_skipn k s) at 2. rewrite parens_app. lia.
Qed.

Lemma parens_le_length (s : str) : (parens s <= length s)%nat.
Proof. unfold parens. apply filter_length_le. Qed.

Lemma startsWith_app (p s : str) :
  startsWith p s = true -> exists rest, s = p ++ rest.
Proof.
  revert s; induction p as [|x p IH]; intros s H.
  - exists s. reflexivity.
  - destruct s as [|y s]; [discriminate|]. cbn in H.
    apply andb_true_iff in H as [Hxy Hp]. apply Z.eqb_eq in Hxy. subst y.
    destruct (IH s Hp) as [rest ->]. exists rest. reflexivity.
Qed.

Lemma matchOperator_spec (table : list (str * operator)) (s : str) (len : nat)
    (op : operator) :
  matchOperator table s = Some (len, op) ->
  exists name rest,
    In (name, op) table /\ len = S (length name) /\ s = name ++ 40 :: rest.
Proof.
  induction table as [|[name0 op0] table IH]; cbn [matchOperator]; intros H;
    [discriminate|].
  destruct (startsWith (name0 ++ [40]) s) eqn:E.
  - inversion H; subst. destruct (startsWith_app _ _ E) as [rest ->].
    exists name0, rest. rewrite <- app_assoc. repeat split. left; reflexivity.
  - destruct (IH H) as (name & rest & Hin & Hlen & Hs).
    exists name, rest. repeat split; auto. right; assumption.
Qed.

(** What [advance] finds: a colon at [i - 1] and an operator with its
    parenthesis from [i] to [i + len]. *)
Lemma advance_spec (s : str) (p i len : nat) (op : operator) :
  advance s p = Some (i, (len, op)) ->
  exists k name rest,
    i = S (p + k) /\ len = S (length name) /\
    skipn (S k) s = name ++ 40 :: rest /\
    In (name, op) proceduralOperators.
Proof.
  revert p; induction s as [|c s IH]; intros p H; cbn [advance] in H; [discriminate|].
  assert (Hrec : advance s (S p) = Some (i, (len, op)) ->
                 exists k name rest,
                   i = S (p + k) /\ len = S (length name) /\
                   skipn (S k) (c :: s) = name ++ 40 :: rest /\
                   In (name, op) proceduralOperators).
  { intros H'. destruct (IH _ H') as (k & name & rest & Hi & Hl & Hs & Hin).
    exists (S k), name, rest. repeat split; auto; lia. }
  destruct (c =? 58); [|auto].
  destruct (reProceduralOperator s) as [[len0 op0]|] eqn:E; [|auto].
  inversion H; subst.
  destruct (matchOperator_spec _ _ _ _ E) as (name & rest & Hin & Hl & Hs).
  exists 0%nat, name, rest. subst s. repeat split; auto; lia.
Qed.

Lemma scanArgs_bounds (bound : nat) :
  forall (s : str) (i : nat) (pcnt c : Z) (i' : nat) (pcnt' c' : Z),
  (length s <= bound)%nat ->
  scanArgs s i pcnt c = (i', pcnt', c') ->
  (i <= i' <= i + length s)%nat.
Proof.
  induction bound as [|bound IH]; intros s i pcnt c i' pcnt' c' Hb H.
  - destruct s; [|cbn in Hb; lia]. cbn in H. inversion H; subst. cbn. lia.
  - destruct s as [|c1 s1]; cbn [scanArgs] in H.
    + inversion H; subst. cbn. lia.
    + cbn [length] in Hb |- *.
      destruct (c1 =? 92).
      * destruct s1 as [|c2 s2].
        -- inversion H; subst. cbn. lia.
        -- cbn [length] in Hb |- *.
           apply IH in H; [lia | lia].
      * destruct (c1 =? 40); [apply IH in H; lia|].
        destruct (c1 =? 41).
        -- destruct (pcnt - 1 =? 0).
           ++ inversion H; subst. lia.
           ++ apply IH in H; lia.
        -- apply IH in H; lia.
Qed.

(** *** The cases of one turn of the loop *)

Section Turn.

Context {host : Host}.
Variable compileRec : str -> bool -> rawValues -> outcome (option descriptor * rawValues).
Variable raw : str.
Variable root : bool.

(** The operator that the turn from [st] finds, with the end of its
    argument. *)
Definition finds (st : loopState) (i len : nat) (op : operator) (i' : nat) (pcnt c : Z)
  : Prop :=
  advance (sliceFrom (pos st) raw) (pos st) = Some (i, (len, op)) /\
  scanArgs (sliceFrom (i + len) raw) (i + len) 1 0x3A = (i', pcnt, c).

Definition recorded (st : loopState) (op : operator) (args : argument) (i' : nat)
    (prefix' : str) (tasks' : list task) : loopState :=
  {| pos := i'; opPrefixBeg := i'; prefix := prefix';
     tasks := tasks' ++ [(op, args)];
     action := if actionOperators op then Some (sliceFrom 1 (operatorName op)) else None |}.

Inductive turned (st : loopState) (m : rawValues)
  : outcome ((loopExit + loopState) * rawValues) -> Prop :=
| AtEnd :
    advance (sliceFrom (pos st) raw) (pos st) = None ->
    turned st m (Done (inl (Break (atPos (length raw) st)), m))
| Unbalanced i len op i' pcnt c :
    finds st i len op i' pcnt c ->
    pcnt <> 0 -> c <> 0x29 ->
    turned st m (Done (inl ReturnUndefined, m))
| PlainCSS i len op i' pcnt c :
    finds st i len op i' pcnt c ->
    pcnt = 0 \/ c = 0x29 ->
    sheetSelectable (slice (i - 1) i' raw) = true ->
    turned st m (Done (inr (atPos i' st), m))
| NestedOutOfFuel i len op i' pcnt c :
    finds st i len op i' pcnt c ->
    compileArgument compileRec op (slice (i + len - 1 + 1) (i' - 1) raw) m = OutOfFuel ->
    turned st m OutOfFuel
| InvalidArgument i len op i' pcnt c m1 :
    finds st i len op i' pcnt c ->
    compileArgument compileRec op (slice (i + len - 1 + 1) (i' - 1) raw) m = Done (None, m1) ->
    turned st m (Done (inl ReturnUndefined, m1))
| Rejected i len op i' pcnt c args m1 :
    finds st i len op i' pcnt c ->
    compileArgument compileRec op (slice (i + len - 1 + 1) (i' - 1) raw) m
      = Done (Some args, m1) ->
    beforeOperator raw (i - 1) st = None \/ action st <> None \/
    (actionOperators op = true /\ root = false) ->
    turned st m (Done (inl ReturnUndefined, m1))
| Recorded i len op i' pcnt c args m1 prefix' tasks' :
    finds st i len op i' pcnt c ->
    pcnt = 0 \/ c = 0x29 ->
    sheetSelectable (slice (i - 1) i' raw) = false ->
    compileArgument compileRec op (slice (i + len - 1 + 1) (i' - 1) raw) m
      = Done (Some args, m1) ->
    beforeOperator raw (i - 1) st = Some (prefix', tasks') ->
    action st = None ->
    actionOperators op = false \/ root = true ->
    turned st m
      (Done (if Nat.eqb i' (length raw)
             then inl (Break (recorded st op args i' prefix' tasks'))
             else inr (recorded st op args i' prefix' tasks'), m1)).

Lemma iteration_turned (st : loopState) (m : rawValues) :
  turned st m (iteration compileRec raw root st m).
Proof.
  unfold iteration.
  destruct (advance (sliceFrom (pos st) raw) (pos st)) as [[i [len op]]|] eqn:Ea;
    [|apply AtEnd; assumption].
  destruct (scanArgs (sliceFrom (i + len) raw) (i + len) 1 58) as [[i' pcnt] c] eqn:Es.
  assert (Hf : finds st i len op i' pcnt c) by (split; assumption).
  destruct (negb (pcnt =? 0) && negb (c =? 41)) eqn:Eu.
  - apply andb_true_iff in Eu as [E1 E2].
    apply negb_true_iff in E1, E2. apply Z.eqb_neq in E1, E2.
    eapply Unbalanced; eauto.
  - assert (Hb : pcnt = 0 \/ c = 41).
    { apply andb_false_iff in Eu as [E | E]; apply negb_false_iff in E;
        apply Z.eqb_eq in E; auto. }
    destruct (sheetSelectable (slice (i - 1) i' raw)) eqn:Ess.
    + eapply PlainCSS; eauto.
    + destruct (compileArgument compileRec op (slice (i + len - 1 + 1) (i' - 1) raw) m)
        as [[[args|] m1]|] eqn:Ec.
      * destruct (beforeOperator raw (i - 1) st) as [[prefix' tasks']|] eqn:Eb;
          [|eapply Rejected; eauto].
        destruct (action st) as [a|] eqn:Eact;
          [eapply Rejected; eauto; right; left; congruence|].
        destruct (actionOperators op && negb root) eqn:Ear.
        -- apply andb_true_iff in Ear as [E1 E2]. apply negb_true_iff in E2.
           eapply Rejected; eauto.
        -- assert (Hor : actionOperators op = false \/ root = true).
           { apply andb_false_iff in Ear as [E | E]; [auto|].
             apply negb_false_iff in E; auto. }
           pose proof (Recorded st m i len op i' pcnt c args m1 prefix' tasks'
                         Hf Hb Ess Ec Eb Eact Hor) as R.
           unfold recorded in R.
           destruct (Nat.eqb i' (length raw)); exact R.
      * eapply InvalidArgument; eauto.
      * eapply NestedOutOfFuel; eauto.
Qed.

(** Where the operator and its argument lie in [raw]. *)
Lemma finds_positions st i len op i' pcnt c :
  finds st i len op i' pcnt c ->
  exists name rest,
    In (name, op) proceduralOperators /\ len = S (length name) /\
    skipn i raw = name ++ 40 :: rest /\ skipn (i + len) raw = rest /\
    (pos st < i)%nat /\ (i + len <= i')%nat /\ (i' <= length raw)%nat.
Proof.
  intros [Ha Hs]. unfold sliceFrom in *.
  destruct (advance_spec _ _ _ _ _ Ha) as (k & name & rest & Hi & Hl & Hk & Hin).
  rewrite skipn_skipn in Hk. replace (S k + pos st)%nat with i in Hk by lia.
  assert (Hr : skipn (i + len) raw = rest).
  { replace (i + len)%nat with (len + i)%nat by lia.
    rewrite <- skipn_skipn, Hk, Hl.
    replace (name ++ 40 :: rest) with ((name ++ [40]) ++ rest)
      by (rewrite <- app_assoc; reflexivity).
    replace (S (length name)) with (length (name ++ [40%Z]))
      by (rewrite length_app; cbn; lia).
    apply skipn_length_app. }
  pose proof (scanArgs_bounds _ _ _ _ _ _ _ _ (le_n _) Hs) as Hb.
  assert (Hlen : (i + len + length rest = length raw)%nat).
  { pose proof (f_equal (@length Z) Hk) as E.
    rewrite length_skipn, length_app in E. cbn [length] in E.
    assert (i <= length raw)%nat.
    { destruct (Nat.le_gt_cases i (length raw)) as [|Hgt]; [assumption|].
      rewrite skipn_all2 in Hk by lia. destruct name; discriminate. }
    lia. }
  rewrite Hr in Hb.
  exists name, rest. repeat split; auto; lia.
Qed.

Lemma finds_argument_parens st i len op i' pcnt c :
  finds st i len op i' pcnt c ->
  (parens (slice (i + len - 1 + 1) (i' - 1) raw) < parens raw)%nat.
Proof.
  intros Hf.
  destruct (finds_positions _ _ _ _ _ _ _ Hf)
    as (name & rest & _ & Hl & Hk & Hr & _ & _ & _).
  unfold slice. replace (i + len - 1 + 1)%nat with (i + len)%nat by lia.
  rewrite Hr.
  pose proof (parens_firstn (i' - 1 - (i + len)) rest) as H1.
  assert (H2 : (parens rest < parens raw)%nat).
  { rewrite <- (firstn_skipn i raw), Hk, !parens_app.
    change (parens (40 :: rest)) with (S (parens rest)). lia. }
  lia.
Qed.

Lemma compileArgument_total (bound : nat) (op : operator) (s : str) (m : rawValues) :
  (forall s' r m', (parens s' < bound)%nat -> exists x, compileRec s' r m' = Done x) ->
  (parens s < bound)%nat ->
  exists x, compileArgument compileRec op s m = Done x.
Proof.
  intros Hrec Hs.
  assert (Hc : exists x, compileConditionalSelector compileRec s m = Done x).
  { unfold compileConditionalSelector. cbv zeta.
    destruct (reNeedScope s).
    - assert (Hp : (parens (lit ":scope " ++ s) < bound)%nat)
        by (rewrite parens_app; assumption).
      destruct (Hrec _ false m Hp) as [[[d|] m'] E]; eexists; rewrite E; reflexivity.
    - destruct (Hrec _ false m Hs) as [[[d|] m'] E]; eexists; rewrite E; reflexivity. }
  destruct op; cbn [compileArgument]; eauto.
  unfold compileNotSelector. destruct (negb (sheetSelectable s)); eauto.
Qed.

Section Total.

(** The nested descriptors have fewer opening parentheses than [raw]. *)
Hypothesis compileRec_total :
  forall s r m, (parens s < parens raw)%nat -> exists x, compileRec s r m = Done x.

Lemma iteration_total st m : exists x, iteration compileRec raw root st m = Done x.
Proof.
  pose proof (iteration_turned st m) as T.
  destruct (iteration compileRec raw root st m) as [x|]; [eauto|].
  inversion T; subst.
  match goal with
  | Hf : finds _ _ _ _ _ _ _, Hc : compileArgument _ _ _ _ = OutOfFuel |- _ =>
      destruct (compileArgument_total (parens raw) op _ m compileRec_total
                  (finds_argument_parens _ _ _ _ _ _ _ Hf)) as [x Hx];
      rewrite Hx in Hc; discriminate
  end.
Qed.

Lemma iteration_progress st m st' m' :
  iteration compileRec raw root st m = Done (inr st', m') ->
  (pos st < pos st' <= length raw)%nat.
Proof.
  intros H. pose proof (iteration_turned st m) as T. rewrite H in T.
  inversion T; subst.
  - match goal with Hf : finds _ _ _ _ _ _ _ |- _ =>
      destruct (finds_positions _ _ _ _ _ _ _ Hf) as (? & ? & _ & ? & _ & _ & ? & ? & ?) end.
    cbn [atPos pos]. lia.
  - match goal with Hf : finds _ _ _ _ _ _ _ |- _ =>
      destruct (finds_positions _ _ _ _ _ _ _ Hf) as (? & ? & _ & ? & _ & _ & ? & ? & ?) end.
    destruct (Nat.eqb i' (length raw)); [discriminate|].
    match goal with E : inr _ = inr _ |- _ => inversion E; subst end.
    cbn [recorded pos]. lia.
Qed.

Lemma loop_total k :
  forall st m, (length raw - pos st < k)%nat ->
  exists x, loop compileRec raw root k st m = Done x.
Proof.
  induction k as [|k IH]; intros st m Hk; [lia|].
  cbn [loop]. destruct (iteration_total st m) as [[[exit|st'] m'] E]; rewrite E.
  - eauto.
  - apply iteration_progress in E. apply IH. lia.
Qed.

Lemma compileBody_total m : exists x, compileBody compileRec raw root m = Done x.
Proof.
  assert (Hk : (length raw - pos initial < S (length raw))%nat) by (cbn [initial pos]; lia).
  destruct (loop_total (S (length raw)) initial m Hk) as [[[st|] m'] E];
    unfold compileBody; rewrite E; destruct raw; eauto.
Qed.

End Total.

(** **** The states that the loop passes *)

Lemma loop_turns j :
  forall st m st' m' k,
  turns compileRec raw root j st m = Some (st', m') ->
  loop compileRec raw root (j + k) st m = loop compileRec raw root k st' m'.
Proof.
  induction j as [|j IH]; intros st m st' m' k H; cbn [turns] in H.
  - inversion H; subst. reflexivity.
  - cbn [Nat.add loop].
    destruct (iteration compileRec raw root st m) as [[[exit|st1] m1]|];
      try discriminate.
    apply IH. assumption.
Qed.

(** What holds of the states that the loop passes: the text before
    [opPrefixBeg] is accounted for, and an action comes with a task. *)
Definition passed (st : loopState) : Prop :=
  (opPrefixBeg st <= pos st <= length raw)%nat /\
  (action st <> None -> tasks st <> []).

Lemma passed_initial : passed initial.
Proof. unfold passed, initial; cbn. split; [lia | congruence]. Qed.

Lemma iteration_passed st m st' m' :
  passed st ->
  iteration compileRec raw root st m = Done (inr st', m') ->
  passed st' /\ (pos st < pos st')%nat.
Proof.
  intros [Hp Ha] H. pose proof (iteration_progress st m st' m' H) as Hprog.
  split; [|lia].
  pose proof (iteration_turned st m) as T. rewrite H in T.
  inversion T; subst.
  - unfold passed. cbn [atPos pos opPrefixBeg action tasks] in *. split; [lia | assumption].
  - destruct (Nat.eqb i' (length raw)); [discriminate|].
    match goal with E : inr _ = inr _ |- _ => inversion E; subst end.
    unfold passed. cbn [recorded pos opPrefixBeg action tasks] in *.
    split; [lia|]. intros _. destruct tasks'; discriminate.
Qed.

Lemma turns_passed j :
  forall st m st' m',
  passed st ->
  turns compileRec raw root j st m = Some (st', m') ->
  passed st' /\ (pos st + j <= pos st')%nat.
Proof.
  induction j as [|j IH]; intros st m st' m' Hp H; cbn [turns] in H.
  - inversion H; subst. split; [assumption | lia].
  - destruct (iteration compileRec raw root st m) as [[[exit|st1] m1]|] eqn:E;
      try discriminate.
    destruct (iteration_passed _ _ _ _ Hp E) as [Hp1 Hlt].
    destruct (IH _ _ _ _ Hp1 H) as [Hp' Hle]. split; [assumption | lia].
Qed.

(** The loop of [compile], from a state that it passes after [j] turns. *)
Lemma compileBody_turns j st m m1 :
  turns compileRec raw root j initial m = Some (st, m1) ->
  (pos st < length raw)%nat ->
  compileBody compileRec raw root m =
  match loop compileRec raw root (S (length raw) - j) st m1 with
  | OutOfFuel => OutOfFuel
  | Done (ReturnUndefined, m') => Done (None, m')
  | Done (Break st', m') => Done (finish raw root st', m')
  end /\ (length raw - pos st < S (length raw) - j)%nat.
Proof.
  intros H Hlt.
  destruct (turns_passed j _ _ _ _ passed_initial H) as [_ Hj]. cbn [initial pos] in Hj.
  split; [|lia].
  unfold compileBody. destruct raw as [|c r] eqn:Er; [cbn in Hlt; lia|]. rewrite <- Er in *.
  replace (S (length raw)) with (j + (S (length raw) - j))%nat at 1 by lia.
  rewrite (loop_turns j _ _ _ _ _ H). reflexivity.
Qed.

Lemma iteration_unbalanced st m i len op i' pcnt c :
  finds st i len op i' pcnt c ->
  pcnt <> 0 -> c <> 0x29 ->
  iteration compileRec raw root st m = Done (inl ReturnUndefined, m).
Proof.
  intros [Ha Hs] Hp Hc. unfold iteration. rewrite Ha, Hs.
  apply Z.eqb_neq in Hp, Hc. rewrite Hp, Hc. reflexivity.
Qed.

Lemma compileBody_unbalanced j st m m1 i len op i' pcnt c :
  turns compileRec raw root j initial m = Some (st, m1) ->
  finds st i len op i' pcnt c ->
  pcnt <> 0 -> c <> 0x29 ->
  compileBody compileRec raw root m = Done (None, m1).
Proof.
  intros H Hf Hp Hc.
  destruct (finds_positions _ _ _ _ _ _ _ Hf) as (name & rest & _ & Hl & _ & _ & ? & ? & ?).
  destruct (compileBody_turns j st m m1 H ltac:(lia)) as [-> Hk].
  destruct (S (length raw) - j)%nat as [|k]; [lia|].
  cbn [loop]. rewrite (iteration_unbalanced _ _ _ _ _ _ _ _ Hf Hp Hc). reflexivity.
Qed.

(** **** After an action operator *)

Section AfterAction.

Hypothesis compileRec_total :
  forall s r m, (parens s < parens raw)%nat -> exists x, compileRec s r m = Done x.

(** Once an action is recorded and text remains after its operator, what
    the loop and the end of [compile] return is [undefined]. *)
Lemma loop_after_action k :
  forall st m,
  passed st ->
  action st <> None ->
  (opPrefixBeg st < length raw)%nat ->
  (length raw - pos st < k)%nat ->
  exists m',
    match loop compileRec raw root k st m with
    | OutOfFuel => OutOfFuel
    | Done (ReturnUndefined, m') => Done (None, m')
    | Done (Break st', m') => Done (finish raw root st', m')
    end = Done (None, m').
Proof.
  induction k as [|k IH]; intros st m Hp Ha Ho Hk; [lia|].
  cbn [loop]. pose proof (iteration_turned st m) as T.
  destruct (iteration_total compileRec_total st m) as [x Hx].
  pose proof (fun st' m' => iteration_passed st m st' m' Hp) as Hnext.
  rewrite Hx in T, Hnext |- *. inversion T; subst.
  - exists m. unfold finish. cbn [atPos tasks opPrefixBeg action].
    destruct Hp as [_ Ht]. destruct (tasks st) as [|t ts]; [exfalso; apply (Ht Ha); reflexivity|].
    apply Nat.ltb_lt in Ho. rewrite Ho.
    destruct (action st); [reflexivity | congruence].
  - eauto.
  - destruct (Hnext _ _ eq_refl) as [Hp' Hlt].
    pose proof Hp' as [[_ Hle] _].
    apply IH; cbn [atPos action opPrefixBeg pos] in *; auto; lia.
  - eauto.
  - eauto.
  - congruence.
Qed.

Lemma compileBody_after_action j st m m1 :
  turns compileRec raw root j initial m = Some (st, m1) ->
  action st <> None ->
  (pos st < length raw)%nat ->
  exists m2, compileBody compileRec raw root m = Done (None, m2).
Proof.
  intros H Ha Hlt.
  destruct (turns_passed j _ _ _ _ passed_initial H) as [Hp _].
  destruct (compileBody_turns j st m m1 H Hlt) as [-> Hk].
  apply loop_after_action; auto. destruct Hp as [[? ?] _]. lia.
Qed.

End AfterAction.

(** **** The place of the action in the descriptor *)

Section Placed.

(** The nested descriptors are compiled without [root]. *)
Hypothesis compileRec_free :
  forall s m d m', compileRec s false m = Done (Some d, m') -> actionFree d = true.

Lemma compileArgument_argFree op s m args m' :
  compileArgument compileRec op s m = Done (Some args, m') ->
  argFree args = true.
Proof.
  assert (Hc : forall s, compileConditionalSelector compileRec s m = Done (Some args, m') ->
               argFree args = true).
  { intros s0. unfold compileConditionalSelector. cbv zeta.
    destruct (compileRec _ false m) as [[[d|] m1]|] eqn:E; intros H; inversion H; subst.
    cbn [argFree]. eapply compileRec_free; eauto. }
  destruct op; cbn [compileArgument]; intros H; eauto.
  - unfold compileText in H. destruct (reParseRegexLiteral s) as [[? ?]|];
      [destruct (isBadRegex _)|]; inversion H; reflexivity.
  - unfold compileCSSDeclaration in H. destruct (indexOf 58 s); [|inversion H].
    destruct (reParseRegexLiteral _) as [[? ?]|];
      [destruct (isBadRegex _)|]; inversion H; reflexivity.
  - unfold compileCSSDeclaration in H. destruct (indexOf 58 s); [|inversion H].
    destruct (reParseRegexLiteral _) as [[? ?]|];
      [destruct (isBadRegex _)|]; inversion H; reflexivity.
  - unfold compileCSSDeclaration in H. destruct (indexOf 58 s); [|inversion H].
    destruct (reParseRegexLiteral _) as [[? ?]|];
      [destruct (isBadRegex _)|]; inversion H; reflexivity.
  - destruct (compileInteger s 0 2147483647); inversion H; reflexivity.
  - unfold compileNotSelector in H. destruct (negb (sheetSelectable s)); [eauto | inversion H].
  - unfold compileRemoveSelector in H. destruct s; inversion H; reflexivity.
  - destruct (compileSpathExpression s); inversion H; reflexivity.
  - unfold compileStyleProperties in H. destruct (reForbiddenStyle s); [inversion H|].
    destruct stylesheet as [sheet|]; [destruct (acceptsDeclarations sheet s)|];
      inversion H; reflexivity.
  - unfold compileUpwardArgument in H. destruct (compileInteger s 1 256);
      [|destruct (sheetSelectable s)]; inversion H; reflexivity.
  - inversion H; reflexivity.
  - unfold compileXpathExpression in H. destruct (createExpression s);
      inversion H; reflexivity.
Qed.

Lemma forallb_rev_taskFree (ts : list task) :
  forallb taskFree (rev ts) = forallb taskFree ts.
Proof.
  induction ts as [|t ts IH]; [reflexivity|].
  cbn [rev forallb]. rewrite forallb_app, IH. cbn [forallb].
  rewrite andb_true_r. apply andb_comm.
Qed.

Lemma placed_snoc ts op args :
  placed root ts None = true ->
  argFree args = true ->
  actionOperators op = false \/ root = true ->
  placed root (ts ++ [(op, args)])
    (if actionOperators op then Some (sliceFrom 1 (operatorName op)) else None) = true.
Proof.
  cbn [placed]. intros Hts Ha Hor.
  destruct (actionOperators op) eqn:E.
  - destruct Hor as [Hf | ->]; [discriminate|]. cbn [placed andb].
    rewrite rev_app_distr. cbn [rev app]. rewrite E, eqb_refl, Ha, forallb_rev_taskFree.
    exact Hts.
  - cbn [placed]. rewrite forallb_app, Hts. cbn [forallb]. unfold taskFree.
    cbn [fst snd]. rewrite E, Ha. reflexivity.
Qed.

Lemma beforeOperator_placed opNameBeg st prefix' tasks' :
  placed root (tasks st) (action st) = true ->
  action st = None ->
  beforeOperator raw opNameBeg st = Some (prefix', tasks') ->
  placed root tasks' None = true.
Proof.
  intros Hp Ha. rewrite Ha in Hp. unfold beforeOperator. rewrite Ha.
  destruct (Nat.eqb (opPrefixBeg st) 0); [intros H; inversion H; subst; exact Hp|].
  destruct (negb (Nat.eqb opNameBeg (opPrefixBeg st)));
    [|intros H; inversion H; subst; exact Hp].
  destruct (compileSpathExpression _); intros H; inversion H; subst.
  cbn [placed] in *. rewrite forallb_app, Hp. reflexivity.
Qed.

Definition statePlaced (st : loopState) : Prop :=
  placed root (tasks st) (action st) = true.

Lemma iteration_placed st m x m' :
  statePlaced st ->
  iteration compileRec raw root st m = Done (x, m') ->
  match x with
  | inl (Break st') | inr st' => statePlaced st'
  | inl ReturnUndefined => True
  end.
Proof.
  intros Hp H. pose proof (iteration_turned st m) as T. rewrite H in T.
  inversion T; subst; try exact I; try exact Hp.
  assert (Hr : statePlaced (recorded st op args i' prefix' tasks')).
  { unfold statePlaced, recorded. cbn [tasks action].
    apply placed_snoc; auto.
    - eapply beforeOperator_placed; eauto.
    - eapply compileArgument_argFree; eauto. }
  destruct (Nat.eqb i' (length raw)); exact Hr.
Qed.

Lemma loop_placed k :
  forall st m st' m',
  statePlaced st ->
  loop compileRec raw root k st m = Done (Break st', m') ->
  statePlaced st'.
Proof.
  induction k as [|k IH]; intros st m st' m' Hp H; [discriminate|].
  cbn [loop] in H.
  destruct (iteration compileRec raw root st m) as [[[exit|st1] m1]|] eqn:E;
    [| |discriminate].
  - inversion H; subst. apply (iteration_placed _ _ _ _ Hp E).
  - apply (IH _ _ _ _ (iteration_placed _ _ _ _ Hp E) H).
Qed.

Lemma finishPrefix_placed prefix0 ts a d :
  placed root ts a = true ->
  finishPrefix root prefix0 ts a = Some d ->
  wellPlaced root d = true.
Proof.
  intros Hp. unfold finishPrefix.
  destruct prefix0 as [|c p]; [intros H; inversion H; subst; exact Hp|].
  destruct (negb (sheetSelectable _)); [|intros H; inversion H; subst; exact Hp].
  destruct root eqn:Er; [intros H; discriminate|]. cbn [orb].
  destruct (negb (reIsSiblingSelector _) || _); intros H; inversion H; subst.
  cbn [wellPlaced]. destruct a as [name|]; [cbn in Hp; discriminate|].
  cbn [placed forallb] in *. rewrite Hp. reflexivity.
Qed.

Lemma finish_placed st d :
  statePlaced st ->
  finish raw root st = Some d ->
  wellPlaced root d = true.
Proof.
  unfold statePlaced, finish. intros Hp.
  destruct (tasks st) as [|t ts] eqn:Et.
  - destruct (action st) as [name|].
    + cbn in Hp. rewrite andb_false_r in Hp. discriminate.
    + destruct (root && sheetSelectable raw).
      * intros H; inversion H; subst. reflexivity.
      * apply finishPrefix_placed. reflexivity.
  - destruct (Nat.ltb (opPrefixBeg st) (length raw)).
    + destruct (action st) as [name|]; [discriminate|].
      destruct (compileSpathExpression _); [|discriminate].
      apply finishPrefix_placed. cbn [placed] in *.
      rewrite forallb_app, Hp. reflexivity.
    + apply finishPrefix_placed. exact Hp.
Qed.

Lemma compileBody_placed m d m' :
  compileBody compileRec raw root m = Done (Some d, m') ->
  wellPlaced root d = true.
Proof.
  unfold compileBody. intros H.
  destruct (loop compileRec raw root (S (length raw)) initial m)
    as [[[st|] m1]|] eqn:E.
  - assert (Hst : statePlaced st) by (eapply loop_placed; eauto; reflexivity).
    pose proof (finish_placed st d Hst) as Hfin.
    clear E. destruct raw; [discriminate|]. inversion H; subst. auto.
  - destruct raw; discriminate.
  - destruct raw; discriminate.
Qed.

End Placed.

End Turn.

Section Totality.

Context {host : Host}.

Lemma compileFuel_total (fuel : nat) :
  forall raw root m, (parens raw < fuel)%nat ->
  exists x, compileFuel fuel raw root m = Done x.
Proof.
  induction fuel as [|fuel IH]; intros raw root m Hf; [lia|].
  cbn [compileFuel]. apply compileBody_total.
  intros s r m' Hs. apply IH. lia.
Qed.

(** [compile] returns: the fuel that it gives to the recursion is enough. *)
Lemma compile_total (raw : str) (root : bool) (m : rawValues) :
  exists r m', compile raw root m = Done (r, m').
Proof.
  destruct (compileFuel_total (S (length raw)) raw root m) as [[r m'] E].
  - pose proof (parens_le_length raw). lia.
  - exists r, m'. exact E.
Qed.

(** The state of the loop of [compile(raw, root)] after [j] turns. *)
Definition passes (raw : str) (root : bool) (m : rawValues) (j : nat)
  : option (loopState * rawValues) :=
  turns (compileFuel (length raw)) raw root j initial m.

Lemma compileFuel_totalOn (raw : str) :
  forall s r m, (parens s < parens raw)%nat ->
  exists x, compileFuel (length raw) s r m = Done x.
Proof.
  intros s r m Hs. apply compileFuel_total.
  pose proof (parens_le_length raw). lia.
Qed.

(** C6, amended: when the loop of [compile] comes to an operator whose
    argument is read to the end of the string without the count of the
    parentheses coming back to zero, and the last code unit read is not a
    closing parenthesis, [compile] returns [undefined]. *)
Theorem compile_rejects_unbalanced (raw : str) (root : bool) (m : rawValues)
    (j : nat) (st : loopState) (m1 : rawValues)
    (i len : nat) (op : operator) (i' : nat) (pcnt c : Z) :
  passes raw root m j = Some (st, m1) ->
  finds raw st i len op i' pcnt c ->
  pcnt <> 0 ->
  c <> 0x29 ->
  compile raw root m = Done (None, m1).
Proof.
  intros H Hf Hp Hc. unfold compile. cbn [compileFuel].
  eapply compileBody_unbalanced; eauto.
Qed.

Lemma actionFree_wellPlaced (d : descriptor) :
  wellPlaced false d = true -> actionFree d = true.
Proof.
  destruct d as [sel ts [name|]]; cbn [wellPlaced placed andb]; [discriminate|].
  intros H. cbn [actionFree andb]. exact H.
Qed.

Lemma compileFuel_placed (fuel : nat) :
  forall raw root m d m',
  compileFuel fuel raw root m = Done (Some d, m') ->
  wellPlaced root d = true.
Proof.
  induction fuel as [|fuel IH]; intros raw root m d m' H; [discriminate|].
  cbn [compileFuel] in H. eapply compileBody_placed; [|exact H].
  intros s m0 d0 m0' H0. apply actionFree_wellPlaced. eapply IH; eauto.
Qed.

(** C7: a descriptor that [compile] returns has its action operators
    placed as [wellPlaced] says: at most one, in the last task of the root
    descriptor, none in a nested descriptor, and a descriptor compiled
    without [root] has none.  When the loop has recorded an action and the
    string goes on after its operator, with an operator or with text,
    [compile] returns [undefined]. *)
Theorem compile_action_placement (raw : str) (root : bool) (m : rawValues) :
  (forall d m', compile raw root m = Done (Some d, m') -> wellPlaced root d = true) /\
  (forall d m', compile raw false m = Done (Some d, m') -> actionFree d = true) /\
  (forall j st m1,
      passes raw root m j = Some (st, m1) ->
      action st <> None ->
      (pos st < length raw)%nat ->
      exists m2, compile raw root m = Done (None, m2)).
Proof.
  split; [|split].
  - intros d m' H. eapply compileFuel_placed; eauto.
  - intros d m' H. apply actionFree_wellPlaced. eapply compileFuel_placed; eauto.
  - intros j st m1 H Ha Hlt. unfold compile. cbn [compileFuel].
    eapply compileBody_after_action; eauto. apply compileFuel_totalOn.
Qed.

(** C10, amended: [compileAttrList] splits at the five code units [s*,s*].
    For an argument without them it returns the argument as the only name
    when the argument is not empty, and the empty list when it is; the
    validation of [:watch-attr] returns this list and never [undefined]. *)
Theorem compileAttrList_literal_separator
    (rec : str -> bool -> rawValues -> outcome (option descriptor * rawValues))
    (s : str) (m : rawValues) :
  compileArgument rec WatchAttr s m = Done (Some (ArgAttrs (compileAttrList s)), m) /\
  (includes (lit "s*,s*") s = false ->
   compileAttrList s = match s with [] => [] | _ :: _ => [s] end).
Proof.
  split; [reflexivity|].
  intros H. unfold compileAttrList. rewrite split_no_match by assumption.
  destruct s; reflexivity.
Qed.

End Totality.

(** *** The canonical string ([decompile]) *)

(** [String(n)] of an integer. *)
Definition decimal (n : Z) : str :=
  lit (DecimalString.NilZero.string_of_int (Z.to_int n)).

(** The text of a regular expression in the canonical string: the raw
    value that [regexToRawValue] holds for a source without flags, the
    literal otherwise. *)
Definition regexText (m : rawValues) (source : str) (flags : option str) : str :=
  match flags with
  | Some f => [47] ++ source ++ [47] ++ f
  | None =>
      match mapGet source m with
      | Some value => value
      | None => [47] ++ source ++ [47]
      end
  end.

(** [`${v}`] of the argument of a task that [decompile] prints as it is. *)
Definition argumentText (a : argument) : str :=
  match a with
  | ArgInteger n => decimal n
  | ArgString s => s
  | ArgAttrs attrs => join [44] attrs
  | ArgRegex source None => source
  | ArgRegex source (Some f) => source ++ [44] ++ f
  | ArgDescriptor _ | ArgDeclaration _ _ _ => lit "[object Object]"
  end.

(** [decompile(compiled)].  [compile] pairs an operator with the argument
    of its validator; for another argument the piece is the one of
    [`${v}`]. *)
Fixpoint decompile (m : rawValues) (d : descriptor) : str :=
  match d with
  | Descriptor selector tasks _ =>
      selector ++
      (fix pieces (ts : list task) : str :=
         match ts with
         | [] => []
         | (op, a) :: ts' =>
             match op, a with
             | (Has | If), ArgDescriptor d' => lit ":has(" ++ decompile m d' ++ [41]
             | HasText, ArgRegex source flags =>
                 lit ":has-text(" ++ regexText m source flags ++ [41]
             | (MatchesCss | MatchesCssAfter | MatchesCssBefore),
               ArgDeclaration name source flags =>
                 operatorName op ++ [40] ++ name ++ lit ": "
                   ++ regexText m source flags ++ [41]
             | (Not | IfNot), ArgDescriptor d' => lit ":not(" ++ decompile m d' ++ [41]
             | Spath, _ => argumentText a
             | _, _ => operatorName op ++ [40] ++ argumentText a ++ [41]
             end ++ pieces ts'
         end) tasks
  end.

(** *** Plain selectors

    A raw string in which the loop records no task compiles to the
    descriptor of a plain selector: the string itself, or the string with
    [*] after a dangling combinator.  The scan of the second string goes
    as the scan of the first. *)

Lemma startsWith_snoc (p s : str) (x : Z) :
  ~ In x p -> startsWith p (s ++ [x]) = startsWith p s.
Proof.
  revert s; induction p as [|y p IH]; intros s Hx; [reflexivity|].
  destruct s as [|z s]; cbn [app startsWith].
  - destruct (y =? x) eqn:E; [|reflexivity].
    apply Z.eqb_eq in E. exfalso. apply Hx. left. assumption.
  - rewrite IH; [reflexivity|]. intros Hin. apply Hx. right. assumption.
Qed.

Lemma proceduralOperators_no_star (name : str) (op : operator) :
  In (name, op) proceduralOperators -> ~ In 42 (name ++ [40]).
Proof.
  assert (H : forallb (fun e => negb (existsb (Z.eqb 42) (fst e ++ [40])))
                proceduralOperators = true) by (vm_compute; reflexivity).
  rewrite forallb_forall in H. intros Hin Hstar. specialize (H _ Hin). cbn [fst] in H.
  apply negb_true_iff in H.
  assert (E : existsb (Z.eqb 42) (name ++ [40]) = true).
  { apply existsb_exists. exists 42. split; [assumption | reflexivity]. }
  congruence.
Qed.

Lemma matchOperator_snoc (table : list (str * operator)) (s : str) :
  (forall name op, In (name, op) table -> ~ In 42 (name ++ [40])) ->
  matchOperator table (s ++ [42]) = matchOperator table s.
Proof.
  induction table as [|[name op] table IH]; intros H; [reflexivity|].
  cbn [matchOperator]. rewrite startsWith_snoc by (apply (H name op); left; reflexivity).
  rewrite IH; [reflexivity|]. intros n o Hin. apply (H n o). right. assumption.
Qed.

Lemma advance_snoc (s : str) (p : nat) : advance (s ++ [42]) p = advance s p.
Proof.
  revert p; induction s as [|c s IH]; intros p; [reflexivity|].
  cbn [app advance]. unfold reProceduralOperator.
  rewrite matchOperator_snoc by apply proceduralOperators_no_star.
  rewrite IH. reflexivity.
Qed.

(** A scan that ends on the closing parenthesis of the argument does not
    read what follows. *)
Lemma scanArgs_closed (bound : nat) :
  forall (s t : str) (i : nat) (pcnt c : Z) (i' : nat) (c' : Z),
  (length s <= bound)%nat ->
  1 <= pcnt ->
  scanArgs s i pcnt c = (i', 0, c') ->
  scanArgs (s ++ t) i pcnt c = (i', 0, c').
Proof.
  induction bound as [|bound IH]; intros s t i pcnt c i' c' Hb Hp H.
  - destruct s; [|cbn in Hb; lia]. cbn in H. inversion H; subst. lia.
  - destruct s as [|c1 s1]; cbn [scanArgs] in H.
    + inversion H; subst. lia.
    + cbn [length] in Hb. cbn [app scanArgs].
      destruct (c1 =? 92).
      * destruct s1 as [|c2 s2].
        -- inversion H; subst. lia.
        -- cbn [length] in Hb. cbn [app]. apply IH; [lia | assumption | assumption].
      * destruct (c1 =? 40); [apply IH; [lia | lia | assumption]|].
        destruct (c1 =? 41).
        -- destruct (pcnt - 1 =? 0) eqn:E; [assumption|].
           apply Z.eqb_neq in E. apply IH; [lia | lia | assumption].
        -- apply IH; [lia | assumption | assumption].
Qed.

(** A scan that reads a closing parenthesis last, without the count back
    at zero, has read the string to its end. *)
Lemma scanArgs_open (bound : nat) :
  forall (s : str) (i : nat) (pcnt c : Z) (i' : nat) (pcnt' : Z),
  (length s <= bound)%nat ->
  scanArgs s i pcnt c = (i', pcnt', 41) ->
  pcnt' <> 0 ->
  (s = [] /\ c = 41) \/ exists s0, s = s0 ++ [41].
Proof.
  induction bound as [|bound IH]; intros s i pcnt c i' pcnt' Hb H Hp.
  - destruct s; [|cbn in Hb; lia]. cbn in H. inversion H; subst. auto.
  - destruct s as [|c1 s1]; cbn [scanArgs] in H.
    + inversion H; subst. auto.
    + cbn [length] in Hb. right.
      destruct (c1 =? 92) eqn:E92.
      * apply Z.eqb_eq in E92. destruct s1 as [|c2 s2].
        -- inversion H; subst. discriminate.
        -- cbn [length] in Hb.
           destruct (IH s2 _ _ _ _ _ ltac:(lia) H Hp) as [[_ E] | [s0 ->]];
             [subst; discriminate|].
           exists (c1 :: c2 :: s0). reflexivity.
      * destruct (c1 =? 40) eqn:E40.
        -- apply Z.eqb_eq in E40.
           destruct (IH s1 _ _ _ _ _ ltac:(lia) H Hp) as [[_ E] | [s0 ->]];
             [subst; discriminate|].
           exists (c1 :: s0). reflexivity.
        -- destruct (c1 =? 41) eqn:E41.
           ++ apply Z.eqb_eq in E41. destruct (pcnt - 1 =? 0) eqn:E0.
              ** apply Z.eqb_eq in E0. inversion H; subst. lia.
              ** destruct (IH s1 _ _ _ _ _ ltac:(lia) H Hp) as [[-> _] | [s0 ->]].
                 --- exists []. subst. reflexivity.
                 --- exists (c1 :: s0). reflexivity.
           ++ apply Z.eqb_neq in E41.
              destruct (IH s1 _ _ _ _ _ ltac:(lia) H Hp) as [[_ E] | [s0 ->]];
                [congruence|].
              exists (c1 :: s0). reflexivity.
Qed.

Lemma sliceFrom_snoc (p : nat) (s t : str) :
  (p <= length s)%nat -> sliceFrom p (s ++ t) = sliceFrom p s ++ t.
Proof.
  intros H. unfold sliceFrom. rewrite skipn_app.
  replace (p - length s)%nat with 0%nat by lia. reflexivity.
Qed.

Lemma slice_snoc (a b : nat) (s t : str) :
  (b <= length s)%nat -> slice a b (s ++ t) = slice a b s.
Proof.
  intros H. unfold slice.
  destruct (Nat.le_gt_cases b a) as [Hle | Hgt].
  - replace (b - a)%nat with 0%nat by lia. reflexivity.
  - rewrite skipn_app, firstn_app, length_skipn.
    replace (b - a - (length s - a))%nat with 0%nat by lia.
    cbn [firstn]. apply app_nil_r.
Qed.

Lemma dangling_not_closed (s0 s1 : str) :
  reIsDanglingSelector (s0 ++ s1 ++ [41]) = false.
Proof.
  unfold reIsDanglingSelector. rewrite app_assoc, rev_app_distr. reflexivity.
Qed.

Section Plain.

Context {host : Host}.
Variable raw : str.
Variable root : bool.

(** One turn after which no task is recorded, on [raw] and, when [raw]
    ends with a combinator or white space, on [raw] with [*]. *)
Lemma iteration_plain rec rec' st m x m' :
  (pos st <= length raw)%nat ->
  iteration rec raw root st m = Done (x, m') ->
  match x with
  | inl (Break st') | inr st' => tasks st' = []
  | inl ReturnUndefined => False
  end ->
  m' = m /\
  (match x with
   | inl _ => x = inl (Break (atPos (length raw) st))
   | inr st' => st' = atPos (pos st') st
   end) /\
  (reIsDanglingSelector raw = true ->
   iteration rec' (raw ++ [42]) root st m =
   Done (match x with
         | inl _ => inl (Break (atPos (length (raw ++ [42])) st))
         | inr st' => inr st'
         end, m)).
Proof.
  intros Hpos H Hx. pose proof (iteration_turned rec raw root st m) as T.
  rewrite H in T.
  assert (Hadv : advance (sliceFrom (pos st) (raw ++ [42])) (pos st)
                 = advance (sliceFrom (pos st) raw) (pos st)).
  { rewrite sliceFrom_snoc by assumption. apply advance_snoc. }
  inversion T; subst; try contradiction.
  - split; [reflexivity|]. split; [reflexivity|]. intros _.
    unfold iteration. rewrite Hadv.
    match goal with E : advance _ _ = None |- _ => rewrite E end. reflexivity.
  - split; [reflexivity|]. split; [reflexivity|]. intros Hd.
    match goal with Hf : finds _ _ _ _ _ _ _ _ |- _ =>
      pose proof (finds_positions _ _ _ _ _ _ _ _ Hf)
        as (name & rest & _ & Hl & _ & Hr & _ & Hi & Hi'); destruct Hf as [Ha Hs] end.
    assert (Hp0 : pcnt = 0).
    { destruct (Z.eq_dec pcnt 0) as [|Hne]; [assumption|].
      match goal with Hor : pcnt = 0 \/ c = 41 |- _ => destruct Hor as [|Hc]; [assumption|] end.
      subst c. exfalso.
      destruct (scanArgs_open _ _ _ _ _ _ _ (le_n _) Hs Hne) as [[_ E] | [s0 E]];
        [discriminate|].
      unfold sliceFrom in E.
      rewrite <- (firstn_skipn (i + len) raw), E, dangling_not_closed in Hd.
      discriminate. }
    subst pcnt.
    unfold iteration. rewrite Hadv, Ha.
    rewrite sliceFrom_snoc by lia.
    rewrite (scanArgs_closed _ _ [42] _ 1 _ _ _ (le_n _) ltac:(lia) Hs).
    cbn [Z.eqb negb andb].
    rewrite slice_snoc by assumption.
    match goal with E : sheetSelectable _ = true |- _ => rewrite E end. reflexivity.
  - exfalso.
    assert (Ht : tasks (recorded st op args i' prefix' tasks') = [])
      by (destruct (Nat.eqb i' (length raw)); exact Hx).
    cbn [recorded tasks] in Ht. destruct tasks'; discriminate.
Qed.

(** The loop, when it ends without a task: it has recorded nothing, and on
    [raw] with [*] it ends in the same way. *)
Lemma loop_plain rec rec' k :
  forall st m st' m',
  (pos st <= length raw)%nat ->
  loop rec raw root k st m = Done (Break st', m') ->
  tasks st' = [] ->
  m' = m /\ st' = atPos (length raw) st /\
  (reIsDanglingSelector raw = true ->
   forall k', (S (length raw) - pos st < k')%nat ->
   loop rec' (raw ++ [42]) root k' st m
   = Done (Break (atPos (length (raw ++ [42])) st), m)).
Proof.
  induction k as [|k IH]; intros st m st' m' Hpos H Ht; [discriminate|].
  cbn [loop] in H.
  destruct (iteration rec raw root st m) as [[[exit|st1] m1]|] eqn:E; [| |discriminate].
  - inversion H; subst.
    destruct (iteration_plain rec rec' st m _ _ Hpos E Ht) as (-> & Hx & Hd).
    inversion Hx; subst. split; [reflexivity|]. split; [reflexivity|].
    intros Hdang k' Hk'. destruct k' as [|k']; [lia|].
    cbn [loop]. rewrite (Hd Hdang). reflexivity.
  - pose proof (iteration_progress rec raw root st m st1 m1 E) as Hprog.
    destruct (IH st1 m1 st' m' ltac:(lia) H Ht) as (Em & Est & Hloop).
    assert (Ht1 : tasks st1 = []) by (rewrite Est in Ht; exact Ht).
    destruct (iteration_plain rec rec' st m _ _ Hpos E Ht1) as (Em1 & Hx & Hd).
    split; [congruence|]. split; [rewrite Est, Hx; reflexivity|].
    intros Hdang k' Hk'. destruct k' as [|k']; [lia|].
    cbn [loop]. rewrite (Hd Hdang). rewrite <- Em1.
    rewrite (Hloop Hdang k' ltac:(lia)). rewrite Hx. reflexivity.
Qed.

Lemma finish_tasks st d :
  finish raw true st = Some d -> tasksOf d = [] -> tasks st = [].
Proof.
  assert (Hfp : forall p ts a, finishPrefix true p ts a = Some d -> tasksOf d = ts).
  { intros p ts a. unfold finishPrefix. destruct p as [|c p];
      [intros H; inversion H; reflexivity|].
    destruct (negb (sheetSelectable _)); [discriminate|].
    intros H; inversion H; reflexivity. }
  unfold finish. destruct (tasks st) as [|t ts]; [reflexivity|].
  destruct (Nat.ltb (opPrefixBeg st) (length raw)).
  - destruct (action st); [discriminate|].
    destruct (compileSpathExpression _); [|discriminate].
    intros H Hd. apply Hfp in H. rewrite Hd in H. discriminate.
  - intros H Hd. apply Hfp in H. rewrite Hd in H. discriminate.
Qed.

End Plain.

(** *** The entry point *)

Record state := {
  regexToRawValue : rawValues;
  lastProceduralSelector : str;
  lastProceduralSelectorCompiled : option compiled
}.

Definition reset : state :=
  {| regexToRawValue := []; lastProceduralSelector := [];
     lastProceduralSelectorCompiled := None |}.

Definition entryPoint {host : Host} (raw : str) (st : state)
  : outcome (option compiled * state) :=
  if eqb raw (lastProceduralSelector st)
  then Done (lastProceduralSelectorCompiled st, st)
  else
    match compile raw true (regexToRawValue st) with
    | OutOfFuel => OutOfFuel
    | Done (r, m) =>
        let c := match r with
                 | Some d => Some {| desc := d; raw := decompile m d |}
                 | None => None
                 end in
        Done (c, {| regexToRawValue := m; lastProceduralSelector := raw;
                    lastProceduralSelectorCompiled := c |})
    end.

(** *** A host without [:has()]

    A style sheet that accepts the type selectors and the class selectors
    of the examples below and no pseudo-class with an argument, as the
    style sheet of a browser that knows neither the procedural operators
    nor [:has()]. *)
Module Legacy.

Definition plain (s : str) : bool :=
  existsb (eqb s)
    [lit "div"; lit "span"; lit ".ad"; lit ".sponsor"; lit "*"; lit "div > *";
     lit "* > span"; lit "*+ span"; lit ":scope > span"].

#[local] Instance legacy : Host := {|
  stylesheet := Some {| acceptsRule := plain; acceptsDeclarations := fun _ => true |};
  regExp := fun _ => true;
  createExpression := fun _ => true
|}.

Definition descriptorOf (r : outcome (option descriptor * rawValues)) : option descriptor :=
  match r with
  | Done (d, _) => d
  | OutOfFuel => None
  end.

Example compile_has_text :
  descriptorOf (compile (lit "div:contains(Sponsored)") true [])
  = Some (Descriptor (lit "div") [(HasText, ArgRegex (lit "Sponsored") None)] None).
Proof. vm_compute. reflexivity. Qed.

Example compile_nested :
  descriptorOf (compile (lit ".ad:has(span:has-text(/Spo.s/i)):remove()") true [])
  = Some (Descriptor (lit ".ad")
            [(Has, ArgDescriptor
                     (Descriptor (lit "span")
                        [(HasText, ArgRegex (lit "Spo.s") (Some (lit "i")))] None));
             (Remove, ArgString [])]
            (Some (lit "remove"))).
Proof. vm_compute. reflexivity. Qed.

Example compile_spath :
  descriptorOf (compile (lit "div:upward(2) > span") true [])
  = Some (Descriptor (lit "div")
            [(Upward, ArgInteger 2); (Spath, ArgString (lit " > span"))] None).
Proof. vm_compute. reflexivity. Qed.

Example compile_dangling :
  descriptorOf (compile (lit "div > :min-text-length(007)") true [])
  = Some (Descriptor (lit "div > *") [(MinTextLength, ArgInteger 7)] None).
Proof. vm_compute. reflexivity. Qed.

Example compile_sibling :
  descriptorOf (compile (lit "div:has(+ span:has-text(a))") true [])
  = Some (Descriptor (lit "div")
            [(Has, ArgDescriptor
                     (Descriptor []
                        [(Spath, ArgString (lit "+ span"));
                         (HasText, ArgRegex (lit "a") None)] None))] None).
Proof. vm_compute. reflexivity. Qed.

Example entryPoint_raw :
  match entryPoint (lit "div:-abp-has(> span):matches-css(color: red)") reset with
  | Done (Some c, _) => raw c
  | _ => []
  end = lit "div:has(:scope > span):matches-css(color: red)".
Proof. vm_compute. reflexivity. Qed.

(** C6, as stated, fails: in [div:has-text((a)] the count of the
    parentheses of the argument ends at 1, the last code unit read is the
    closing parenthesis, and [compile] returns a descriptor. *)
Lemma compile_accepts_unbalanced :
  finds (lit "div:has-text((a)") initial 4 9 HasText 16 1 0x29 /\
  descriptorOf (compile (lit "div:has-text((a)") true [])
  = Some (Descriptor (lit "div") [(HasText, ArgRegex (lit "\(a") None)] None).
Proof. split; [split|]; vm_compute; reflexivity. Qed.

Lemma compile_rejects_unbalanced_witness :
  compile (lit "div:has-text(a") true [] = Done (None, []).
Proof.
  apply (compile_rejects_unbalanced (lit "div:has-text(a") true [] 0 initial []
           4 9 HasText 14 1 97).
  - reflexivity.
  - split; vm_compute; reflexivity.
  - discriminate.
  - discriminate.
Defined.

Lemma compile_action_placement_witness :
  wellPlaced true
    (Descriptor (lit ".ad")
       [(Has, ArgDescriptor (Descriptor (lit "span") [] None));
        (Style, ArgString (lit "color: red !important"))]
       (Some (lit "style"))) = true /\
  actionFree (Descriptor (lit "span") [(HasText, ArgRegex (lit "a") None)] None) = true /\
  (exists m2, compile (lit ".ad:remove():has(span)") true [] = Done (None, m2)).
Proof.
  split; [|split].
  - apply (proj1 (compile_action_placement
                    (lit ".ad:has(span):style(color: red !important)") true []) _ []).
    vm_compute. reflexivity.
  - apply (proj1 (proj2 (compile_action_placement (lit "span:has-text(a)") true []))
             _ [(lit "a", lit "a")]).
    vm_compute. reflexivity.
  - apply (proj2 (proj2 (compile_action_placement (lit ".ad:remove():has(span)") true []))
             1%nat
             {| pos := 12; opPrefixBeg := 12; prefix := lit ".ad";
                tasks := [(Remove, ArgString [])]; action := Some (lit "remove") |}
             []).
    + vm_compute. reflexivity.
    + discriminate.
    + vm_compute. lia.
Defined.

Example compile_rejects_nested_action :
  compile (lit ".ad:has(span:remove())") true [] = Done (None, []).
Proof. vm_compute. reflexivity. Qed.

(** C10, as stated, fails: the empty argument does not hold [s*,s*], and
    the list that [compileAttrList] returns is empty, not the list of the
    one empty name. *)
Lemma compileAttrList_empty :
  includes (lit "s*,s*") [] = false /\
  compileAttrList [] <> [[]] /\
  descriptorOf (compile (lit "div:watch-attr()") true [])
  = Some (Descriptor (lit "div") [(WatchAttr, ArgAttrs [])] None).
Proof.
  split; [reflexivity|]. split; [discriminate|]. vm_compute. reflexivity.
Qed.

Lemma compileAttrList_literal_separator_witness :
  compileAttrList (lit "a,b") = [lit "a,b"].
Proof.
  apply (proj2 (compileAttrList_literal_separator (fun _ _ _ => OutOfFuel) (lit "a,b") [])).
  vm_compute. reflexivity.
Defined.

Example compileAttrList_splits_at_literal :
  compileAttrList (lit "as*,s*b") = [lit "a"; lit "b"].
Proof. vm_compute. reflexivity. Qed.

(** C1, as stated, fails: [.ad:if(.sponsor)] compiles to an [:if] task,
    its canonical string is [.ad:has(.sponsor)], which compiles to a [:has]
    task. *)
Lemma compile_decompile_if :
  entryPoint (lit ".ad:if(.sponsor)") reset
  = Done (Some {| desc := Descriptor (lit ".ad")
                            [(If, ArgDescriptor (Descriptor (lit ".sponsor") [] None))] None;
                  raw := lit ".ad:has(.sponsor)" |},
          {| regexToRawValue := [];
             lastProceduralSelector := lit ".ad:if(.sponsor)";
             lastProceduralSelectorCompiled :=
               Some {| desc := Descriptor (lit ".ad")
                                 [(If, ArgDescriptor (Descriptor (lit ".sponsor") [] None))]
                                 None;
                       raw := lit ".ad:has(.sponsor)" |} |}) /\
  descriptorOf (compile (lit ".ad:has(.sponsor)") true [])
  = Some (Descriptor (lit ".ad")
            [(Has, ArgDescriptor (Descriptor (lit ".sponsor") [] None))] None) /\
  Descriptor (lit ".ad") [(Has, ArgDescriptor (Descriptor (lit ".sponsor") [] None))] None
  <> Descriptor (lit ".ad") [(If, ArgDescriptor (Descriptor (lit ".sponsor") [] None))] None.
Proof.
  split; [vm_compute; reflexivity|]. split; [vm_compute; reflexivity|]. discriminate.
Qed.

(** The slip of [compileAttrList] breaks the round trip too. *)
Example compile_decompile_watch_attr :
  descriptorOf (compile (lit "div:watch-attr(as*,s*b)") true [])
  = Some (Descriptor (lit "div") [(WatchAttr, ArgAttrs [lit "a"; lit "b"])] None) /\
  decompile [] (Descriptor (lit "div") [(WatchAttr, ArgAttrs [lit "a"; lit "b"])] None)
  = lit "div:watch-attr(a,b)" /\
  descriptorOf (compile (lit "div:watch-attr(a,b)") true [])
  = Some (Descriptor (lit "div") [(WatchAttr, ArgAttrs [lit "a,b"])] None).
Proof. repeat split; vm_compute; reflexivity. Qed.

End Legacy.

(** *** The fuel of the recursion *)

Section Fuel.

Context {host : Host}.

(** [rec2] returns what [rec1] returns, wherever [rec1] returns. *)
Definition refines
    (rec1 rec2 : str -> bool -> rawValues -> outcome (option descriptor * rawValues))
  : Prop :=
  forall s r m x, rec1 s r m = Done x -> rec2 s r m = Done x.

Lemma compileArgument_refines rec1 rec2 op s m x :
  refines rec1 rec2 ->
  compileArgument rec1 op s m = Done x ->
  compileArgument rec2 op s m = Done x.
Proof.
  intros Hr.
  assert (Hc : forall s0, compileConditionalSelector rec1 s0 m = Done x ->
                          compileConditionalSelector rec2 s0 m = Done x).
  { intros s0. unfold compileConditionalSelector. cbv zeta.
    destruct (rec1 _ false m) as [[[d|] m1]|] eqn:E; intros H; try discriminate;
      rewrite (Hr _ _ _ _ E); exact H. }
  destruct op; cbn [compileArgument]; auto.
  unfold compileNotSelector. destruct (negb (sheetSelectable s)); auto.
Qed.

Lemma iteration_refines rec1 rec2 raw root st m x :
  refines rec1 rec2 ->
  iteration rec1 raw root st m = Done x ->
  iteration rec2 raw root st m = Done x.
Proof.
  intros Hr. unfold iteration.
  destruct (advance (sliceFrom (pos st) raw) (pos st)) as [[i [len op]]|]; [|auto].
  destruct (scanArgs (sliceFrom (i + len) raw) (i + len) 1 58) as [[i' pcnt] c].
  destruct (negb (pcnt =? 0) && negb (c =? 41)); [auto|].
  destruct (sheetSelectable (slice (i - 1) i' raw)); [auto|].
  destruct (compileArgument rec1 op _ m) as [[a m1]|] eqn:E; [|discriminate].
  rewrite (compileArgument_refines _ _ _ _ _ _ Hr E). auto.
Qed.

Lemma loop_refines rec1 rec2 raw root k :
  refines rec1 rec2 ->
  forall st m x,
  loop rec1 raw root k st m = Done x ->
  loop rec2 raw root k st m = Done x.
Proof.
  intros Hr. induction k as [|k IH]; intros st m x H; [discriminate|].
  cbn [loop] in H |- *.
  destruct (iteration rec1 raw root st m) as [[[exit|st1] m1]|] eqn:E; [| |discriminate];
    rewrite (iteration_refines _ _ _ _ _ _ _ Hr E); auto.
Qed.

Lemma compileBody_refines rec1 rec2 :
  refines rec1 rec2 -> refines (compileBody rec1) (compileBody rec2).
Proof.
  intros Hr raw root m x. unfold compileBody. destruct raw as [|c raw]; [auto|].
  destruct (loop rec1 (c :: raw) root (S (length (c :: raw))) initial m)
    as [[exit m1]|] eqn:E; [|discriminate].
  rewrite (loop_refines _ _ _ _ _ Hr _ _ _ E). auto.
Qed.

Lemma compileFuel_step (fuel : nat) : refines (compileFuel fuel) (compileFuel (S fuel)).
Proof.
  induction fuel as [|fuel IH]; [intros s r m x H; discriminate|].
  change (refines (compileBody (compileFuel fuel)) (compileBody (compileFuel (S fuel)))).
  apply compileBody_refines. exact IH.
Qed.

Lemma compileFuel_more (k fuel : nat) : refines (compileFuel fuel) (compileFuel (fuel + k)).
Proof.
  induction k as [|k IH]; intros s r m x H.
  - rewrite Nat.add_0_r. exact H.
  - rewrite Nat.add_succ_r. apply compileFuel_step, IH, H.
Qed.

(** [compile] returns on every raw string, with every host: its loops end
    and its recursion into the nested selectors ends.  The bound that the
    embedding puts on the recursion plays no part in the result: a larger
    bound gives the same result. *)
Theorem compile_returns (raw : str) (root : bool) (m : rawValues) :
  exists r m',
    compile raw root m = Done (r, m') /\
    forall k, compileFuel (S (length raw) + k) raw root m = Done (r, m').
Proof.
  destruct (compileFuel_total (S (length raw)) raw root m) as [[r m'] E].
  - pose proof (parens_le_length raw). lia.
  - exists r, m'. split; [exact E|].
    intros k. apply compileFuel_more. exact E.
Qed.

End Fuel.

(** *** The arguments of the tasks *)

(** The argument of a task is the one that the class of the task in the
    content script reads: a nested descriptor for [:has], [:if], [:if-not]
    and [:not], a regular expression for [:has-text], a declaration for
    the [:matches-css] operators, a count below [0x7FFFFFFF] for
    [:min-text-length], the empty string for [:remove], a number of levels
    from 1 to 255 or a selector for [:upward], names that are not empty
    for [:watch-attr], a string for the others. *)
Fixpoint shaped (d : descriptor) : bool :=
  match d with
  | Descriptor _ ts _ =>
      forallb (fun t : operator * argument =>
                 match fst t, snd t with
                 | (Has | If | IfNot | Not), ArgDescriptor d' => shaped d'
                 | HasText, ArgRegex _ _ => true
                 | (MatchesCss | MatchesCssAfter | MatchesCssBefore),
                   ArgDeclaration _ _ _ => true
                 | MinTextLength, ArgInteger n => (0 <=? n) && (n <? 0x7FFFFFFF)
                 | Remove, ArgString s => eqb s []
                 | (Spath | Style | Xpath), ArgString _ => true
                 | Upward, ArgInteger n => (1 <=? n) && (n <? 256)
                 | Upward, ArgString _ => true
                 | WatchAttr, ArgAttrs attrs => forallb (fun a => negb (eqb a [])) attrs
                 | _, _ => false
                 end) ts
  end.

Definition argShaped (op : operator) (a : argument) : bool :=
  match op, a with
  | (Has | If | IfNot | Not), ArgDescriptor d' => shaped d'
  | HasText, ArgRegex _ _ => true
  | (MatchesCss | MatchesCssAfter | MatchesCssBefore), ArgDeclaration _ _ _ => true
  | MinTextLength, ArgInteger n => (0 <=? n) && (n <? 0x7FFFFFFF)
  | Remove, ArgString s => eqb s []
  | (Spath | Style | Xpath), ArgString _ => true
  | Upward, ArgInteger n => (1 <=? n) && (n <? 256)
  | Upward, ArgString _ => true
  | WatchAttr, ArgAttrs attrs => forallb (fun a => negb (eqb a [])) attrs
  | _, _ => false
  end.

Definition taskShaped (t : task) : bool := argShaped (fst t) (snd t).

Lemma shaped_tasks (sel : str) (ts : list task) (a : option str) :
  shaped (Descriptor sel ts a) = forallb taskShaped ts.
Proof. reflexivity. Qed.

Section Shaped.

Context {host : Host}.
Variable compileRec : str -> bool -> rawValues -> outcome (option descriptor * rawValues).
Variable raw : str.
Variable root : bool.

Hypothesis compileRec_shaped :
  forall s r m d m', compileRec s r m = Done (Some d, m') -> shaped d = true.

Lemma compileInteger_range (s : str) (min max n : Z) :
  compileInteger s min max = Some n -> (min <=? n) && (n <? max) = true.
Proof.
  unfold compileInteger. destruct (negb (reDigits s)); [discriminate|].
  destruct ((parseInt s <? min) || (max <=? parseInt s)) eqn:E; [discriminate|].
  intros H; inversion H; subst.
  apply orb_false_iff in E as [E1 E2].
  apply Z.ltb_ge in E1. apply Z.leb_gt in E2.
  apply andb_true_iff. split; [apply Z.leb_le | apply Z.ltb_lt]; assumption.
Qed.

Lemma compileArgument_shaped op s m args m' :
  compileArgument compileRec op s m = Done (Some args, m') ->
  argShaped op args = true.
Proof.
  assert (Hc : forall s0, compileConditionalSelector compileRec s0 m = Done (Some args, m') ->
               exists d, args = ArgDescriptor d /\ shaped d = true).
  { intros s0. unfold compileConditionalSelector. cbv zeta.
    destruct (compileRec _ false m) as [[[d|] m1]|] eqn:E; intros H; inversion H; subst.
    exists d. split; [reflexivity|]. eapply compileRec_shaped; eauto. }
  assert (Hd : compileCSSDeclaration s m = (Some args, m') ->
               exists name source flags, args = ArgDeclaration name source flags).
  { unfold compileCSSDeclaration. destruct (indexOf 58 s); [|intros H; inversion H].
    destruct (reParseRegexLiteral _) as [[? ?]|];
      [destruct (isBadRegex _)|]; intros H; inversion H; eauto. }
  destruct op; cbn [compileArgument]; intros H.
  - destruct (Hc _ H) as (d & -> & Hs). exact Hs.
  - inversion H as [H1]. unfold compileText in H1.
    destruct (reParseRegexLiteral s) as [[? ?]|];
      [destruct (isBadRegex _)|]; inversion H1; reflexivity.
  - destruct (Hc _ H) as (d & -> & Hs). exact Hs.
  - destruct (Hc _ H) as (d & -> & Hs). exact Hs.
  - inversion H as [H1]. destruct (Hd H1) as (? & ? & ? & ->). reflexivity.
  - inversion H as [H1]. destruct (Hd H1) as (? & ? & ? & ->). reflexivity.
  - inversion H as [H1]. destruct (Hd H1) as (? & ? & ? & ->). reflexivity.
  - destruct (compileInteger s 0 2147483647) as [n|] eqn:E; inversion H; subst.
    cbn [argShaped]. apply (compileInteger_range _ _ _ _ E).
  - unfold compileNotSelector in H. destruct (negb (sheetSelectable s)); [|inversion H].
    destruct (Hc _ H) as (d & -> & Hs). exact Hs.
  - unfold compileRemoveSelector in H. destruct s; inversion H; reflexivity.
  - destruct (compileSpathExpression s); inversion H; reflexivity.
  - unfold compileStyleProperties in H. destruct (reForbiddenStyle s); [inversion H|].
    destruct stylesheet as [sheet|]; [destruct (acceptsDeclarations sheet s)|];
      inversion H; reflexivity.
  - unfold compileUpwardArgument in H.
    destruct (compileInteger s 1 256) as [n|] eqn:E.
    + inversion H; subst. cbn [argShaped]. apply (compileInteger_range _ _ _ _ E).
    + destruct (sheetSelectable s); inversion H; reflexivity.
  - inversion H; subst. cbn [argShaped]. unfold compileAttrList.
    apply forallb_forall. intros a Ha. apply filter_In in Ha as [_ Ha]. exact Ha.
  - unfold compileXpathExpression in H. destruct (createExpression s);
      inversion H; reflexivity.
Qed.

Definition stateShaped (st : loopState) : Prop := forallb taskShaped (tasks st) = true.

Lemma snoc_shaped (ts : list task) (op : operator) (a : argument) :
  forallb taskShaped ts = true -> argShaped op a = true ->
  forallb taskShaped (ts ++ [(op, a)]) = true.
Proof.
  intros Hts Ha. rewrite forallb_app, Hts. cbn [forallb]. unfold taskShaped.
  cbn [fst snd]. rewrite Ha. reflexivity.
Qed.

Lemma beforeOperator_shaped opNameBeg st prefix' tasks' :
  stateShaped st ->
  beforeOperator raw opNameBeg st = Some (prefix', tasks') ->
  forallb taskShaped tasks' = true.
Proof.
  unfold stateShaped, beforeOperator. intros Hs.
  destruct (Nat.eqb (opPrefixBeg st) 0); [intros H; inversion H; subst; exact Hs|].
  destruct (negb (Nat.eqb opNameBeg (opPrefixBeg st)));
    [|intros H; inversion H; subst; exact Hs].
  destruct (action st); [discriminate|].
  destruct (compileSpathExpression _); intros H; inversion H; subst.
  apply snoc_shaped; [exact Hs | reflexivity].
Qed.

Lemma iteration_shaped st m x m' :
  stateShaped st ->
  iteration compileRec raw root st m = Done (x, m') ->
  match x with
  | inl (Break st') | inr st' => stateShaped st'
  | inl ReturnUndefined => True
  end.
Proof.
  intros Hs H. pose proof (iteration_turned compileRec raw root st m) as T.
  rewrite H in T.
  inversion T; subst; try exact I; try exact Hs.
  assert (Hr : stateShaped (recorded st op args i' prefix' tasks')).
  { unfold stateShaped, recorded. cbn [tasks].
    apply snoc_shaped.
    - eapply beforeOperator_shaped; eauto.
    - eapply compileArgument_shaped; eauto. }
  destruct (Nat.eqb i' (length raw)); exact Hr.
Qed.

Lemma loop_shaped k :
  forall st m st' m',
  stateShaped st ->
  loop compileRec raw root k st m = Done (Break st', m') ->
  stateShaped st'.
Proof.
  induction k as [|k IH]; intros st m st' m' Hs H; [discriminate|].
  cbn [loop] in H.
  destruct (iteration compileRec raw root st m) as [[[exit|st1] m1]|] eqn:E;
    [| |discriminate].
  - inversion H; subst. apply (iteration_shaped _ _ _ _ Hs E).
  - apply (IH _ _ _ _ (iteration_shaped _ _ _ _ Hs E) H).
Qed.

Lemma finishPrefix_shaped prefix0 ts a d :
  forallb taskShaped ts = true ->
  finishPrefix root prefix0 ts a = Some d ->
  shaped d = true.
Proof.
  intros Hs. unfold finishPrefix.
  destruct prefix0 as [|c p]; [intros H; inversion H; subst; exact Hs|].
  destruct (negb (sheetSelectable _)); [|intros H; inversion H; subst; exact Hs].
  destruct (root || negb (reIsSiblingSelector _) || _); intros H; inversion H; subst.
  rewrite shaped_tasks. cbn [forallb]. rewrite Hs. reflexivity.
Qed.

Lemma finish_shaped st d :
  stateShaped st ->
  finish raw root st = Some d ->
  shaped d = true.
Proof.
  unfold stateShaped, finish. intros Hs.
  destruct (tasks st) as [|t ts] eqn:Et.
  - destruct (root && sheetSelectable _).
    + destruct (action st) as [a|].
      * destruct (eqb (firstn 1 a) (lit ":style")).
        -- intros H; inversion H; subst. reflexivity.
        -- apply finishPrefix_shaped. reflexivity.
      * intros H; inversion H; subst. reflexivity.
    + apply finishPrefix_shaped. reflexivity.
  - destruct (Nat.ltb (opPrefixBeg st) (length raw)).
    + destruct (action st) as [name|]; [discriminate|].
      destruct (compileSpathExpression _); [|discriminate].
      apply finishPrefix_shaped. apply snoc_shaped; [exact Hs | reflexivity].
    + apply finishPrefix_shaped. exact Hs.
Qed.

Lemma compileBody_shaped m d m' :
  compileBody compileRec raw root m = Done (Some d, m') ->
  shaped d = true.
Proof.
  unfold compileBody. intros H.
  destruct (loop compileRec raw root (S (length raw)) initial m)
    as [[[st|] m1]|] eqn:E.
  - assert (Hst : stateShaped st) by (eapply loop_shaped; eauto; reflexivity).
    pose proof (finish_shaped st d Hst) as Hfin.
    clear E. destruct raw; [discriminate|]. inversion H; subst. auto.
  - destruct raw; discriminate.
  - destruct raw; discriminate.
Qed.

End Shaped.

Section Compiled.

Context {host : Host}.

Lemma compileFuel_shaped (fuel : nat) :
  forall raw root m d m',
  compileFuel fuel raw root m = Done (Some d, m') ->
  shaped d = true.
Proof.
  induction fuel as [|fuel IH]; intros raw root m d m' H; [discriminate|].
  cbn [compileFuel] in H. eapply compileBody_shaped; [|exact H].
  intros s r m0 d0 m0' H0. eapply IH; eauto.
Qed.

(** In a descriptor that [compile] returns, and in the descriptors nested
    in it, every task has the argument of its operator, within the bounds
    of its validator. *)
Theorem compile_shaped (raw : str) (root : bool) (m : rawValues)
    (d : descriptor) (m' : rawValues) :
  compile raw root m = Done (Some d, m') -> shaped d = true.
Proof. intros H. eapply compileFuel_shaped; eauto. Qed.

(** A raw string that [compile] accepts at the root without recording a
    task is a selector that the style sheet of the host accepts, as it is
    or, when it ends with a combinator or white space, with [*] after it.
    The descriptor has this selector and no action, and [regexToRawValue]
    is as it was. *)
Theorem compile_plain_selector (raw : str) (m : rawValues) (d : descriptor)
    (m' : rawValues) :
  compile raw true m = Done (Some d, m') ->
  tasksOf d = [] ->
  m' = m /\ actionOf d = None /\
  sheetSelectable (selectorOf d) = true /\
  (selectorOf d = raw \/
   (reIsDanglingSelector raw = true /\ selectorOf d = raw ++ [42])).
Proof.
  intros H Hd.
  unfold compile in H. cbn [compileFuel] in H. unfold compileBody in H.
  destruct raw as [|c0 r0] eqn:Er; [discriminate|]. rewrite <- Er in *.
  destruct (loop (compileFuel (length raw)) raw true (S (length raw)) initial m)
    as [[[st|] m1]|] eqn:El; try discriminate.
  inversion H; subst m1. clear H.
  match goal with Hf : finish _ _ _ = Some d |- _ => rename Hf into Hfin end.
  pose proof (finish_tasks raw st d Hfin Hd) as Ht.
  assert (Hpos : (pos initial <= length raw)%nat) by (cbn [initial pos]; lia).
  destruct (loop_plain raw true (compileFuel (length raw))
              (compileFuel (length (raw ++ [42]))) _ _ _ _ _ Hpos El Ht)
    as (Em & Est & _).
  subst m' st. split; [reflexivity|].
  unfold finish in Hfin. cbn [atPos initial tasks action andb] in Hfin.
  destruct (sheetSelectable raw) eqn:Es.
  - inversion Hfin; subst d. cbn [actionOf selectorOf]. auto.
  - unfold finishPrefix in Hfin. rewrite Er in Hfin at 1.
    destruct (reIsDanglingSelector raw) eqn:Edang.
    + destruct (sheetSelectable (raw ++ [42])) eqn:Es2; [|discriminate].
      cbn [negb] in Hfin. inversion Hfin; subst d. cbn [actionOf selectorOf]. auto.
    + rewrite Es in Hfin. discriminate.
Qed.

(** [entryPoint] remembers the last raw string and what it compiled to: a
    second call with the same string returns the same result and leaves
    the state of the module as the first call left it. *)
Theorem entryPoint_memo (raw : str) (st st' : state) (c : option compiled) :
  entryPoint raw st = Done (c, st') ->
  entryPoint raw st' = Done (c, st').
Proof.
  unfold entryPoint. destruct (eqb raw (lastProceduralSelector st)) eqn:E.
  - intros H; inversion H; subst. rewrite E. reflexivity.
  - destruct (compile raw true (regexToRawValue st)) as [[r m]|]; [|discriminate].
    intros H; inversion H; subst. cbn [lastProceduralSelector]. rewrite eqb_refl.
    reflexivity.
Qed.

End Compiled.

(** *** The entry point of the engines ([api.compileSelector]) *)

(** [[a-z-]] *)
Definition isNameChar (c : Z) : bool := ((97 <=? c) && (c <=? 122)) || (c =? 45).

(** [[a-z-]+], as long as it can be, and what follows it. *)
Fixpoint takeName (s : str) : str * str :=
  match s with
  | [] => ([], [])
  | c :: s' =>
      if isNameChar c then let '(name, rest) := takeName s' in (c :: name, rest)
      else ([], s)
  end.

(** [(.+?)\2\]]: the shortest text, not empty and without a line
    terminator, that the quote [q] and a closing bracket follow; [body]
    holds what is read so far, last code unit first.  The result is the
    text and what follows the bracket. *)
Fixpoint lazyBody (q : Z) (s : str) (body : str) : option (str * str) :=
  match s with
  | [] => None
  | c :: s' =>
      if match body with [] => false | _ :: _ => true end
         && (c =? q) && startsWith [93] s'
      then Some (rev body, skipn 1 s')
      else if isLineTerminator c then None
      else lazyBody q s' (c :: body)
  end.

(** [reExtendedSyntaxParser] at the start of [s]: an opening bracket, [-abp-]
    or [-ext-], a name (the first group), [=], a single or a double quote
    (the second group), the text (the third group), the same quote and a
    closing bracket.  The result is the first and the third group and the
    length of the match. *)
Definition extendedAt (s : str) : option (str * str * nat) :=
  if startsWith (lit "[-abp-") s || startsWith (lit "[-ext-") s then
    let '(name, r) := takeName (skipn 6 s) in
    match name, r with
    | _ :: _, e :: q :: r' =>
        if (e =? 61) && ((q =? 39) || (q =? 34)) then
          match lazyBody q r' [] with
          | Some (body, rest) => Some (name, body, (length s - length rest)%nat)
          | None => None
          end
        else None
    | _, _ => None
    end
  else None.

(** [reExtendedSyntaxParser.exec(raw)]: the first place of [raw] with a
    match, from [i] on, with the groups and the length of the match. *)
Fixpoint findExtended (s : str) (i : nat) : option (nat * (str * str * nat)) :=
  match extendedAt s with
  | Some found => Some (i, found)
  | None =>
      match s with
      | [] => None
      | _ :: s' => findExtended s' (S i)
      end
  end.

(** [reExtendedSyntax.test(raw)]; the expression is the one of the parser
    without its groups. *)
Definition reExtendedSyntax (raw : str) : bool :=
  match findExtended raw 0 with Some _ => true | None => false end.

Definition normalizedExtendedSyntaxOperators (name : str) : option str :=
  if eqb name (lit "contains") then Some (lit ":has-text")
  else if eqb name (lit "has") then Some (lit ":has")
  else if eqb name (lit "matches-css") then Some (lit ":matches-css")
  else if eqb name (lit "matches-css-after") then Some (lit ":matches-css-after")
  else if eqb name (lit "matches-css-before") then Some (lit ":matches-css-before")
  else None.

(** The loop that translates the extended syntax, for at most [fuel]
    turns: [OutOfFuel], or the translated string, [None] when an operator
    is unknown. *)
Fixpoint translateExtended (fuel : nat) (raw : str) : outcome (option str) :=
  match fuel with
  | O => OutOfFuel
  | S fuel' =>
      match findExtended raw 0 with
      | None => Done (Some raw)
      | Some (index, (name, body, len)) =>
          match normalizedExtendedSyntaxOperators name with
          | None => Done None
          | Some operator =>
              translateExtended fuel'
                (slice 0 index raw ++ operator ++ [40] ++ body ++ [41]
                   ++ sliceFrom (index + len) raw)
          end
      end
  end.

(** What [api.compileSelector] returns: a plain selector, or the JSON text
    of a compiled descriptor, held here as the descriptor. *)
Inductive compiledSelector :=
| PlainSelector (s : str)
| Json (c : compiled).

Section Selector.

Context {host : Host}.

Definition stringified (c : compiled) : compiledSelector :=
  if negb (eqb (selectorOf (desc c)) (raw c)) || negb (sheetSelectable (selectorOf (desc c)))
  then Json c
  else PlainSelector (selectorOf (desc c)).

(** [api.compileSelector(raw)]; [fuel] bounds the recursion of
    [entryPoint] into itself. *)
Fixpoint compileSelector (fuel : nat) (raw : str) (st : state)
  : outcome (option compiledSelector * state) :=
  match fuel with
  | O => OutOfFuel
  | S fuel' =>
      let extendedSyntax := reExtendedSyntax raw in
      if sheetSelectable raw && negb extendedSyntax
      then Done (Some (PlainSelector raw), st)
      else if extendedSyntax then
        match translateExtended (S (length raw)) raw with
        | OutOfFuel => OutOfFuel
        | Done None => Done (None, st)
        | Done (Some raw') => compileSelector fuel' raw' st
        end
      else
        match entryPoint raw st with
        | OutOfFuel => OutOfFuel
        | Done (None, st') => Done (None, st')
        | Done (Some c, st') => Done (Some (stringified c), st')
        end
  end.

Lemma takeName_app (s : str) : s = fst (takeName s) ++ snd (takeName s).
Proof.
  induction s as [|c s IH]; cbn [takeName]; [reflexivity|].
  destruct (isNameChar c); [|reflexivity].
  destruct (takeName s) as [name rest]. cbn [fst snd app] in *. f_equal. exact IH.
Qed.

Lemma lazyBody_app (q : Z) (s : str) :
  forall acc body rest,
  lazyBody q s acc = Some (body, rest) ->
  rev acc ++ s = body ++ q :: 93 :: rest.
Proof.
  induction s as [|c s IH]; intros acc body rest H; cbn [lazyBody] in H; [discriminate|].
  destruct (match acc with [] => false | _ :: _ => true end && (c =? q) && startsWith [93] s)
    eqn:E.
  - inversion H; subst. apply andb_true_iff in E as [E E3].
    apply andb_true_iff in E as [_ E2]. apply Z.eqb_eq in E2. subst c.
    destruct (startsWith_app _ _ E3) as [r ->]. reflexivity.
  - destruct (isLineTerminator c); [discriminate|].
    rewrite <- (IH _ _ _ H). cbn [rev]. rewrite <- app_assoc. reflexivity.
Qed.

Lemma extendedAt_length (s name body : str) (len : nat) :
  extendedAt s = Some (name, body, len) ->
  len = (length name + length body + 10)%nat /\ (len <= length s)%nat.
Proof.
  unfold extendedAt.
  destruct (startsWith (lit "[-abp-") s || startsWith (lit "[-ext-") s) eqn:Es;
    [|discriminate].
  assert (Hs : exists r0, s = firstn 6 s ++ r0 /\ r0 = skipn 6 s /\ length (firstn 6 s) = 6%nat).
  { exists (skipn 6 s). split; [symmetry; apply firstn_skipn|]. split; [reflexivity|].
    apply orb_true_iff in Es as [E | E]; destruct (startsWith_app _ _ E) as [r ->];
      reflexivity. }
  destruct Hs as (r0 & Hs & Hr0 & H6). rewrite <- Hr0.
  pose proof (takeName_app r0) as Hn.
  destruct (takeName r0) as [name0 r]. cbn [fst snd] in Hn.
  destruct name0 as [|c0 name0]; [discriminate|].
  destruct r as [|e [|q r']]; try discriminate.
  destruct ((e =? 61) && ((q =? 39) || (q =? 34))); [|discriminate].
  destruct (lazyBody q r' []) as [[body0 rest]|] eqn:El; [|discriminate].
  intros H; inversion H; subst name body len. clear H.
  pose proof (lazyBody_app _ _ _ _ _ El) as Hb. cbn [rev app] in Hb.
  assert (Hlen : length s = (6 + length (c0 :: name0) + 2 + length body0 + 2 + length rest)%nat).
  { rewrite Hs, length_app, H6, Hn, length_app. cbn [length]. rewrite Hb, length_app.
    cbn [length]. lia. }
  lia.
Qed.

Lemma findExtended_bounds (s : str) :
  forall i index name body len,
  findExtended s i = Some (index, (name, body, len)) ->
  (i <= index)%nat /\ (index - i + len <= length s)%nat /\
  len = (length name + length body + 10)%nat.
Proof.
  induction s as [|c s IH]; intros i index name body len H; cbn [findExtended] in H.
  - destruct (extendedAt []) as [[[n b] l]|] eqn:E; [|discriminate].
    inversion H; subst. destruct (extendedAt_length _ _ _ _ E). lia.
  - destruct (extendedAt (c :: s)) as [[[n b] l]|] eqn:E.
    + inversion H; subst. destruct (extendedAt_length _ _ _ _ E). lia.
    + destruct (IH _ _ _ _ _ H) as (H1 & H2 & H3). cbn [length]. lia.
Qed.

Lemma operator_length (name operator : str) :
  normalizedExtendedSyntaxOperators name = Some operator ->
  (length operator <= length name + 1)%nat.
Proof.
  unfold normalizedExtendedSyntaxOperators.
  destruct (eqb name (lit "contains")) eqn:E1;
    [apply eqb_eq in E1; subst name; intros H; inversion H; vm_compute; lia|].
  destruct (eqb name (lit "has")) eqn:E2;
    [apply eqb_eq in E2; subst name; intros H; inversion H; vm_compute; lia|].
  destruct (eqb name (lit "matches-css")) eqn:E3;
    [apply eqb_eq in E3; subst name; intros H; inversion H; vm_compute; lia|].
  destruct (eqb name (lit "matches-css-after")) eqn:E4;
    [apply eqb_eq in E4; subst name; intros H; inversion H; vm_compute; lia|].
  destruct (eqb name (lit "matches-css-before")) eqn:E5;
    [apply eqb_eq in E5; subst name; intros H; inversion H; vm_compute; lia|].
  discriminate.
Qed.

(** A turn of the loop makes the string shorter. *)
Lemma translateExtended_returns (fuel : nat) :
  forall raw, (length raw < fuel)%nat ->
  exists r, translateExtended fuel raw = Done r /\
            match r with Some raw' => reExtendedSyntax raw' = false | None => True end.
Proof.
  induction fuel as [|fuel IH]; intros raw Hf; [lia|].
  cbn [translateExtended]. unfold reExtendedSyntax.
  destruct (findExtended raw 0) as [[index [[name body] len]]|] eqn:E.
  - destruct (normalizedExtendedSyntaxOperators name) as [operator|] eqn:Eo;
      [|exists None; auto].
    apply IH.
    destruct (findExtended_bounds _ _ _ _ _ _ E) as (_ & Hb & Hl).
    pose proof (operator_length _ _ Eo) as Ho.
    unfold slice, sliceFrom.
    rewrite !length_app, length_firstn, !length_skipn. cbn [length]. lia.
  - exists (Some raw). rewrite E. auto.
Qed.

(** [api.compileSelector] returns, and two levels of [entryPoint] are as
    deep as its recursion goes: the translated string holds no extended
    syntax.  A plain selector that it returns is one that the style sheet
    of the host accepts; a procedural selector comes back as the JSON text
    of its descriptor. *)
Theorem compileSelector_returns (k : nat) (raw : str) (st : state) :
  exists r st',
    compileSelector (2 + k) raw st = Done (r, st') /\
    forall s, r = Some (PlainSelector s) -> sheetSelectable s = true.
Proof.
  assert (Hproc : forall fuel raw0 st0,
             reExtendedSyntax raw0 = false ->
             exists r st',
               compileSelector (S fuel) raw0 st0 = Done (r, st') /\
               forall s, r = Some (PlainSelector s) -> sheetSelectable s = true).
  { intros fuel raw0 st0 He. cbn [compileSelector]. rewrite He. cbn [negb].
    rewrite andb_true_r.
    destruct (sheetSelectable raw0) eqn:Es.
    - exists (Some (PlainSelector raw0)), st0. split; [reflexivity|].
      intros s H; inversion H; subst. exact Es.
    - unfold entryPoint.
      destruct (eqb raw0 (lastProceduralSelector st0)).
      + destruct (lastProceduralSelectorCompiled st0) as [c|].
        * exists (Some (stringified c)), st0. split; [reflexivity|].
          unfold stringified. intros s.
          destruct (negb (eqb (selectorOf (desc c)) (Compiler.raw c))); cbn [orb];
            [discriminate|].
          destruct (sheetSelectable (selectorOf (desc c))) eqn:E2; cbn [negb];
            [|discriminate].
          intros H; inversion H; subst. exact E2.
        * exists None, st0. split; [reflexivity | discriminate].
      + destruct (compile_total raw0 true (regexToRawValue st0)) as (r & m & Ec).
        rewrite Ec. destruct r as [d|].
        * eexists _, _. split; [reflexivity|].
          unfold stringified. cbn [desc Compiler.raw]. intros s.
          destruct (negb (eqb (selectorOf d) (decompile m d))); cbn [orb];
            [discriminate|].
          destruct (sheetSelectable (selectorOf d)) eqn:E2; cbn [negb]; [|discriminate].
          intros H; inversion H; subst. exact E2.
        * eexists _, _. split; [reflexivity | discriminate]. }
  destruct (reExtendedSyntax raw) eqn:He; [|apply Hproc; exact He].
  change (2 + k)%nat with (S (S k)). cbn [compileSelector]. rewrite He.
  cbn [negb]. rewrite andb_false_r.
  destruct (translateExtended_returns (S (length raw)) raw (Nat.lt_succ_diag_r _))
    as (r & -> & Hr).
  destruct r as [raw'|].
  - apply Hproc. exact Hr.
  - exists None, st. split; [reflexivity | discriminate].
Qed.

End Selector.

(** *** The scan of a string that holds another *)












(** The match of an operator depends on its name alone. *)
Lemma startsWith_paren (n name X : str) :
  ~ In 40 n -> ~ In 40 name ->
  startsWith (n ++ [40]) (name ++ 40 :: X) = eqb n name.
Proof.
  revert name; induction n as [|x n IH]; intros [|y name] Hn Hname;
    cbn [app startsWith eqb].
  - rewrite Z.eqb_refl. reflexivity.
  - destruct (40 =? y) eqn:E; [|reflexivity]. apply Z.eqb_eq in E.
    exfalso. apply Hname. left. auto.
  - destruct (x =? 40) eqn:E; [|reflexivity]. apply Z.eqb_eq in E.
    exfalso. apply Hn. left. auto.
  - rewrite IH; [reflexivity| |]; intros H; [apply Hn | apply Hname]; right; assumption.
Qed.


Lemma matchOperator_name (table : list (str * operator)) (name X Y : str) :
  (forall n o, In (n, o) table -> ~ In 40 n) ->
  ~ In 40 name ->
  matchOperator table (name ++ 40 :: X) = matchOperator table (name ++ 40 :: Y).
Proof.
  intros Ht Hname. induction table as [|[n o] table IH]; [reflexivity|].
  cbn [matchOperator].
  rewrite !startsWith_paren; auto; try (apply (Ht n o); left; reflexivity).
  rewrite IH; [reflexivity|]. intros n' o' Hin. apply (Ht n' o'). right. assumption.
Qed.



(** *** The second loop *)





(** *** The text of an integer *)








(** *** One turn of the loop, by the text at its place *)









Section TurnAt.

Context {host : Host}.
Variable compileRec : str -> bool -> rawValues -> outcome (option descriptor * rawValues).
Variable root : bool.





End TurnAt.

(** *** The text that the loop passes over *)


Section Regions.

Context {host : Host}.

(** An operator with its argument that the loop takes for plain CSS: the
    scan of [body] ends on its last code unit, the parenthesis that brings
    the count to zero, and the style sheet accepts the whole. *)
Definition passedOver (name body : str) : Prop :=
  (exists op, In (name, op) proceduralOperators) /\
  fst (scanArgs body 0 1 0x3A) = (length body, 0) /\
  sheetSelectable (58 :: name ++ 40 :: body) = true.

(** Text that the loop passes in whole turns: each turn goes over text
    that opens no operator and then over an operator taken for plain
    CSS. *)
Inductive skipped : str -> Prop :=
| skipped_nil : skipped []
| skipped_snoc s q name body :
    skipped s -> advance q 0 = None -> passedOver name body ->
    skipped (s ++ q ++ 58 :: name ++ 40 :: body).

(** The last operator of a string, taken for plain CSS, whose argument
    runs to the end of the string with the count above zero. *)
Definition openEnd (u : str) : Prop :=
  exists q name body pcnt,
    u = q ++ 58 :: name ++ 40 :: body /\ advance q 0 = None /\
    (exists op, In (name, op) proceduralOperators) /\
    scanArgs body 0 1 0x3A = (length body, pcnt, 0x29) /\ pcnt <> 0 /\
    sheetSelectable (58 :: name ++ 40 :: body) = true.

(** The text between two recorded operators, or before the first: the
    loop finds nothing to record in it. *)
Definition innerRegion (g : str) : Prop :=
  exists s q, g = s ++ q /\ skipped s /\ advance q 0 = None.

(** The text after the last recorded operator, or the whole of a string
    without one. *)
Definition finalRegion (g : str) : Prop :=
  innerRegion g \/ exists s u, g = s ++ u /\ skipped s /\ openEnd u.





Variable compileRec : str -> bool -> rawValues -> outcome (option descriptor * rawValues).
Variable root : bool.

(** **** The loop over a region *)






End Regions.

(** *** What a run of [compile] says of its descriptor *)

Section Levels.

Context {host : Host}.

(** What is known of the descriptors nested in the arguments. *)
Variable nested : descriptor -> Prop.

(** The argument of a recorded operator: it is of the kind of the
    operator, and a string or an integer is one that the validator of the
    operator accepts. *)
Definition argOk (op : operator) (arg : argument) : Prop :=
  match op, arg with
  | (Has | If | IfNot | Not), ArgDescriptor d => nested d
  | HasText, ArgRegex _ _ => True
  | (MatchesCss | MatchesCssAfter | MatchesCssBefore), ArgDeclaration _ _ _ => True
  | MinTextLength, ArgInteger n => 0 <= n < 0x7FFFFFFF
  | Remove, ArgString s => s = []
  | Style, ArgString s => compileStyleProperties s = Some (ArgString s)
  | Upward, ArgInteger n => 1 <= n < 256
  | Upward, ArgString s => compileUpwardArgument s = Some (ArgString s)
  | WatchAttr, ArgAttrs _ => True
  | Xpath, ArgString s => compileXpathExpression s = Some (ArgString s)
  | _, _ => False
  end.

(** The text between two recorded operators, which becomes an [:spath]
    task. *)
Definition gapOk (g : str) : Prop :=
  g <> [] /\ innerRegion g /\ compileSpathExpression g = Some g.

(** The tasks that the loop records: operators, each with the [:spath]
    task of the text before it when there is some, the first one without. *)
Inductive recordedTasks : list task -> Prop :=
| recorded_first op arg : argOk op arg -> recordedTasks [(op, arg)]
| recorded_next ts op arg :
    recordedTasks ts -> argOk op arg -> recordedTasks (ts ++ [(op, arg)])
| recorded_gap ts g op arg :
    recordedTasks ts -> gapOk g -> argOk op arg ->
    recordedTasks (ts ++ [(Spath, ArgString g); (op, arg)]).

(** The [:spath] task of the text after the last operator. *)
Definition tailOk (tail : list task) : Prop :=
  tail = [] \/
  exists g, tail = [(Spath, ArgString g)] /\ g <> [] /\ finalRegion g /\
            compileSpathExpression g = Some g.

(** [p'] is [p], or [p] with [*]. *)
Definition starred (p p' : str) : Prop := p' = p \/ p' = p ++ [42].

(** The prefix that becomes the first [:spath] task of a nested
    descriptor. *)
Definition siblingOk (root : bool) (p' : str) : Prop :=
  root = false /\ p' <> [] /\ reIsDanglingSelector p' = false /\
  sheetSelectable p' = false /\ reIsSiblingSelector p' = true /\
  compileSpathExpression p' = Some p'.

(** The prefix that becomes the selector. *)
Definition selectorOk (sel : str) : Prop :=
  sel <> [] /\ reIsDanglingSelector sel = false /\ sheetSelectable sel = true.

(** The descriptor of a raw string whose text before the first recorded
    operator is [p] (the whole string when nothing is recorded). *)
Inductive level (root : bool) (p : str) : descriptor -> Prop :=
| level_plain sel :
    starred p sel -> sel <> [] -> finalRegion sel -> sheetSelectable sel = true ->
    root = true \/ reIsDanglingSelector sel = false ->
    level root p (Descriptor sel [] None)
| level_sibling p' :
    starred p p' -> finalRegion p' -> siblingOk root p' ->
    level root p (Descriptor [] [(Spath, ArgString p')] None)
| level_tasks sel ts tail act :
    (p = [] /\ sel = []) \/ (starred p sel /\ innerRegion sel /\ selectorOk sel) ->
    recordedTasks ts -> tailOk tail ->
    level root p (Descriptor sel (ts ++ tail) act)
| level_unshift p' ts tail act :
    starred p p' -> innerRegion p' -> siblingOk root p' ->
    recordedTasks ts -> tailOk tail ->
    level root p (Descriptor [] ((Spath, ArgString p') :: ts ++ tail) act).


End Levels.

Lemma argOk_mono {host : Host} (N N' : descriptor -> Prop) op arg :
  (forall d, N d -> N' d) -> argOk N op arg -> argOk N' op arg.
Proof. intros H. destruct op, arg; cbn [argOk]; auto. Qed.

Lemma recordedTasks_mono {host : Host} (N N' : descriptor -> Prop) ts :
  (forall d, N d -> N' d) -> recordedTasks N ts -> recordedTasks N' ts.
Proof.
  intros H. induction 1.
  - apply recorded_first. eapply argOk_mono; eauto.
  - apply recorded_next; [assumption | eapply argOk_mono; eauto].
  - apply recorded_gap; [assumption | assumption | eapply argOk_mono; eauto].
Qed.

Lemma level_mono {host : Host} (N N' : descriptor -> Prop) root p d :
  (forall d, N d -> N' d) -> level N root p d -> level N' root p d.
Proof.
  intros H. destruct 1.
  - apply level_plain; assumption.
  - apply level_sibling; assumption.
  - apply level_tasks; [assumption | eapply recordedTasks_mono; eauto | assumption].
  - apply level_unshift; try assumption. eapply recordedTasks_mono; eauto.
Qed.









Section Decompose.

Context {host : Host}.
Variable nested : descriptor -> Prop.
Variable compileRec : str -> bool -> rawValues -> outcome (option descriptor * rawValues).
Variable raw : str.
Variable root : bool.

Hypothesis compileRec_nested :
  forall s m d m', reNeedScope s = false ->
                   compileRec s false m = Done (Some d, m') -> nested d.















End Decompose.

(** *** The pieces of the canonical string *)

(** The name that [decompile] prints for a task. *)
Definition printedName (op : operator) (a : argument) : str :=
  match op, a with
  | (Has | If), ArgDescriptor _ => lit ":has"
  | (Not | IfNot), ArgDescriptor _ => lit ":not"
  | _, _ => operatorName op
  end.

(** The text that [decompile] prints between the parentheses. *)
Definition argText (m : rawValues) (op : operator) (a : argument) : str :=
  match op, a with
  | (Has | If | Not | IfNot), ArgDescriptor d' => decompile m d'
  | HasText, ArgRegex source flags => regexText m source flags
  | (MatchesCss | MatchesCssAfter | MatchesCssBefore), ArgDeclaration name source flags =>
      name ++ lit ": " ++ regexText m source flags
  | _, _ => argumentText a
  end.

(** The piece of a task. *)
Definition pieceText (m : rawValues) (t : task) : str :=
  match fst t with
  | Spath => argumentText (snd t)
  | op => printedName op (snd t) ++ [40] ++ argText m op (snd t) ++ [41]
  end.


Section Canonical.

Context {host : Host}.

(** In the canonical string, the scan of the argument [a] of a piece ends
    on the parenthesis that closes the piece; [rest] is what follows the
    piece. *)
Definition scansTo (a rest : str) : Prop :=
  let '(j, pcnt, c) := scanArgs (a ++ 41 :: rest) 0 1 0x3A in
  j = S (length a) /\ (pcnt = 0 \/ c = 0x29).

(** The validator of the operator reads the printed argument back. *)
Definition readsBack (m : rawValues) (op : operator) (a : argument) : Prop :=
  match op, a with
  | HasText, ArgRegex _ _ => fst (compileText (argText m op a) []) = Some a
  | (MatchesCss | MatchesCssAfter | MatchesCssBefore), ArgDeclaration _ _ _ =>
      fst (compileCSSDeclaration (argText m op a) []) = Some a
  | WatchAttr, ArgAttrs attrs => compileAttrList (argText m op a) = attrs
  | _, _ => True
  end.

(** What the round trip asks of the piece of a task, [rest] being what
    follows it: the operator is not one that [decompile] prints under
    another name, the scan of its argument ends where the piece ends, the
    style sheet of the host does not take the piece for plain CSS, the
    validator reads the argument back, and a nested descriptor is
    canonical in its turn ([:not] with an argument that is not plain
    CSS). *)
Definition canonicalTask (canonical : descriptor -> Prop) (m : rawValues)
    (t : task) (rest : str) : Prop :=
  match fst t with
  | Spath => True
  | op =>
      op <> If /\ op <> IfNot /\
      scansTo (argText m op (snd t)) rest /\
      sheetSelectable (pieceText m t) = false /\
      readsBack m op (snd t) /\
      match op, snd t with
      | Has, ArgDescriptor d' => canonical d'
      | Not, ArgDescriptor d' => sheetSelectable (decompile m d') = false /\ canonical d'
      | _, _ => True
      end
  end.

Fixpoint canonical (m : rawValues) (d : descriptor) : Prop :=
  match d with
  | Descriptor _ ts _ =>
      (fix all (ts : list task) : Prop :=
         match ts with
         | [] => True
         | t :: ts' =>
             canonicalTask (canonical m) m t (flat_map (pieceText m) ts') /\ all ts'
         end) ts
  end.




End Canonical.

(** *** The compilation of the canonical string *)





Section Replay.

Context {host : Host}.

(** The map by which [decompile] prints. *)
Variable mm : rawValues.


Variable compileRec : str -> bool -> rawValues -> outcome (option descriptor * rawValues).
Variable root : bool.

(** The canonical string under compilation. *)
Variable T : str.

(** The recursion has the fuel that the strings shorter than [T] need. *)
Hypothesis compileRec_enough :
  forall s m x, (length s < length T)%nat ->
                compile s false m = Done x -> compileRec s false m = Done x.




















(** **** The action of the descriptor *)




(** **** The end of the compilation *)







End Replay.

(** *** The round trip *)



Section Again.

Context {host : Host}.
Variable mm : rawValues.





End Again.

Section RoundTrip.

Context {host : Host}.


End RoundTrip.

Module LegacyFacts.

Import Legacy.

#[local] Existing Instance legacy.

Lemma compile_shaped_witness :
  shaped (Descriptor (lit ".ad")
            [(Has, ArgDescriptor
                     (Descriptor (lit "span")
                        [(HasText, ArgRegex (lit "Spo.s") (Some (lit "i")))] None));
             (Upward, ArgInteger 2)] None) = true.
Proof.
  apply (compile_shaped (lit ".ad:has(span:has-text(/Spo.s/i)):nth-ancestor(2)") true []
           _ []).
  vm_compute. reflexivity.
Defined.

Lemma compile_plain_selector_witness :
  [] = ([] : rawValues) /\ actionOf (Descriptor (lit "div > *") [] None) = None /\
  sheetSelectable (selectorOf (Descriptor (lit "div > *") [] None)) = true /\
  (selectorOf (Descriptor (lit "div > *") [] None) = lit "div > " \/
   (reIsDanglingSelector (lit "div > ") = true /\
    selectorOf (Descriptor (lit "div > *") [] None) = lit "div > " ++ [42])).
Proof.
  apply (compile_plain_selector (lit "div > ") [] (Descriptor (lit "div > *") [] None) []).
  - vm_compute. reflexivity.
  - reflexivity.
Defined.

Lemma entryPoint_memo_witness :
  entryPoint (lit "div:has(span)")
    {| regexToRawValue := []; lastProceduralSelector := lit "div:has(span)";
       lastProceduralSelectorCompiled :=
         Some {| desc := Descriptor (lit "div")
                           [(Has, ArgDescriptor (Descriptor (lit "span") [] None))] None;
                 raw := lit "div:has(span)" |} |}
  = Done (Some {| desc := Descriptor (lit "div")
                            [(Has, ArgDescriptor (Descriptor (lit "span") [] None))] None;
                  raw := lit "div:has(span)" |},
          {| regexToRawValue := []; lastProceduralSelector := lit "div:has(span)";
             lastProceduralSelectorCompiled :=
               Some {| desc := Descriptor (lit "div")
                                 [(Has, ArgDescriptor (Descriptor (lit "span") [] None))] None;
                       raw := lit "div:has(span)" |} |}).
Proof.
  apply (entryPoint_memo (lit "div:has(span)") reset).
  vm_compute. reflexivity.
Defined.

(** A plain selector comes back as it is; the extended syntax of
    [-abp-contains] is translated to [:has-text(...)] and compiled; the
    extended syntax of an operator without a translation is refused. *)
Example compileSelector_examples :
  compileSelector 2 (lit "div") reset = Done (Some (PlainSelector (lit "div")), reset) /\
  match compileSelector 2 (lit "div[-abp-contains='Sponsored']:upward(1)") reset with
  | Done (Some (Json c), _) =>
      desc c = Descriptor (lit "div")
                 [(HasText, ArgRegex (lit "Sponsored") None); (Upward, ArgInteger 1)] None
      /\ raw c = lit "div:has-text(Sponsored):upward(1)"
  | _ => False
  end /\
  compileSelector 2 (lit "div[-abp-properties='width: 1px']") reset = Done (None, reset) /\
  translateExtended 40 (lit "div[-ext-has='span'][-ext-contains='x']")
  = Done (Some (lit "div:has(span):has-text(x)")).
Proof. repeat split; vm_compute; reflexivity. Qed.

(** Leading zeros are read away: [:upward(007)] is [:upward(7)]; a count
    of 256 levels is out of range, and the argument is then tried as a
    selector. *)
Example compile_upward_bounds :
  descriptorOf (compile (lit "div:upward(007)") true [])
  = Some (Descriptor (lit "div") [(Upward, ArgInteger 7)] None) /\
  descriptorOf (compile (lit "div:upward(256)") true []) = None /\
  descriptorOf (compile (lit "div:upward(0)") true []) = None /\
  descriptorOf (compile (lit "div:upward(.ad)") true [])
  = Some (Descriptor (lit "div") [(Upward, ArgString (lit ".ad"))] None).
Proof. repeat split; vm_compute; reflexivity. Qed.

End LegacyFacts.

(** *** A host with [:has()]

    A style sheet that accepts [:has()] with a selector for its argument,
    as the style sheet of a browser that knows the pseudo-class. *)
Module Native.

Definition plain (s : str) : bool :=
  existsb (eqb s)
    [lit ".ad"; lit ".sponsor"; lit "span"; lit "a"; lit ":has(.sponsor)";
     lit ".ad:has(.sponsor)"; lit "span:has(a)"].


End Native.


Module RoundTripFacts.

Import Legacy.
#[local] Existing Instance legacy.


Definition sponsored : descriptor :=
  Descriptor (lit "div")
    [(Has, ArgDescriptor
             (Descriptor (lit ":scope > span") [(HasText, ArgRegex (lit "Ad") None)] None));
     (MatchesCss, ArgDeclaration (lit "color") (lit "^red$") None);
     (Upward, ArgInteger 2);
     (Spath, ArgString (lit " > span"))]
    None.

Definition sponsoredValues : rawValues := [(lit "^red$", lit "red"); (lit "Ad", lit "Ad")].

Example sponsored_canonical :
  decompile sponsoredValues sponsored
  = lit "div:has(:scope > span:has-text(Ad)):matches-css(color: red):upward(2) > span".
Proof. vm_compute. reflexivity. Qed.



End RoundTripFacts.

End Compiler.

(** ** The store of the hostname-based filters ([HostnameBasedDB]) *)

Module HostnameDB.

Import JS.

(** [s.endsWith(suffix)] *)
Definition endsWith (s suffix : str) : bool := startsWith (rev suffix) (rev s).

Section DB.

(** The entries are the objects that the specialized engines store; the
    store reads their [hostname].  An entry is not an array. *)
Variable entry : Type.
Variable hostnameOf : entry -> str.

(** A value of the map [this.db]: one entry, or the array of the entries
    that share the hash. *)
Inductive bucket :=
| One (e : entry)
| Many (l : list entry).

(** [this.db], the keys in insertion order, and [this.size]. *)
Record db := { map : list (Z * bucket); size : Z }.

Fixpoint mapGet (k : Z) (m : list (Z * bucket)) : option bucket :=
  match m with
  | [] => None
  | (k', v) :: m' => if k' =? k then Some v else mapGet k m'
  end.

(** [Map.prototype.set]: the value of a key that is there is replaced in
    its place, a new key comes last. *)
Fixpoint mapSet (k : Z) (v : bucket) (m : list (Z * bucket)) : list (Z * bucket) :=
  match m with
  | [] => [(k, v)]
  | (k', v') :: m' => if k' =? k then (k, v) :: m' else (k', v') :: mapSet k v m'
  end.

(** [new HostnameBasedDB()] *)
Definition empty : db := {| map := []; size := 0 |}.

(** [add(hash, entry)]; [bucket.push(entry)] changes the array that the
    map holds. *)
Definition add (hash : Z) (e : entry) (d : db) : db :=
  {| map := match mapGet hash (map d) with
            | None => mapSet hash (One e) (map d)
            | Some (Many l) => mapSet hash (Many (l ++ [e])) (map d)
            | Some (One b) => mapSet hash (Many [b; e]) (map d)
            end;
     size := size d + 1 |}.

Definition clear (d : db) : db := {| map := []; size := 0 |}.

(** [retrieve(hash, hostname, out)]: [out] as the call leaves it.  The
    array of a bucket is read from its last entry to its first. *)
Definition retrieve (hash : Z) (hostname : str) (out : list entry) (d : db) : list entry :=
  match mapGet hash (map d) with
  | None => out
  | Some (One b) => if endsWith hostname (hostnameOf b) then out ++ [b] else out
  | Some (Many l) =>
      out ++ filter (fun e => endsWith hostname (hostnameOf e)) (rev l)
  end.

(** [toSelfie()] and [new HostnameBasedDB(selfie)]; [new Map(pairs)] sets
    the pairs one after the other. *)
Definition toSelfie (d : db) : list (Z * bucket) * Z := (map d, size d).

Definition fromSelfie (selfie : list (Z * bucket) * Z) : db :=
  {| map := fold_left (fun m kv => mapSet (fst kv) (snd kv) m) (fst selfie) [];
     size := snd selfie |}.

(** The iterator: [arrayIter] is the rest of the array being read, when
    there is one, [mapIter] the values of the map still to come. *)
Record iter := { arrayIter : option (list entry); mapIter : list bucket }.

Definition iterator (d : db) : iter :=
  {| arrayIter := None; mapIter := List.map snd (map d) |}.

(** [Iter.prototype.next]: the value, [None] when the result is [done]. *)
Definition next (it : iter) : option entry * iter :=
  match arrayIter it with
  | Some (e :: rest) => (Some e, {| arrayIter := Some rest; mapIter := mapIter it |})
  | _ =>
      match mapIter it with
      | [] => (None, {| arrayIter := None; mapIter := [] |})
      | One e :: vs => (Some e, {| arrayIter := None; mapIter := vs |})
      | Many l :: vs =>
          match l with
          | e :: rest => (Some e, {| arrayIter := Some rest; mapIter := vs |})
          | [] => (None, {| arrayIter := Some []; mapIter := vs |})
          end
      end
  end.

(** What a [for ... of] loop over the store visits, in at most [fuel]
    calls of [next]. *)
Fixpoint visited (fuel : nat) (it : iter) : list entry :=
  match fuel with
  | O => []
  | S fuel' =>
      match next it with
      | (Some e, it') => e :: visited fuel' it'
      | (None, _) => []
      end
  end.

Definition bucketEntries (b : bucket) : list entry :=
  match b with One e => [e] | Many l => l end.

(** The entries of the store: by hash in the order in which the hashes
    came, the entries of a hash in the order in which they were added. *)
Definition entries (d : db) : list entry :=
  flat_map (fun kv => bucketEntries (snd kv)) (map d).

(** What [add] and [clear] keep of a store: a hash has one bucket, an
    array holds an entry, and [size] counts the entries. *)
Definition consistent (d : db) : Prop :=
  NoDup (List.map fst (map d)) /\
  (forall k, In (k, Many []) (map d) -> False) /\
  size d = Z.of_nat (length (entries d)).

Lemma mapGet_mapSet (k j : Z) (v : bucket) (m : list (Z * bucket)) :
  mapGet j (mapSet k v m) = if k =? j then Some v else mapGet j m.
Proof.
  induction m as [|[k' v'] m IH]; cbn [mapSet mapGet].
  - reflexivity.
  - destruct (k' =? k) eqn:E; cbn [mapGet].
    + apply Z.eqb_eq in E. subst k'. destruct (k =? j); reflexivity.
    + rewrite IH. destruct (k' =? j) eqn:E2; [|reflexivity].
      apply Z.eqb_eq in E2. subst k'. rewrite Z.eqb_sym, E. reflexivity.
Qed.

(** [retrieve] after [add]: under the hash of the added entry the entry is
    read first, before those added earlier; under another hash the store
    reads as before. *)
Theorem retrieve_add (h h' : Z) (e : entry) (hostname : str) (out : list entry) (d : db) :
  retrieve h hostname out (add h' e d) =
  if h' =? h
  then retrieve h hostname
         (if endsWith hostname (hostnameOf e) then out ++ [e] else out) d
  else retrieve h hostname out d.
Proof.
  unfold retrieve, add. cbn [map].
  destruct (h' =? h) eqn:E.
  - apply Z.eqb_eq in E. subst h'.
    destruct (mapGet h (map d)) as [[b|l]|]; rewrite mapGet_mapSet, Z.eqb_refl.
    + cbn [rev app filter].
      destruct (endsWith hostname (hostnameOf e)), (endsWith hostname (hostnameOf b));
        rewrite ?app_nil_r, <- ?app_assoc; reflexivity.
    + rewrite rev_app_distr. cbn [rev app filter].
      destruct (endsWith hostname (hostnameOf e)); rewrite <- ?app_assoc; reflexivity.
    + destruct (endsWith hostname (hostnameOf e)); reflexivity.
  - destruct (mapGet h' (map d)) as [[b|l]|]; rewrite mapGet_mapSet, E; reflexivity.
Qed.

Lemma mapSet_fresh (k : Z) (v : bucket) (m : list (Z * bucket)) :
  mapGet k m = None -> mapSet k v m = m ++ [(k, v)].
Proof.
  induction m as [|[k' v'] m IH]; cbn [mapGet mapSet app]; [reflexivity|].
  destruct (k' =? k); [discriminate|]. intros H. rewrite IH by assumption. reflexivity.
Qed.

Lemma mapGet_In (k : Z) (v : bucket) (m : list (Z * bucket)) :
  mapGet k m = Some v -> In (k, v) m.
Proof.
  induction m as [|[k' v'] m IH]; cbn [mapGet]; [discriminate|].
  destruct (k' =? k) eqn:E.
  - apply Z.eqb_eq in E. intros H; inversion H; subst. left; reflexivity.
  - intros H. right. apply IH. assumption.
Qed.

Lemma mapGet_None (k : Z) (m : list (Z * bucket)) :
  mapGet k m = None <-> ~ In k (List.map fst m).
Proof.
  induction m as [|[k' v'] m IH]; cbn [mapGet List.map fst In].
  - split; [intros _ [] | reflexivity].
  - destruct (k' =? k) eqn:E.
    + apply Z.eqb_eq in E. split; [discriminate | intros H; exfalso; apply H; auto].
    + apply Z.eqb_neq in E. rewrite IH. split; [intros H [?|?]; auto | auto].
Qed.

(** [set] on a key that is there: the keys stay, the entries of the other
    buckets stay, the bucket of the key is the new one. *)
Lemma mapSet_present (k : Z) (v0 v : bucket) (m : list (Z * bucket)) :
  mapGet k m = Some v0 ->
  List.map fst (mapSet k v m) = List.map fst m /\
  (forall j b, In (j, b) (mapSet k v m) -> b = v \/ In (j, b) m) /\
  (length (flat_map (fun kv => bucketEntries (snd kv)) (mapSet k v m))
     + length (bucketEntries v0)
   = length (flat_map (fun kv => bucketEntries (snd kv)) m)
     + length (bucketEntries v))%nat.
Proof.
  induction m as [|[k' v'] m IH]; cbn [mapGet mapSet]; [discriminate|].
  destruct (k' =? k) eqn:E.
  - apply Z.eqb_eq in E. subst k'. intros H; inversion H; subst.
    cbn [List.map fst flat_map snd]. rewrite !length_app.
    split; [reflexivity|]. split; [|lia].
    intros j b [Hjb | Hjb]; [inversion Hjb; auto | right; right; assumption].
  - intros H. destruct (IH H) as (Hk & Hin & Hlen).
    cbn [List.map fst flat_map snd]. rewrite !length_app, Hk.
    split; [reflexivity|]. split; [|lia].
    intros j b [Hjb | Hjb]; [right; left; assumption|].
    destruct (Hin j b Hjb); auto. right; right; assumption.
Qed.

Lemma empty_consistent : consistent empty.
Proof.
  unfold consistent, empty; cbn. split; [constructor|]. split; [intros k []|reflexivity].
Qed.

Lemma clear_consistent (d : db) : consistent (clear d).
Proof. apply empty_consistent. Qed.

Lemma add_consistent (hash : Z) (e : entry) (d : db) :
  consistent d -> consistent (add hash e d).
Proof.
  intros (Hk & Hne & Hs). unfold consistent, add, entries in *. cbn [map size].
  destruct (mapGet hash (map d)) as [b|] eqn:Eg.
  - assert (Hset : forall v, v <> Many [] ->
               length (bucketEntries v) = S (length (bucketEntries b)) ->
               NoDup (List.map fst (mapSet hash v (map d))) /\
               (forall k, In (k, Many []) (mapSet hash v (map d)) -> False) /\
               size d + 1
               = Z.of_nat (length (flat_map (fun kv => bucketEntries (snd kv))
                                     (mapSet hash v (map d))))).
    { intros v Hv Hl. destruct (mapSet_present hash b v (map d) Eg) as (Hk' & Hin & Hlen).
      rewrite Hk'. split; [assumption|]. split; [|lia].
      intros k Hm. destruct (Hin _ _ Hm) as [E | Hm']; [congruence | eauto]. }
    destruct b as [b|l]; apply Hset; try discriminate.
    + reflexivity.
    + destruct l; discriminate.
    + cbn [bucketEntries]. rewrite length_app. cbn. lia.
  - rewrite (mapSet_fresh _ _ _ Eg). rewrite map_app, flat_map_app, length_app.
    cbn [List.map fst flat_map snd bucketEntries app length].
    split; [|split; [|lia]].
    + apply NoDup_app_remove_r with (l' := []). rewrite app_nil_r.
      rewrite <- (rev_involutive (List.map fst (map d) ++ [hash])).
      apply NoDup_rev. rewrite rev_app_distr. cbn [rev app].
      constructor; [|apply NoDup_rev; assumption].
      rewrite <- in_rev. apply mapGet_None. assumption.
    + intros k Hm. apply in_app_or in Hm as [Hm | [Hm | []]]; [eauto | discriminate].
Qed.

Lemma visited_array (l : list entry) (vs : list bucket) (fuel : nat) :
  visited (length l + fuel) {| arrayIter := Some l; mapIter := vs |}
  = l ++ visited fuel {| arrayIter := Some []; mapIter := vs |}.
Proof.
  induction l as [|e l IH]; [reflexivity|].
  cbn [length Nat.add visited next arrayIter mapIter app]. rewrite IH. reflexivity.
Qed.

Lemma visited_done (it : iter) (fuel : nat) :
  mapIter it = [] -> (arrayIter it = None \/ arrayIter it = Some []) ->
  visited fuel it = [].
Proof.
  intros Hm Ha. destruct fuel as [|fuel]; [reflexivity|].
  cbn [visited]. unfold next. rewrite Hm. destruct Ha as [-> | ->]; reflexivity.
Qed.

Lemma visited_values (vs : list bucket) :
  (forall b, In b vs -> b <> Many []) ->
  forall (a : option (list entry)) (fuel : nat),
  a = None \/ a = Some [] ->
  (length (flat_map bucketEntries vs) < fuel)%nat ->
  visited fuel {| arrayIter := a; mapIter := vs |} = flat_map bucketEntries vs.
Proof.
  induction vs as [|b vs IH]; intros Hne a fuel Ha Hf.
  - apply visited_done; auto.
  - cbn [flat_map] in Hf |- *. rewrite length_app in Hf.
    assert (Hvs : forall b', In b' vs -> b' <> Many []) by (intros b' H; apply Hne; right; exact H).
    destruct fuel as [|fuel]; [lia|].
    assert (Hnext : next {| arrayIter := a; mapIter := b :: vs |}
                    = match b with
                      | One e => (Some e, {| arrayIter := None; mapIter := vs |})
                      | Many (e :: rest) => (Some e, {| arrayIter := Some rest; mapIter := vs |})
                      | Many [] => (None, {| arrayIter := Some []; mapIter := vs |})
                      end).
    { unfold next. cbn [arrayIter mapIter]. destruct Ha as [-> | ->]; reflexivity. }
    cbn [visited]. rewrite Hnext.
    destruct b as [e|[|e rest]].
    + cbn [bucketEntries app length] in *. f_equal. apply IH; auto. lia.
    + exfalso. apply (Hne (Many [])); [left|]; reflexivity.
    + cbn [bucketEntries app length] in *. f_equal.
      replace fuel with (length rest + (fuel - length rest))%nat by lia.
      rewrite visited_array. f_equal. apply IH; auto. lia.
Qed.

Lemma flat_map_values (m : list (Z * bucket)) :
  flat_map (fun kv => bucketEntries (snd kv)) m
  = flat_map bucketEntries (List.map snd m).
Proof. induction m as [|kv m IH]; cbn; [reflexivity | rewrite IH; reflexivity]. Qed.

(** A loop over a store that [add] and [clear] have built visits every
    entry once, in the order of [entries], and then ends; the entries are
    as many as [size] says. *)
Theorem iterator_visits_entries (d : db) (fuel : nat) :
  consistent d ->
  (Z.to_nat (size d) < fuel)%nat ->
  visited fuel (iterator d) = entries d /\ Z.of_nat (length (entries d)) = size d.
Proof.
  intros (Hk & Hne & Hs) Hf. split; [|symmetry; exact Hs].
  unfold iterator, entries in *.
  pose proof (flat_map_values (map d)) as E.
  rewrite E.
  apply visited_values; auto.
  - intros b Hb Eb. subst b. apply in_map_iff in Hb as ([k v] & Ev & Hin).
    cbn in Ev. subst v. eauto.
  - rewrite <- E. lia.
Qed.

Lemma fold_mapSet (l : list (Z * bucket)) :
  forall acc,
  NoDup (List.map fst (acc ++ l)) ->
  fold_left (fun m kv => mapSet (fst kv) (snd kv) m) l acc = acc ++ l.
Proof.
  induction l as [|[k v] l IH]; intros acc Hd; cbn [fold_left fst snd].
  - rewrite app_nil_r. reflexivity.
  - rewrite mapSet_fresh.
    + rewrite IH; rewrite <- app_assoc; [reflexivity | exact Hd].
    + apply mapGet_None. rewrite map_app in Hd. cbn [List.map fst] in Hd.
      apply NoDup_remove_2 in Hd. intros Hin. apply Hd. apply in_or_app. auto.
Qed.

(** The store that the constructor builds from the selfie of a store is
    this store: the same buckets under the same hashes, in the same order,
    and the same size. *)
Theorem fromSelfie_toSelfie (d : db) :
  consistent d -> fromSelfie (toSelfie d) = d.
Proof.
  intros (Hk & _ & _). unfold fromSelfie, toSelfie. cbn [fst snd].
  rewrite (fold_mapSet (map d) []) by exact Hk.
  destruct d; reflexivity.
Qed.

End DB.

Arguments One {entry} e.
Arguments Many {entry} l.

(** A store of three filters, two of them under the same hash. *)
Definition sample : db (str * str) :=
  add _ 7 (lit "example.com", lit ".ad")
    (add _ 3 (lit "b.org", lit ".promo")
       (add _ 7 (lit "shop.example.com", lit ".banner") (empty _))).

Lemma sample_consistent : consistent _ sample.
Proof. unfold sample. repeat apply add_consistent. apply empty_consistent. Qed.

Lemma iterator_visits_entries_witness :
  visited _ 4 (iterator _ sample) = entries _ sample /\
  Z.of_nat (length (entries _ sample)) = size _ sample.
Proof.
  apply (iterator_visits_entries _ sample 4 sample_consistent).
  vm_compute. lia.
Defined.

Lemma fromSelfie_toSelfie_witness : fromSelfie _ (toSelfie _ sample) = sample.
Proof. apply (fromSelfie_toSelfie _ sample sample_consistent). Defined.

(** The filters of [example.com] and of [shop.example.com] apply to
    [shop.example.com], the one added last first. *)
Example retrieve_sample :
  retrieve _ fst 7 (lit "shop.example.com") [] sample
  = [(lit "example.com", lit ".ad"); (lit "shop.example.com", lit ".banner")] /\
  retrieve _ fst 7 (lit "example.com") [] sample = [(lit "example.com", lit ".ad")] /\
  retrieve _ fst 5 (lit "example.com") [] sample = [].
Proof. repeat split; vm_compute; reflexivity. Qed.

End HostnameDB.

(** ** The coarse parser of the static extended filters ([api.compile]) *)

Module Engine.

Import JS.

(** [s.charCodeAt(i)]; [None] is [NaN]. *)
Definition charCodeAt (i : nat) (s : str) : option Z := nth_error s i.

(** [s.charCodeAt(i) === c] *)
Definition isCode (c : Z) (o : option Z) : bool :=
  match o with Some x => x =? c | None => false end.

(** [s.indexOf(c, from)] *)
Definition indexOfFrom (c : Z) (from : nat) (s : str) : option nat :=
  option_map (Nat.add from) (indexOf c (skipn from s)).

(** [reHasUnicode = /[^\x00-\x7F]/] *)
Definition reHasUnicode (s : str) : bool := existsb (fun c => 127 <? c) s.

(** *** [translateAdguardCSSInjectionFilter] *)

(** [/^([^{]+)\{([^}]+)\}$/]: the two groups.  The first group ends at the
    first opening brace, the second one is what lies between this brace
    and the closing brace that ends the string. *)
Definition reInjection (s : str) : option (str * str) :=
  match indexOf 123 s with
  | None => None
  | Some k =>
      match rev (skipn (S k) s) with
      | c :: body =>
          if (c =? 125) && negb (Nat.eqb k 0) && negb (Nat.eqb (length body) 0)
             && negb (existsb (Z.eqb 125) body)
          then Some (firstn k s, rev body)
          else None
      | [] => None
      end
  end.

(** [/^\s*remove:\s*true[; ]*$/] *)
Definition reRemoveTrue (s : str) : bool :=
  let s1 := trimStart s in
  startsWith (lit "remove:") s1 &&
  let s2 := trimStart (skipn 7 s1) in
  startsWith (lit "true") s2 &&
  forallb (fun c => (c =? 59) || (c =? 32)) (skipn 4 s2).

(** [/display\s*:\s*none\s*!important;?$/], from the start of [s] and from
    anywhere in [s]. *)
Definition displayNoneAt (s : str) : bool :=
  startsWith (lit "display") s &&
  match trimStart (skipn 7 s) with
  | c :: s1 =>
      (c =? 58) &&
      let s2 := trimStart s1 in
      startsWith (lit "none") s2 &&
      let s3 := trimStart (skipn 4 s2) in
      startsWith (lit "!important") s3 &&
      let s4 := skipn 10 s3 in
      (eqb s4 [] || eqb s4 [59])
  | [] => false
  end.

Fixpoint reDisplayNone (s : str) : bool :=
  displayNoneAt s ||
  match s with
  | [] => false
  | _ :: s' => reDisplayNone s'
  end.

Definition translateAdguardCSSInjectionFilter (suffix : str) : str :=
  match reInjection suffix with
  | None => []
  | Some (g1, g2) =>
      let selector := trim g1 in
      let style := trim g2 in
      if reRemoveTrue style then selector ++ lit ":remove()"
      else if reDisplayNone style then selector
      else selector ++ lit ":style(" ++ style ++ lit ")"
  end.

(** *** [hostnamesFromPrefix] *)

Section Hostnames.

(** [punycode.toASCII] *)
Variable toASCII : str -> str.

(** The hostname that is pushed. *)
Definition encoded (hasUnicode : bool) (hostname : str) : str :=
  if hasUnicode then
    if isCode 0x7E (charCodeAt 0 hostname)
    then lit "~" ++ toASCII (sliceFrom 1 hostname)
    else toASCII hostname
  else hostname.

(** The loop [while ( beg < s.length )], for at most [fuel] turns; every
    turn moves [beg] forward. *)
Fixpoint hostnamesLoop (fuel : nat) (s : str) (hasUnicode : bool) (beg : nat)
    (hostnames : list str) : list str :=
  match fuel with
  | O => hostnames
  | S fuel' =>
      if Nat.ltb beg (length s) then
        let end_ := match indexOfFrom 44 beg s with
                    | Some e => e
                    | None => length s
                    end in
        let hostname := trim (slice beg end_ s) in
        let hostnames' :=
          if negb (Nat.eqb (length hostname) 0)
          then hostnames ++ [encoded hasUnicode hostname]
          else hostnames in
        hostnamesLoop fuel' s hasUnicode (S end_) hostnames'
      else hostnames
  end.

Definition hostnamesFromPrefix (s : str) : list str :=
  hostnamesLoop (S (length s)) s (reHasUnicode s) 0 [].

(** The same list, said with [split]: the pieces between the commas,
    trimmed, without the empty ones, each one encoded. *)
Definition hostnamesOf (hasUnicode : bool) (s : str) : list str :=
  map (encoded hasUnicode)
    (filter (fun h => negb (Nat.eqb (length h) 0)) (map trim (split [44] s))).

Lemma split_comma (s : str) :
  forall cur,
  split_go [44] s O cur =
  match indexOf 44 s with
  | None => [rev cur ++ s]
  | Some k => (rev cur ++ firstn k s) :: split_go [44] (skipn (S k) s) O []
  end.
Proof.
  induction s as [|c s IH]; intros cur.
  - cbn. rewrite app_nil_r. reflexivity.
  - cbn [split_go startsWith indexOf length Nat.sub]. rewrite andb_true_r.
    rewrite (Z.eqb_sym 44 c).
    destruct (c =? 44) eqn:E.
    + cbn [firstn skipn]. rewrite app_nil_r. reflexivity.
    + rewrite IH. destruct (indexOf 44 s) as [k|]; cbn [rev firstn skipn];
        rewrite <- app_assoc; reflexivity.
Qed.

Lemma indexOf_bound (c : Z) (s : str) (k : nat) :
  indexOf c s = Some k -> (k < length s)%nat.
Proof.
  revert k; induction s as [|x s IH]; intros k; cbn [indexOf length]; [discriminate|].
  destruct (x =? c); [intros H; inversion H; lia|].
  destruct (indexOf c s) as [j|]; [|discriminate].
  intros H; inversion H; subst. specialize (IH j eq_refl). lia.
Qed.

Lemma hostnamesLoop_split (fuel : nat) (s : str) (u : bool) :
  forall beg acc,
  (length s - beg < fuel)%nat ->
  hostnamesLoop fuel s u beg acc = acc ++ hostnamesOf u (skipn beg s).
Proof.
  induction fuel as [|fuel IH]; intros beg acc Hf; [lia|].
  cbn [hostnamesLoop]. destruct (Nat.ltb beg (length s)) eqn:Eb.
  - apply Nat.ltb_lt in Eb. unfold indexOfFrom, hostnamesOf, split, slice.
    rewrite (split_comma (skipn beg s) []). cbn [rev app].
    destruct (indexOf 44 (skipn beg s)) as [k|] eqn:Ek; cbn [option_map].
    + pose proof (indexOf_bound _ _ _ Ek) as Hk. rewrite length_skipn in Hk.
      rewrite IH by lia.
      replace (beg + k - beg)%nat with k by lia.
      replace (S (beg + k)) with (S k + beg)%nat by lia.
      rewrite <- skipn_skipn. unfold hostnamesOf, split.
      cbn [map filter].
      destruct (negb (Nat.eqb (length (trim (firstn k (skipn beg s)))) 0));
      cbn [map]; rewrite <- ?app_assoc; reflexivity.
    + rewrite IH by lia.
      replace (skipn (S (length s)) s) with (@nil Z)
        by (symmetry; apply skipn_all2; lia).
      rewrite firstn_all2 by (rewrite length_skipn; lia).
      unfold hostnamesOf, split. cbn [split_go rev map filter length Nat.eqb negb].
      change (trim []) with (@nil Z). cbn [length Nat.eqb negb map filter].
      destruct (negb (Nat.eqb (length (trim (skipn beg s))) 0));
        cbn [map]; rewrite ?app_nil_r; reflexivity.
  - apply Nat.ltb_ge in Eb. rewrite skipn_all2 by lia.
    unfold hostnamesOf, split. cbn. rewrite app_nil_r. reflexivity.
Qed.

(** [hostnamesFromPrefix(s)] is the list of the pieces of [s] between its
    commas, each one trimmed, the empty ones left out, in their order; when
    [s] holds a code unit above [0x7F] each hostname goes through
    [punycode.toASCII], a leading [~] kept aside. *)
Theorem hostnamesFromPrefix_split (s : str) :
  hostnamesFromPrefix s = hostnamesOf (reHasUnicode s) s.
Proof.
  unfold hostnamesFromPrefix. rewrite hostnamesLoop_split by lia. reflexivity.
Qed.

End Hostnames.

(** *** [api.compile] *)

(** The specialized engine that receives the parsed filter. *)
Inductive engine :=
| ScriptletFilteringEngine
| HtmlFilteringEngine
| CosmeticFilteringEngine.

(** The object [parsed] of the module. *)
Record parsed := { hostnames : list str; exception : bool; suffix : str }.

Definition withSuffix (x : str) (p : parsed) : parsed :=
  {| hostnames := hostnames p; exception := exception p; suffix := x |}.

(** [/^@?(?:\$\??|%|\?)?$/] *)
Definition reAnchor (s : str) : bool :=
  let s1 := match s with
            | c :: r => if c =? 64 then r else s
            | [] => s
            end in
  existsb (eqb s1) [ []; lit "$"; lit "$?"; lit "%"; lit "?" ].

Section Compile.

Variable toASCII : str -> str.

(** The suffix after the translation of an Adguard filter; [None] where
    the source returns [true] at once, for a scriptlet of Adguard and for
    a style injection that is not translated. *)
Definition adguardSuffix (raw : str) (rpos anchorLen : nat) (suffix0 : str) : option str :=
  let cCode := charCodeAt (rpos - 1) raw in
  if negb (isCode 0x23 cCode) && negb (isCode 0x40 cCode) then
    if isCode 0x25 cCode then None
    else
      let cCode' := if isCode 0x3F cCode && Nat.ltb 2 anchorLen
                    then charCodeAt (rpos - 2) raw
                    else cCode in
      if isCode 0x24 cCode' then
        let translated := translateAdguardCSSInjectionFilter suffix0 in
        if eqb translated [] then None else Some translated
      else Some suffix0
  else Some suffix0.

(** The deprecated [script:] syntax. *)
Definition modernized (suffix0 : str) : str :=
  if startsWith (lit "script:") suffix0 then
    if startsWith (lit "script:inject") suffix0 then lit "+js" ++ sliceFrom 13 suffix0
    else if startsWith (lit "script:contains") suffix0
         then lit "^script:has-text" ++ sliceFrom 15 suffix0
         else suffix0
  else suffix0.

(** [api.compile] from the point where the suffix is known not to be
    empty. *)
Definition afterAnchor (raw : str) (lpos rpos : nat) (suffix0 : str) (p : parsed)
  : bool * parsed * option engine :=
  let p1 := withSuffix suffix0 p in
  match adguardSuffix raw rpos (rpos - lpos) suffix0 with
  | None => (true, p1, None)
  | Some suffix1 =>
      let suffix2 := modernized suffix1 in
      let p2 := {| hostnames := if Nat.eqb lpos 0 then []
                                else hostnamesFromPrefix toASCII (slice 0 lpos raw);
                   exception := isCode 0x40 (charCodeAt (S lpos) raw);
                   suffix := suffix2 |} in
      let c0 := charCodeAt 0 suffix2 in
      if isCode 0x2B c0 && startsWith (lit "+js") suffix2
      then (true, p2, Some ScriptletFilteringEngine)
      else if isCode 0x5E c0 then (true, p2, Some HtmlFilteringEngine)
      else (true, p2, Some CosmeticFilteringEngine)
  end.

(** [api.compile(raw, writer)]: what it returns, [parsed] as it leaves it,
    and the engine whose [compile] it calls. *)
Definition compile (raw : str) (p : parsed) : bool * parsed * option engine :=
  match indexOf 0x23 raw with
  | None => (false, p, None)
  | Some lpos =>
      match (if isCode 0x23 (charCodeAt (S lpos) raw) then Some (S lpos)
             else indexOfFrom 0x23 (S (S lpos)) raw) with
      | None => (false, p, None)
      | Some rpos =>
          let anchorLen := (rpos - lpos)%nat in
          if Nat.ltb 4 anchorLen then (false, p, None)
          else if Nat.ltb 1 anchorLen && negb (reAnchor (slice (S lpos) rpos raw))
          then (false, p, None)
          else
            let suffix0 := trim (sliceFrom (S rpos) raw) in
            if Nat.eqb (length suffix0) 0 then (false, p, None)
            else afterAnchor raw lpos rpos suffix0 p
      end
  end.

(** The texts between the two [#] of an anchor. *)
Definition anchors : list str :=
  [ []; lit "@"; lit "$"; lit "$?"; lit "%"; lit "?";
    lit "@$"; lit "@$?"; lit "@%"; lit "@?" ].

Lemma existsb_eqb_In (x : str) (l : list str) : existsb (eqb x) l = true <-> In x l.
Proof.
  rewrite existsb_exists. split.
  - intros (y & Hy & E). apply eqb_eq in E. subst. exact Hy.
  - intros H. exists x. split; [exact H | apply eqb_refl].
Qed.

Lemma reAnchor_anchors (s : str) : reAnchor s = true <-> In s anchors.
Proof.
  split.
  - unfold reAnchor. intros H.
    assert (Hplain : forall t, In t [ []; lit "$"; lit "$?"; lit "%"; lit "?" ] ->
                               In t anchors /\ In (64 :: t) anchors).
    { intros t Ht. repeat (destruct Ht as [<- | Ht]; [split; apply existsb_eqb_In;
        vm_compute; reflexivity|]). destruct Ht. }
    destruct s as [|c r].
    + left. reflexivity.
    + destruct (c =? 64) eqn:E.
      * apply Z.eqb_eq in E. subst c. apply existsb_eqb_In in H. apply (Hplain r H).
      * apply existsb_eqb_In in H. apply (Hplain (c :: r) H).
  - intros H. unfold anchors in H.
    repeat (destruct H as [<- | H]; [vm_compute; reflexivity|]). destruct H.
Qed.

Lemma anchors_short (s : str) : In s anchors -> (length s <= 3)%nat /\ ~ In 35 s.
Proof.
  intros H. unfold anchors in H.
  repeat (destruct H as [<- | H];
          [split; [vm_compute; lia | vm_compute; intuition discriminate]|]).
  destruct H.
Qed.

Lemma indexOf_app (c : Z) (a t : str) :
  ~ In c a -> indexOf c (a ++ c :: t) = Some (length a).
Proof.
  induction a as [|x a IH]; intros H; cbn [app indexOf length].
  - rewrite Z.eqb_refl. reflexivity.
  - destruct (x =? c) eqn:E.
    + apply Z.eqb_eq in E. exfalso. apply H. left. exact E.
    + rewrite IH; [reflexivity|]. intros Hin. apply H. right. exact Hin.
Qed.

Lemma indexOf_split (c : Z) (s : str) (k : nat) :
  indexOf c s = Some k ->
  s = firstn k s ++ c :: skipn (S k) s /\ ~ In c (firstn k s).
Proof.
  revert k; induction s as [|x s IH]; intros k; cbn [indexOf]; [discriminate|].
  destruct (x =? c) eqn:E.
  - apply Z.eqb_eq in E. subst x. intros H; inversion H; subst. cbn. auto.
  - destruct (indexOf c s) as [j|]; [|discriminate].
    intros H; inversion H; subst. destruct (IH j eq_refl) as [Hs Hn].
    cbn [firstn skipn app]. split; [f_equal; exact Hs|].
    apply Z.eqb_neq in E. intros [H1 | H1]; [congruence | exact (Hn H1)].
Qed.

Lemma nth_error_skipn (x : Z) (s : str) (i : nat) :
  nth_error s i = Some x -> skipn i s = x :: skipn (S i) s.
Proof.
  revert i; induction s as [|y s IH]; intros [|i]; cbn [nth_error]; try discriminate.
  - intros H; inversion H; reflexivity.
  - intros H. cbn [skipn]. apply IH. exact H.
Qed.

Lemma isCode_true (c : Z) (o : option Z) : isCode c o = true <-> o = Some c.
Proof.
  destruct o as [x|]; cbn [isCode]; [rewrite Z.eqb_eq|]; split; congruence.
Qed.

(** The places of the two [#] in a string that holds an anchor. *)
Lemma compile_anchor (prefix mid rest : str) (p : parsed) :
  ~ In 35 prefix ->
  In mid anchors ->
  compile (prefix ++ [35] ++ mid ++ [35] ++ rest) p =
  if Nat.eqb (length (trim rest)) 0 then (false, p, None)
  else afterAnchor (prefix ++ [35] ++ mid ++ [35] ++ rest)
         (length prefix) (S (length prefix + length mid)) (trim rest) p.
Proof.
  intros Hp Hm. destruct (anchors_short mid Hm) as [Hlen Hno].
  pose proof (proj2 (reAnchor_anchors mid) Hm) as Hre.
  set (raw := prefix ++ [35] ++ mid ++ [35] ++ rest).
  assert (Hskip : skipn (S (length prefix)) raw = mid ++ [35] ++ rest).
  { unfold raw. replace (S (length prefix)) with (length (prefix ++ [35%Z]))
      by (rewrite length_app; cbn; lia).
    rewrite (app_assoc prefix [35]). apply Compiler.skipn_length_app. }
  assert (Hrest : skipn (S (S (length prefix + length mid))) raw = rest).
  { replace (S (S (length prefix + length mid)))
      with (S (length mid) + S (length prefix))%nat by lia.
    rewrite <- skipn_skipn, Hskip.
    replace (S (length mid)) with (length (mid ++ [35%Z]))
      by (rewrite length_app; cbn; lia).
    rewrite (app_assoc mid [35]). apply Compiler.skipn_length_app. }
  assert (Hmid : slice (S (length prefix)) (S (length prefix + length mid)) raw = mid).
  { unfold slice. rewrite Hskip.
    replace (S (length prefix + length mid) - S (length prefix))%nat
      with (length mid + 0)%nat by lia.
    rewrite firstn_app_2. cbn. apply app_nil_r. }
  unfold compile. fold raw.
  replace (indexOf 35 raw) with (Some (length prefix))
    by (symmetry; apply indexOf_app; exact Hp).
  assert (Hr : (if isCode 35 (charCodeAt (S (length prefix)) raw)
                then Some (S (length prefix))
                else indexOfFrom 35 (S (S (length prefix))) raw)
               = Some (S (length prefix + length mid))).
  { unfold charCodeAt, indexOfFrom.
    destruct mid as [|c mid'].
    - cbn [app] in Hskip.
      assert (E : nth_error raw (S (length prefix)) = Some 35).
      { rewrite <- (firstn_skipn (S (length prefix)) raw), Hskip.
        rewrite nth_error_app2 by (rewrite length_firstn; lia).
        rewrite length_firstn.
        assert (S (length prefix) <= length raw)%nat
          by (unfold raw; rewrite !length_app; cbn; lia).
        replace (S (length prefix) - Nat.min (S (length prefix)) (length raw))%nat
          with 0%nat by lia.
        reflexivity. }
      rewrite E. cbn [isCode]. rewrite Z.eqb_refl. cbn [length]. f_equal. lia.
    - cbn [app] in Hskip.
      assert (E : nth_error raw (S (length prefix)) = Some c).
      { rewrite <- (firstn_skipn (S (length prefix)) raw), Hskip.
        rewrite nth_error_app2 by (rewrite length_firstn; lia).
        rewrite length_firstn.
        assert (S (length prefix) <= length raw)%nat
          by (unfold raw; rewrite !length_app; cbn; lia).
        replace (S (length prefix) - Nat.min (S (length prefix)) (length raw))%nat
          with 0%nat by lia.
        reflexivity. }
      rewrite E. cbn [isCode].
      replace (c =? 35) with false
        by (symmetry; apply Z.eqb_neq; intros ->; apply Hno; left; reflexivity).
      replace (S (S (length prefix))) with (1 + S (length prefix))%nat by lia.
      rewrite <- skipn_skipn, Hskip. cbn [skipn].
      rewrite indexOf_app by (intros Hin; apply Hno; right; exact Hin).
      cbn [option_map length]. f_equal. lia. }
  rewrite Hr.
  replace (Nat.ltb 4 (S (length prefix + length mid) - length prefix)) with false
    by (symmetry; apply Nat.ltb_ge; lia).
  rewrite Hmid, Hre. cbn [negb]. rewrite andb_false_r.
  unfold sliceFrom. rewrite Hrest. reflexivity.
Qed.

Lemma afterAnchor_true (raw : str) (lpos rpos : nat) (suffix0 : str) (p : parsed) :
  fst (fst (afterAnchor raw lpos rpos suffix0 p)) = true.
Proof.
  unfold afterAnchor. destruct (adguardSuffix _ _ _ _); [|reflexivity].
  destruct (isCode 43 _ && _); [reflexivity|].
  destruct (isCode 94 _); reflexivity.
Qed.

(** [api.compile] takes a line for a static extended filter, and returns
    [true], exactly when the line holds an anchor, that is a first [#]
    followed by one of the ten texts of [anchors] and a second [#], and
    text that is not blank after the anchor. *)
Theorem compile_accepts_anchors (raw : str) (p : parsed) :
  fst (fst (compile raw p)) = true <->
  exists prefix mid rest,
    raw = prefix ++ [35] ++ mid ++ [35] ++ rest /\
    ~ In 35 prefix /\ In mid anchors /\ trim rest <> [].
Proof.
  split.
  - unfold compile.
    destruct (indexOf 35 raw) as [lpos|] eqn:El; [|discriminate].
    destruct (indexOf_split _ _ _ El) as [Hraw Hpre].
    destruct (if isCode 35 (charCodeAt (S lpos) raw) then Some (S lpos)
              else indexOfFrom 35 (S (S lpos)) raw) as [rpos|] eqn:Er; [|discriminate].
    cbv zeta.
    destruct (Nat.ltb 4 (rpos - lpos)) eqn:E4; [discriminate|].
    destruct (Nat.ltb 1 (rpos - lpos) && negb (reAnchor (slice (S lpos) rpos raw))) eqn:E1;
      [discriminate|].
    destruct (Nat.eqb (length (trim (sliceFrom (S rpos) raw))) 0) eqn:E0; [discriminate|].
    intros _. apply Nat.eqb_neq in E0.
    assert (Hne : trim (sliceFrom (S rpos) raw) <> []) by (intros E; rewrite E in E0; auto).
    destruct (isCode 35 (charCodeAt (S lpos) raw)) eqn:Ec.
    + inversion Er; subst rpos. apply isCode_true in Ec.
      exists (firstn lpos raw), [], (skipn (S (S lpos)) raw).
      split; [|split; [exact Hpre | split; [left; reflexivity | exact Hne]]].
      cbn [app]. rewrite <- (nth_error_skipn _ _ _ Ec). exact Hraw.
    + unfold indexOfFrom in Er.
      destruct (indexOf 35 (skipn (S (S lpos)) raw)) as [j|] eqn:Ej; [|discriminate].
      cbn [option_map] in Er.
      assert (Hrpos : rpos = (j + S (S lpos))%nat) by (inversion Er; lia).
      clear Er.
      destruct (indexOf_split _ _ _ Ej) as [Hj _].
      pose proof (indexOf_bound _ _ _ Ej) as Hjb.
      replace (Nat.ltb 1 (rpos - lpos)) with true in E1
        by (symmetry; apply Nat.ltb_lt; lia).
      cbn [andb] in E1. apply negb_false_iff in E1. apply reAnchor_anchors in E1.
      exists (firstn lpos raw), (slice (S lpos) rpos raw), (skipn (S rpos) raw).
      split; [|split; [exact Hpre | split; [exact E1 | exact Hne]]].
      assert (Hat : skipn rpos raw = 35 :: skipn (S rpos) raw).
      { rewrite Hrpos. rewrite <- skipn_skipn. rewrite Hj at 1.
        replace j with (length (firstn j (skipn (S (S lpos)) raw))) at 1
          by (apply firstn_length_le; lia).
        rewrite Compiler.skipn_length_app.
        replace (S (j + S (S lpos))) with (S j + S (S lpos))%nat by lia.
        rewrite <- skipn_skipn. reflexivity. }
      cbn [app]. rewrite <- Hat. unfold slice.
      replace (skipn rpos raw) with (skipn (rpos - S lpos) (skipn (S lpos) raw))
        by (rewrite skipn_skipn; f_equal; lia).
      rewrite firstn_skipn. exact Hraw.
  - intros (prefix & mid & rest & -> & Hp & Hm & Hr).
    rewrite compile_anchor by assumption.
    destruct (Nat.eqb (length (trim rest)) 0) eqn:E0.
    + apply Nat.eqb_eq, length_zero_iff_nil in E0. contradiction.
    + apply afterAnchor_true.
Qed.

(** A scriptlet of Adguard, with the anchor [#%#] or [#@%#], is taken for
    a filter and given to no engine: [api.compile] returns [true] and the
    line is dropped. *)
Theorem compile_drops_adguard_scriptlets (prefix mid rest : str) (p : parsed) :
  ~ In 35 prefix ->
  mid = lit "%" \/ mid = lit "@%" ->
  trim rest <> [] ->
  compile (prefix ++ [35] ++ mid ++ [35] ++ rest) p
  = (true, withSuffix (trim rest) p, None).
Proof.
  intros Hp Hm Hr.
  assert (Hin : In mid anchors).
  { destruct Hm as [-> | ->]; apply existsb_eqb_In; vm_compute; reflexivity. }
  rewrite compile_anchor by assumption.
  destruct (Nat.eqb (length (trim rest)) 0) eqn:E0.
  { apply Nat.eqb_eq, length_zero_iff_nil in E0. contradiction. }
  unfold afterAnchor, adguardSuffix, charCodeAt.
  assert (E : nth_error (prefix ++ [35] ++ mid ++ [35] ++ rest)
                (S (length prefix + length mid) - 1) = Some 37).
  { rewrite nth_error_app2 by lia.
    destruct Hm as [-> | ->].
    - replace (S (length prefix + length (lit "%")) - 1 - length prefix)%nat with 1%nat
        by (change (length (lit "%")) with 1%nat; lia).
      reflexivity.
    - replace (S (length prefix + length (lit "@%")) - 1 - length prefix)%nat with 2%nat
        by (change (length (lit "@%")) with 2%nat; lia).
      reflexivity. }
  rewrite E. reflexivity.
Qed.

End Compile.

Lemma compile_drops_adguard_scriptlets_witness :
  compile (fun h => h) (lit "example.com#%#window.foo = 1;")
    {| hostnames := []; exception := false; suffix := [] |}
  = (true, {| hostnames := []; exception := false; suffix := lit "window.foo = 1;" |}, None).
Proof.
  apply (compile_drops_adguard_scriptlets (fun h => h) (lit "example.com") (lit "%")
           (lit "window.foo = 1;") {| hostnames := []; exception := false; suffix := [] |}).
  - vm_compute. intuition discriminate.
  - left. reflexivity.
  - vm_compute. discriminate.
Defined.

(** The engines that three lines go to, with their parsed suffix, and a
    style injection of Adguard translated on its way. *)
Example compile_dispatches :
  compile (fun h => h) (lit "a.com, b.org ##.ad")
    {| hostnames := []; exception := false; suffix := [] |}
  = (true, {| hostnames := [lit "a.com"; lit "b.org"]; exception := false;
              suffix := lit ".ad" |}, Some CosmeticFilteringEngine) /\
  compile (fun h => h) (lit "a.com#@#script:inject(x.js)")
    {| hostnames := []; exception := false; suffix := [] |}
  = (true, {| hostnames := [lit "a.com"]; exception := true;
              suffix := lit "+js(x.js)" |}, Some ScriptletFilteringEngine) /\
  compile (fun h => h) (lit "a.com#$#.ad { remove: true; }")
    {| hostnames := []; exception := false; suffix := [] |}
  = (true, {| hostnames := [lit "a.com"]; exception := false;
              suffix := lit ".ad:remove()" |}, Some CosmeticFilteringEngine) /\
  compile (fun h => h) (lit "a.com#$#.ad { display: none!important; }")
    {| hostnames := []; exception := false; suffix := [] |}
  = (true, {| hostnames := [lit "a.com"]; exception := false;
              suffix := lit ".ad" |}, Some CosmeticFilteringEngine) /\
  compile (fun h => h) (lit "a.com#$?#.ad { color: red }")
    {| hostnames := []; exception := false; suffix := [] |}
  = (true, {| hostnames := [lit "a.com"]; exception := false;
              suffix := lit ".ad:style(color: red)" |}, Some CosmeticFilteringEngine) /\
  compile (fun h => h) (lit "a.com##^script:has-text(x)")
    {| hostnames := []; exception := false; suffix := [] |}
  = (true, {| hostnames := [lit "a.com"]; exception := false;
              suffix := lit "^script:has-text(x)" |}, Some HtmlFilteringEngine) /\
  fst (fst (compile (fun h => h) (lit "a.com#####.ad")
              {| hostnames := []; exception := false; suffix := [] |})) = true /\
  fst (fst (compile (fun h => h) (lit "a.com#@@#.ad")
              {| hostnames := []; exception := false; suffix := [] |})) = false.
Proof. repeat split; vm_compute; reflexivity. Qed.

End Engine.

(** ** The timer of the content script ([vAPI.SafeAnimationFrame]) *)

Module Timer.

(** The object: the handle of the animation frame and the handle of the
    timeout that it holds, [None] for [null]. *)
Record frame := { fid : option nat; tid : option nat }.

(** The scheduler of the host: the handles that it has given and not yet
    fired or cancelled.  A timeout goes with its callback: [true] for
    [boundMacroToMicro], [false] for the callback of the object. *)
Record scheduler := {
  fresh : nat;
  frames : list nat;
  timeouts : list (nat * bool)
}.

Definition requestAnimationFrame (h : scheduler) : nat * scheduler :=
  (fresh h, {| fresh := S (fresh h); frames := frames h ++ [fresh h];
               timeouts := timeouts h |}).

Definition setTimeout (macro : bool) (h : scheduler) : nat * scheduler :=
  (fresh h, {| fresh := S (fresh h); frames := frames h;
               timeouts := timeouts h ++ [(fresh h, macro)] |}).

Definition cancelAnimationFrame (id : nat) (h : scheduler) : scheduler :=
  {| fresh := fresh h; frames := filter (fun x => negb (Nat.eqb x id)) (frames h);
     timeouts := timeouts h |}.

Definition clearTimeout (id : nat) (h : scheduler) : scheduler :=
  {| fresh := fresh h; frames := frames h;
     timeouts := filter (fun x => negb (Nat.eqb (fst x) id)) (timeouts h) |}.

(** [new vAPI.SafeAnimationFrame(callback)] *)
Definition created : frame := {| fid := None; tid := None |}.

(** [start(delay)]; [None] is the call without a delay. *)
Definition start (delay : option Z) (t : frame) (h : scheduler) : frame * scheduler :=
  match delay with
  | None =>
      let '(t1, h1) :=
        match fid t with
        | None => let '(id, h') := requestAnimationFrame h in
                  ({| fid := Some id; tid := tid t |}, h')
        | Some _ => (t, h)
        end in
      match tid t1 with
      | None => let '(id, h') := setTimeout false h1 in
                ({| fid := fid t1; tid := Some id |}, h')
      | Some _ => (t1, h1)
      end
  | Some _ =>
      match fid t, tid t with
      | None, None => let '(id, h') := setTimeout true h in
                      ({| fid := fid t; tid := Some id |}, h')
      | _, _ => (t, h)
      end
  end.

Definition clear (t : frame) (h : scheduler) : frame * scheduler :=
  let h1 := match fid t with Some id => cancelAnimationFrame id h | None => h end in
  let h2 := match tid t with Some id => clearTimeout id h1 | None => h1 end in
  ({| fid := None; tid := None |}, h2).

Definition macroToMicro (t : frame) (h : scheduler) : frame * scheduler :=
  start None {| fid := fid t; tid := None |} h.

(** What happens to a timer: its methods are called, or the host fires a
    handle.  A handle that fires leaves the scheduler; the callback of the
    object starts by calling [clear], as [safeObserverHandler] and
    [surveyPhase1] do. *)
Inductive op :=
| Start (delay : option Z)
| Clear
| FrameFires
| TimeoutFires.

Definition step (o : op) (t : frame) (h : scheduler) : frame * scheduler :=
  match o with
  | Start delay => start delay t h
  | Clear => clear t h
  | FrameFires =>
      match frames h with
      | [] => (t, h)
      | id :: rest =>
          clear t {| fresh := fresh h; frames := rest; timeouts := timeouts h |}
      end
  | TimeoutFires =>
      match timeouts h with
      | [] => (t, h)
      | (id, macro) :: rest =>
          let h1 := {| fresh := fresh h; frames := frames h; timeouts := rest |} in
          if macro then macroToMicro t h1 else clear t h1
      end
  end.

Fixpoint run (ops : list op) (t : frame) (h : scheduler) : frame * scheduler :=
  match ops with
  | [] => (t, h)
  | o :: ops' => let '(t1, h1) := step o t h in run ops' t1 h1
  end.

Definition held (o : option nat) : list nat :=
  match o with Some id => [id] | None => [] end.

(** The handles that the host has pending are the ones that the object
    holds. *)
Definition inStep (t : frame) (h : scheduler) : Prop :=
  frames h = held (fid t) /\ map fst (timeouts h) = held (tid t).

Lemma start_inStep delay t h :
  inStep t h -> inStep (fst (start delay t h)) (snd (start delay t h)).
Proof.
  intros [Hf Ht]. unfold inStep, start.
  destruct delay as [d|].
  - destruct (fid t) as [f|] eqn:Ef, (tid t) as [k|] eqn:Ek; cbn [fst snd fid tid];
      rewrite ?Ef, ?Ek; auto.
    cbn [setTimeout fst snd frames timeouts fid tid held].
    rewrite Hf, map_app, Ht. auto.
  - destruct (fid t) as [f|] eqn:Ef, (tid t) as [k|] eqn:Ek;
      cbn [requestAnimationFrame setTimeout fst snd frames timeouts fid tid held];
      rewrite ?Ef, ?Ek, ?Hf, ?map_app, ?Ht; auto.
Qed.

Lemma filter_held (id : nat) :
  filter (fun x => negb (Nat.eqb x id)) [id] = [].
Proof. cbn. rewrite Nat.eqb_refl. reflexivity. Qed.

Lemma filter_fst (id : nat) (l : list (nat * bool)) :
  map fst l = [id] -> filter (fun x => negb (Nat.eqb (fst x) id)) l = [].
Proof.
  destruct l as [|[a b] [|c l]]; cbn; try discriminate.
  intros H; inversion H; subst. rewrite Nat.eqb_refl. reflexivity.
Qed.

(** After [clear] the object holds no handle and the host has none
    pending, when the handles pending before are among those held. *)
Lemma clear_inStep t h :
  (frames h = held (fid t) \/ frames h = []) ->
  (map fst (timeouts h) = held (tid t) \/ timeouts h = []) ->
  fst (clear t h) = created /\
  frames (snd (clear t h)) = [] /\ timeouts (snd (clear t h)) = [].
Proof.
  intros Hf Ht. unfold clear. cbn [fst snd]. split; [reflexivity|].
  destruct (fid t) as [f|], (tid t) as [k|];
    cbn [cancelAnimationFrame clearTimeout frames timeouts held] in *.
  - split.
    + destruct Hf as [-> | ->]; [apply filter_held | reflexivity].
    + destruct Ht as [Ht | ->]; [apply filter_fst; exact Ht | reflexivity].
  - split.
    + destruct Hf as [-> | ->]; [apply filter_held | reflexivity].
    + destruct Ht as [Ht | ->]; [|reflexivity].
      destruct (timeouts h); [reflexivity | discriminate].
  - split.
    + destruct Hf as [-> | ->]; reflexivity.
    + destruct Ht as [Ht | ->]; [apply filter_fst; exact Ht | reflexivity].
  - split.
    + destruct Hf as [-> | ->]; reflexivity.
    + destruct Ht as [Ht | ->]; [|reflexivity].
      destruct (timeouts h); [reflexivity | discriminate].
Qed.

Lemma step_inStep o t h :
  inStep t h -> inStep (fst (step o t h)) (snd (step o t h)).
Proof.
  intros [Hf Ht]. destruct o; cbn [step].
  - apply start_inStep. split; assumption.
  - destruct (clear_inStep t h (or_introl Hf) (or_introl Ht)) as (E & F & T).
    unfold inStep. rewrite E, F, T. split; reflexivity.
  - destruct (frames h) as [|id rest] eqn:Efr;
      [cbn [fst snd]; split; [rewrite Efr|]; assumption|].
    assert (Hrest : rest = []).
    { destruct (fid t); cbn [held] in Hf; inversion Hf; reflexivity. }
    subst rest.
    destruct (clear_inStep t {| fresh := fresh h; frames := []; timeouts := timeouts h |}
                (or_intror eq_refl) (or_introl Ht)) as (E & F & T).
    unfold inStep. rewrite E, F, T. split; reflexivity.
  - destruct (timeouts h) as [|[id macro] rest] eqn:Eto.
    + cbn [fst snd]. split; [assumption | rewrite Eto; exact Ht].
    + assert (Hrest : rest = [] /\ tid t = Some id).
      { destruct (tid t); cbn [held map fst] in Ht; inversion Ht.
        destruct rest; [auto | discriminate]. }
      destruct Hrest as [-> Htid].
      destruct macro.
      * unfold macroToMicro. apply start_inStep. split; [exact Hf | reflexivity].
      * destruct (clear_inStep t {| fresh := fresh h; frames := frames h; timeouts := [] |}
                    (or_introl Hf) (or_intror eq_refl)) as (E & F & T).
        unfold inStep. rewrite E, F, T. split; reflexivity.
Qed.

(** Whatever is done with a timer, the host has one animation frame and
    one timeout pending for it at most, and they are the ones whose
    handles the object holds: [start] schedules nothing twice, and [clear]
    leaves nothing scheduled. *)
Theorem timer_holds_what_is_pending (ops : list op) :
  let '(t, h) := run ops created {| fresh := 0; frames := []; timeouts := [] |} in
  frames h = held (fid t) /\ map fst (timeouts h) = held (tid t).
Proof.
  assert (H : forall t h, inStep t h ->
              let '(t', h') := run ops t h in inStep t' h').
  { induction ops as [|o ops IH]; intros t h Hi; cbn [run]; [exact Hi|].
    pose proof (step_inStep o t h Hi) as Hs.
    destruct (step o t h) as [t1 h1]. apply IH. exact Hs. }
  apply H. split; reflexivity.
Qed.

(** The delayed start: the timeout of [macroToMicro] first, then the
    animation frame and the timeout of twenty seconds, then nothing. *)
Example delayed_start :
  run [Start (Some 1)] created {| fresh := 0; frames := []; timeouts := [] |}
  = ({| fid := None; tid := Some 0%nat |},
     {| fresh := 1; frames := []; timeouts := [(0%nat, true)] |}) /\
  run [Start (Some 1); TimeoutFires] created {| fresh := 0; frames := []; timeouts := [] |}
  = ({| fid := Some 1%nat; tid := Some 2%nat |},
     {| fresh := 3; frames := [1%nat]; timeouts := [(2%nat, false)] |}) /\
  run [Start (Some 1); TimeoutFires; FrameFires] created
    {| fresh := 0; frames := []; timeouts := [] |}
  = (created, {| fresh := 3; frames := []; timeouts := [] |}).
Proof. repeat split; reflexivity. Qed.

End Timer.

(** ** The watcher of the document ([vAPI.domWatcher]) *)

Module Watcher.

Import JS.

Section Nodes.

(** The nodes of the mutation records, with what the watcher reads of
    them; [hasParent n] is [n.parentElement !== null]. *)
Variable node : Type.
Variable nodeType : node -> Z.
Variable localName : node -> str.
Variable hasParent : node -> bool.

Definition ignoreTags : list str :=
  [lit "br"; lit "head"; lit "link"; lit "meta"; lit "script"; lit "style"].

(** [domLayoutObserver]: [undefined], the observer, or [null]. *)
Inductive observer :=
| ObserverUndefined
| Observing
| ObserverNull.

(** What the watcher calls outside of itself: the methods of its
    listeners, of its timer, of the mutation observer and of
    [vAPI.shutdown].  A listener is known by its number. *)
Inductive event :=
| OnDOMCreated (l : nat)
| OnDOMChanged (l : nat) (added : list node) (removed : bool)
| TimerStart (delay : option Z)
| TimerClear
| Observe
| Disconnect
| ShutdownAdd
| ShutdownRemove.

(** A mutation record: [addedNodes] and [removedNodes]. *)
Definition mutation : Type := list node * list node.

(** The variables of the module and the log of the calls. *)
Record watcher := {
  addedNodeLists : list (list node);
  removedNodeLists : list (list node);
  addedNodes : list node;
  listeners : list nat;
  domIsReady : bool;
  domLayoutObserver : observer;
  listenerIterator : list nat;
  listenerIteratorDirty : bool;
  removedNodes : bool;
  safeObserverHandlerTimer : bool;
  events : list event
}.

Definition initial : watcher :=
  {| addedNodeLists := []; removedNodeLists := []; addedNodes := [];
     listeners := []; domIsReady := false; domLayoutObserver := ObserverUndefined;
     listenerIterator := []; listenerIteratorDirty := false;
     removedNodes := false; safeObserverHandlerTimer := false; events := [] |}.

Definition logged (evs : list event) (w : watcher) : watcher :=
  {| addedNodeLists := addedNodeLists w; removedNodeLists := removedNodeLists w;
     addedNodes := addedNodes w; listeners := listeners w;
     domIsReady := domIsReady w; domLayoutObserver := domLayoutObserver w;
     listenerIterator := listenerIterator w;
     listenerIteratorDirty := listenerIteratorDirty w;
     removedNodes := removedNodes w;
     safeObserverHandlerTimer := safeObserverHandlerTimer w;
     events := events w ++ evs |}.

Definition withListeners (ls : list nat) (w : watcher) : watcher :=
  {| addedNodeLists := addedNodeLists w; removedNodeLists := removedNodeLists w;
     addedNodes := addedNodes w; listeners := ls;
     domIsReady := domIsReady w; domLayoutObserver := domLayoutObserver w;
     listenerIterator := listenerIterator w;
     listenerIteratorDirty := true;
     removedNodes := removedNodes w;
     safeObserverHandlerTimer := safeObserverHandlerTimer w;
     events := events w |}.

Definition withObserver (o : observer) (timer : bool) (w : watcher) : watcher :=
  {| addedNodeLists := addedNodeLists w; removedNodeLists := removedNodeLists w;
     addedNodes := addedNodes w; listeners := listeners w;
     domIsReady := domIsReady w; domLayoutObserver := o;
     listenerIterator := listenerIterator w;
     listenerIteratorDirty := listenerIteratorDirty w;
     removedNodes := removedNodes w;
     safeObserverHandlerTimer := timer;
     events := events w |}.

Definition getListenerIterator (w : watcher) : list nat * watcher :=
  if listenerIteratorDirty w then
    (listeners w,
     {| addedNodeLists := addedNodeLists w; removedNodeLists := removedNodeLists w;
        addedNodes := addedNodes w; listeners := listeners w;
        domIsReady := domIsReady w; domLayoutObserver := domLayoutObserver w;
        listenerIterator := listeners w;
        listenerIteratorDirty := false;
        removedNodes := removedNodes w;
        safeObserverHandlerTimer := safeObserverHandlerTimer w;
        events := events w |})
  else (listenerIterator w, w).

Definition startMutationObserver (w : watcher) : watcher :=
  match domLayoutObserver w with
  | ObserverUndefined =>
      if domIsReady w
      then logged [Observe; ShutdownAdd] (withObserver Observing true w)
      else w
  | _ => w
  end.

(** [cleanup]; [true] when it throws: [domLayoutObserver.disconnect()] on
    [null] is a [TypeError]. *)
Definition cleanup (w : watcher) : bool * watcher :=
  match domLayoutObserver w with
  | ObserverNull => (true, w)
  | o =>
      let w1 := match o with
                | Observing =>
                    logged [Disconnect]
                      (withObserver ObserverNull (safeObserverHandlerTimer w) w)
                | _ => w
                end in
      (false,
       if safeObserverHandlerTimer w1
       then logged [TimerClear] (withObserver (domLayoutObserver w1) false w1)
       else w1)
  end.

Definition stopMutationObserver (w : watcher) : bool * watcher :=
  match domLayoutObserver w with
  | ObserverUndefined => (false, w)
  | _ =>
      let '(thrown, w1) := cleanup w in
      if thrown then (true, w1) else (false, logged [ShutdownRemove] w1)
  end.

Definition has (l : nat) (ls : list nat) : bool := existsb (Nat.eqb l) ls.

Definition addListener (l : nat) (w : watcher) : watcher :=
  if has l (listeners w) then w
  else
    let w1 := withListeners (listeners w ++ [l]) w in
    if negb (domIsReady w1) then w1
    else startMutationObserver (logged [OnDOMCreated l] w1).

(** [listeners.splice(pos, 1)] at the first place of [l]. *)
Fixpoint spliced (l : nat) (ls : list nat) : list nat :=
  match ls with
  | [] => []
  | x :: ls' => if Nat.eqb x l then ls' else x :: spliced l ls'
  end.

Definition removeListener (l : nat) (w : watcher) : bool * watcher :=
  if negb (has l (listeners w)) then (false, w)
  else
    let w1 := withListeners (spliced l (listeners w)) w in
    match listeners w1 with
    | [] => stopMutationObserver w1
    | _ :: _ => (false, w1)
    end.

Definition start (w : watcher) : watcher :=
  let w1 :=
    {| addedNodeLists := addedNodeLists w; removedNodeLists := removedNodeLists w;
       addedNodes := addedNodes w; listeners := listeners w;
       domIsReady := true; domLayoutObserver := domLayoutObserver w;
       listenerIterator := listenerIterator w;
       listenerIteratorDirty := listenerIteratorDirty w;
       removedNodes := removedNodes w;
       safeObserverHandlerTimer := safeObserverHandlerTimer w;
       events := events w |} in
  let '(it, w2) := getListenerIterator w1 in
  startMutationObserver (logged (map OnDOMCreated it) w2).

(** The loop of [observerHandler], over the records from the last one. *)
Fixpoint pushLists (visit : list mutation) (added removed : list (list node))
  : list (list node) * list (list node) :=
  match visit with
  | [] => (added, removed)
  | (a, r) :: rest =>
      pushLists rest
        (match a with [] => added | _ :: _ => added ++ [a] end)
        (match r with [] => removed | _ :: _ => removed ++ [r] end)
  end.

Definition observerHandler (mutations : list mutation) (w : watcher) : watcher :=
  let '(added, removed) :=
    pushLists (rev mutations) (addedNodeLists w) (removedNodeLists w) in
  let w1 :=
    {| addedNodeLists := added; removedNodeLists := removed;
       addedNodes := addedNodes w; listeners := listeners w;
       domIsReady := domIsReady w; domLayoutObserver := domLayoutObserver w;
       listenerIterator := listenerIterator w;
       listenerIteratorDirty := listenerIteratorDirty w;
       removedNodes := removedNodes w;
       safeObserverHandlerTimer := safeObserverHandlerTimer w;
       events := events w |} in
  if negb (Nat.eqb (length added) 0) || removedNodes w
  then logged [TimerStart (if Nat.ltb (length added) 100 then Some 1 else None)] w1
  else w1.

(** The node is kept: an element whose tag is not ignored and that has a
    parent. *)
Definition kept (n : node) : bool :=
  (nodeType n =? 1) && negb (existsb (eqb (localName n)) ignoreTags) && hasParent n.

(** The two loops of [safeObserverHandler] over the added nodes, each over
    what it visits from the last item to the first. *)
Fixpoint gatherNodes (visit : list node) (added : list node) : list node :=
  match visit with
  | [] => added
  | n :: rest => gatherNodes rest (if kept n then added ++ [n] else added)
  end.

Fixpoint gatherLists (visit : list (list node)) (added : list node) : list node :=
  match visit with
  | [] => added
  | nodeList :: rest => gatherLists rest (gatherNodes (rev nodeList) added)
  end.

(** The loop over the removed nodes. *)
Fixpoint anyElement (visit : list node) : bool :=
  match visit with
  | [] => false
  | n :: rest => if negb (nodeType n =? 1) then anyElement rest else true
  end.

Fixpoint gatherRemoved (visit : list (list node)) (removed : bool) : bool :=
  match visit with
  | [] => removed
  | nodeList :: rest =>
      if removed then removed
      else gatherRemoved rest (anyElement (rev nodeList))
  end.

Definition safeObserverHandler (w : watcher) : watcher :=
  let added := gatherLists (rev (addedNodeLists w)) (addedNodes w) in
  let removed := gatherRemoved (rev (removedNodeLists w)) (removedNodes w) in
  let w1 :=
    {| addedNodeLists := []; removedNodeLists := [];
       addedNodes := added; listeners := listeners w;
       domIsReady := domIsReady w; domLayoutObserver := domLayoutObserver w;
       listenerIterator := listenerIterator w;
       listenerIteratorDirty := listenerIteratorDirty w;
       removedNodes := removed;
       safeObserverHandlerTimer := safeObserverHandlerTimer w;
       events := events w ++ [TimerClear] |} in
  if Nat.eqb (length added) 0 && negb removed then w1
  else
    let '(it, w2) := getListenerIterator w1 in
    {| addedNodeLists := addedNodeLists w2; removedNodeLists := removedNodeLists w2;
       addedNodes := []; listeners := listeners w2;
       domIsReady := domIsReady w2; domLayoutObserver := domLayoutObserver w2;
       listenerIterator := listenerIterator w2;
       listenerIteratorDirty := listenerIteratorDirty w2;
       removedNodes := false;
       safeObserverHandlerTimer := safeObserverHandlerTimer w2;
       events := events w2 ++ map (fun l => OnDOMChanged l added removed) it |}.

(** What happens to the watcher: a call of its interface, a batch of
    mutation records from the observer, or its timer calling
    [safeObserverHandler].  The observer delivers records while it
    observes, and the timer fires while it exists.  A listener is taken
    not to call the watcher back from inside [onDOMCreated] or
    [onDOMChanged]: its calls of the interface come between those of the
    list. *)
Inductive op :=
| Start
| AddListener (l : nat)
| RemoveListener (l : nat)
| Mutations (ms : list mutation)
| TimerFires.

Definition step (o : op) (w : watcher) : bool * watcher :=
  match o with
  | Start => (false, start w)
  | AddListener l => (false, addListener l w)
  | RemoveListener l => removeListener l w
  | Mutations ms =>
      match domLayoutObserver w with
      | Observing => (false, observerHandler ms w)
      | _ => (false, w)
      end
  | TimerFires =>
      if safeObserverHandlerTimer w then (false, safeObserverHandler w) else (false, w)
  end.

(** A call that throws leaves the variables as they are at the throw. *)
Fixpoint run (ops : list op) (w : watcher) : watcher :=
  match ops with
  | [] => w
  | o :: ops' => run ops' (snd (step o w))
  end.

(** *** The listeners *)

(** What holds of the watcher between two calls: a listener is listed
    once, the copy of the list that the loops read is the list unless it
    is marked dirty, and nothing waits in [addedNodes] or [removedNodes]. *)
Definition settled (w : watcher) : Prop :=
  NoDup (listeners w) /\
  (listenerIteratorDirty w = false -> listenerIterator w = listeners w) /\
  addedNodes w = [] /\ removedNodes w = false.

Lemma has_In (l : nat) (ls : list nat) : has l ls = true <-> In l ls.
Proof.
  unfold has. rewrite existsb_exists. split.
  - intros (x & Hx & E). apply Nat.eqb_eq in E. subst. exact Hx.
  - intros H. exists l. split; [exact H | apply Nat.eqb_refl].
Qed.

Lemma spliced_In (l x : nat) (ls : list nat) : In x (spliced l ls) -> In x ls.
Proof.
  induction ls as [|y ls IH]; cbn [spliced]; [auto|].
  destruct (Nat.eqb y l); [intros H; right; exact H|].
  intros [<- | H]; [left; reflexivity | right; apply IH; exact H].
Qed.

Lemma spliced_NoDup (l : nat) (ls : list nat) : NoDup ls -> NoDup (spliced l ls).
Proof.
  induction ls as [|y ls IH]; cbn [spliced]; intros H; [constructor|].
  inversion H; subst. destruct (Nat.eqb y l); [assumption|].
  constructor; [|apply IH; assumption].
  intros Hin. apply spliced_In in Hin. contradiction.
Qed.

Lemma settled_logged (evs : list event) (w : watcher) : settled w -> settled (logged evs w).
Proof. intros H. exact H. Qed.

Lemma settled_withObserver (o : observer) (t : bool) (w : watcher) :
  settled w -> settled (withObserver o t w).
Proof. intros H. exact H. Qed.

Lemma settled_startMutationObserver (w : watcher) :
  settled w -> settled (startMutationObserver w).
Proof.
  intros H. unfold startMutationObserver.
  destruct (domLayoutObserver w); [|exact H|exact H].
  destruct (domIsReady w); exact H.
Qed.

Lemma settled_cleanup (w : watcher) : settled w -> settled (snd (cleanup w)).
Proof.
  intros H. unfold cleanup.
  destruct (domLayoutObserver w); cbn [snd]; try exact H;
    match goal with |- context [if ?b then _ else _] => destruct b end; exact H.
Qed.

Lemma settled_stopMutationObserver (w : watcher) :
  settled w -> settled (snd (stopMutationObserver w)).
Proof.
  intros H. unfold stopMutationObserver.
  pose proof (settled_cleanup w H) as Hc.
  destruct (domLayoutObserver w); [exact H| |];
    destruct (cleanup w) as [[|] w1]; exact Hc.
Qed.

Lemma settled_withListeners (ls : list nat) (w : watcher) :
  settled w -> NoDup ls -> settled (withListeners ls w).
Proof.
  intros (_ & _ & Ha & Hr) Hd. unfold settled. cbn.
  split; [exact Hd|]. split; [discriminate|]. split; assumption.
Qed.

Lemma settled_getListenerIterator (w : watcher) :
  settled w ->
  fst (getListenerIterator w) = listeners w /\ settled (snd (getListenerIterator w)) /\
  events (snd (getListenerIterator w)) = events w.
Proof.
  intros (Hd & Hi & Ha & Hr). unfold getListenerIterator.
  destruct (listenerIteratorDirty w) eqn:E; cbn [fst snd].
  - split; [reflexivity|]. split; [|reflexivity].
    unfold settled. cbn. auto.
  - split; [apply Hi; reflexivity|]. split; [|reflexivity].
    unfold settled. rewrite E. auto.
Qed.

Lemma settled_step (o : op) (w : watcher) : settled w -> settled (snd (step o w)).
Proof.
  intros H. destruct o; cbn [step snd].
  - unfold start.
    set (w1 := {| addedNodeLists := addedNodeLists w; removedNodeLists := _;
                  addedNodes := _; listeners := _; domIsReady := true;
                  domLayoutObserver := _; listenerIterator := _;
                  listenerIteratorDirty := _; removedNodes := _;
                  safeObserverHandlerTimer := _; events := _ |}).
    assert (H1 : settled w1) by exact H.
    destruct (settled_getListenerIterator w1 H1) as (_ & H2 & _).
    destruct (getListenerIterator w1) as [it w2]. cbn [snd] in H2.
    apply settled_startMutationObserver. exact H2.
  - unfold addListener. destruct (has l (listeners w)) eqn:E; [exact H|].
    assert (H1 : settled (withListeners (listeners w ++ [l]) w)).
    { apply settled_withListeners; [exact H|].
      destruct H as (Hd & _).
      rewrite <- (rev_involutive (listeners w ++ [l])).
      apply NoDup_rev. rewrite rev_app_distr. cbn [rev app].
      constructor; [|apply NoDup_rev; exact Hd].
      rewrite <- in_rev. intros Hin. apply has_In in Hin. congruence. }
    destruct (negb (domIsReady _)); [exact H1|].
    apply settled_startMutationObserver. exact H1.
  - unfold removeListener. destruct (negb (has l (listeners w))); [exact H|].
    assert (H1 : settled (withListeners (spliced l (listeners w)) w)).
    { apply settled_withListeners; [exact H|].
      apply spliced_NoDup. apply H. }
    destruct (listeners (withListeners (spliced l (listeners w)) w));
      [apply settled_stopMutationObserver; exact H1 | exact H1].
  - destruct (domLayoutObserver w); [exact H| |exact H].
    cbn [snd]. unfold observerHandler.
    destruct (pushLists _ _ _) as [added removed].
    destruct (negb (Nat.eqb (length added) 0) || removedNodes w); exact H.
  - destruct (safeObserverHandlerTimer w); [|exact H].
    cbn [snd]. unfold safeObserverHandler.
    destruct H as (Hd & Hi & Ha & Hr).
    set (added := gatherLists _ _). set (removed := gatherRemoved _ _).
    destruct (Nat.eqb (length added) 0 && negb removed) eqn:E.
    + apply andb_true_iff in E as [E1 E2].
      apply Nat.eqb_eq, length_zero_iff_nil in E1. apply negb_true_iff in E2.
      unfold settled. cbn. auto.
    + unfold getListenerIterator. cbn [listenerIteratorDirty].
      destruct (listenerIteratorDirty w) eqn:Ed; unfold settled; cbn; auto.
Qed.

Lemma settled_run (ops : list op) : forall w, settled w -> settled (run ops w).
Proof.
  induction ops as [|o ops IH]; intros w Hw; cbn [run]; [exact Hw|].
  apply IH. apply settled_step. exact Hw.
Qed.

Lemma settled_initial : settled initial.
Proof. unfold settled, initial. cbn. split; [constructor | auto]. Qed.

(** However the watcher is used, it lists a listener once, its loops over
    the listeners read the listeners as they are at the time of the loop,
    and a batch of added nodes is reported once: nothing of it is left in
    [addedNodes] for the next report. *)
Theorem watcher_settled (ops : list op) :
  NoDup (listeners (run ops initial)) /\
  fst (getListenerIterator (run ops initial)) = listeners (run ops initial) /\
  addedNodes (run ops initial) = [] /\
  removedNodes (run ops initial) = false.
Proof.
  pose proof (settled_run ops initial settled_initial) as Hs.
  destruct (settled_getListenerIterator _ Hs) as (Hit & _).
  destruct Hs as (Hd & _ & Ha & Hr). auto.
Qed.

(** *** What the listeners are told *)

Lemma gatherNodes_filter (visit added : list node) :
  gatherNodes visit added = added ++ filter kept visit.
Proof.
  revert added; induction visit as [|n rest IH]; intros added; cbn [gatherNodes filter].
  - rewrite app_nil_r. reflexivity.
  - rewrite IH. destruct (kept n); [rewrite <- app_assoc|]; reflexivity.
Qed.

Lemma gatherLists_filter (visit : list (list node)) (added : list node) :
  gatherLists visit added = added ++ filter kept (concat (map (@rev node) visit)).
Proof.
  revert added; induction visit as [|l rest IH]; intros added;
    cbn [gatherLists map concat].
  - rewrite app_nil_r. reflexivity.
  - rewrite IH, gatherNodes_filter, filter_app, app_assoc. reflexivity.
Qed.

Lemma anyElement_existsb (visit : list node) :
  anyElement visit = existsb (fun n => nodeType n =? 1) visit.
Proof.
  induction visit as [|n rest IH]; cbn [anyElement existsb]; [reflexivity|].
  destruct (nodeType n =? 1); cbn [negb orb]; [reflexivity | exact IH].
Qed.

Lemma gatherRemoved_existsb (visit : list (list node)) (removed : bool) :
  gatherRemoved visit removed =
  removed || existsb (existsb (fun n => nodeType n =? 1)) (map (@rev node) visit).
Proof.
  revert removed; induction visit as [|l rest IH]; intros removed;
    cbn [gatherRemoved map existsb].
  - rewrite orb_false_r. destruct removed; reflexivity.
  - destruct removed; [reflexivity|]. rewrite IH, anyElement_existsb. reflexivity.
Qed.

(** The nodes that a report names, and whether it names removals. *)
Definition reportedNodes (w : watcher) : list node :=
  filter kept (concat (map (@rev node) (rev (addedNodeLists w)))).

Definition reportedRemoval (w : watcher) : bool :=
  existsb (existsb (fun n => nodeType n =? 1)) (map (@rev node) (rev (removedNodeLists w))).

(** When the timer fires, the watcher clears it, and, unless there is
    nothing to report, it calls [onDOMChanged] of every listener, in their
    order, once, with the same arguments: the queued nodes that are
    elements with a parent and a tag outside [ignoreTags], read from the
    end of the queue, and whether an element was removed. *)
Theorem handler_reports (ops : list op) :
  let w := run ops initial in
  events (safeObserverHandler w) =
  events w ++ TimerClear ::
    (if Nat.eqb (length (reportedNodes w)) 0 && negb (reportedRemoval w) then []
     else map (fun l => OnDOMChanged l (reportedNodes w) (reportedRemoval w))
            (listeners w)) /\
  (forall n, In n (reportedNodes w) <->
             kept n = true /\ exists nodeList, In nodeList (addedNodeLists w) /\ In n nodeList).
Proof.
  cbv zeta. pose proof (settled_run ops initial settled_initial) as Hs.
  destruct (settled_getListenerIterator _ Hs) as (Hit & _).
  destruct Hs as (_ & _ & Ha & Hr).
  set (w := run ops initial) in *. split.
  - unfold safeObserverHandler.
    rewrite gatherLists_filter, gatherRemoved_existsb, Ha, Hr. cbn [app orb].
    fold (reportedNodes w). fold (reportedRemoval w).
    destruct (Nat.eqb (length (reportedNodes w)) 0 && negb (reportedRemoval w)).
    + reflexivity.
    + unfold getListenerIterator in *. cbn [listenerIteratorDirty listeners listenerIterator].
      destruct (listenerIteratorDirty w); cbn [fst events] in *.
      * rewrite <- app_assoc. reflexivity.
      * rewrite Hit, <- app_assoc. reflexivity.
  - intros n. unfold reportedNodes. rewrite filter_In, in_concat. split.
    + intros [(l & Hl & Hn) Hk]. split; [exact Hk|].
      apply in_map_iff in Hl as (l0 & <- & Hl0).
      exists l0. split; [apply in_rev; exact Hl0 | apply in_rev; exact Hn].
    + intros [Hk (l0 & Hl0 & Hn)]. split; [|exact Hk].
      exists (rev l0). split; [|apply in_rev in Hn; exact Hn].
      apply in_map. apply in_rev in Hl0. exact Hl0.
Qed.

(** *** Removals, and the end of the observation *)

Lemma pushLists_removals (visit : list mutation) :
  (forall m, In m visit -> fst m = []) ->
  forall added removed, fst (pushLists visit added removed) = added.
Proof.
  induction visit as [|[a r] rest IH]; intros Hall added removed; cbn [pushLists];
    [reflexivity|].
  assert (Ea : a = []) by (apply (Hall (a, r)); left; reflexivity).
  subst a. apply IH. intros m Hm. apply Hall. right. exact Hm.
Qed.

(** A batch of mutation records that only remove nodes starts no timer
    when no added node waits: [observerHandler] tests [removedNodes],
    which is set in [safeObserverHandler] and cleared there.  The
    listeners hear of these removals with the next added nodes. *)
Theorem removals_start_no_timer (ops : list op) (ms : list mutation) :
  addedNodeLists (run ops initial) = [] ->
  (forall m, In m ms -> fst m = []) ->
  events (observerHandler ms (run ops initial)) = events (run ops initial) /\
  addedNodeLists (observerHandler ms (run ops initial)) = [].
Proof.
  intros Hempty Hall.
  destruct (settled_run ops initial settled_initial) as (_ & _ & _ & Hr).
  set (w := run ops initial) in *. unfold observerHandler.
  assert (Hp : fst (pushLists (rev ms) (addedNodeLists w) (removedNodeLists w)) = []).
  { rewrite pushLists_removals; [exact Hempty|].
    intros m Hm. apply Hall. apply in_rev. exact Hm. }
  destruct (pushLists _ _ _) as [added removed]. cbn [fst] in Hp. subst added.
  rewrite Hr. cbn. auto.
Qed.

Lemma step_ObserverNull (o : op) (w : watcher) :
  domLayoutObserver w = ObserverNull ->
  domLayoutObserver (snd (step o w)) = ObserverNull.
Proof.
  intros H.
  assert (Hstart : forall w', domLayoutObserver w' = ObserverNull ->
                   domLayoutObserver (startMutationObserver w') = ObserverNull).
  { intros w' H'. unfold startMutationObserver. rewrite H'. exact H'. }
  destruct o; cbn [step snd].
  - unfold start, getListenerIterator. cbn [listenerIteratorDirty].
    destruct (listenerIteratorDirty w); apply Hstart; exact H.
  - unfold addListener. destruct (has l (listeners w)); [exact H|].
    destruct (negb _); [exact H|].
    apply Hstart. exact H.
  - unfold removeListener. destruct (negb (has l (listeners w))); [exact H|].
    destruct (listeners (withListeners (spliced l (listeners w)) w)); [|exact H].
    unfold stopMutationObserver, cleanup. cbn [withListeners domLayoutObserver].
    rewrite H. exact H.
  - rewrite H. exact H.
  - destruct (safeObserverHandlerTimer w); [|exact H].
    cbn [snd]. unfold safeObserverHandler.
    destruct (Nat.eqb _ 0 && negb _); [exact H|].
    unfold getListenerIterator. cbn [listenerIteratorDirty].
    destruct (listenerIteratorDirty w); exact H.
Qed.

(** Once the last listener is removed the watcher has disconnected its
    observer and set it to [null], and [startMutationObserver] starts an
    observer only while the variable is [undefined]: whatever is done
    afterwards, listeners added again included, the watcher observes no
    more.  When the last listener is then removed once more, [cleanup]
    calls [disconnect] on [null], and [removeListener] throws. *)
Theorem observer_is_not_restarted (ops : list op) (w : watcher) (l : nat) :
  domLayoutObserver w = ObserverNull ->
  domLayoutObserver (run ops w) = ObserverNull /\
  (listeners (run ops w) = [l] -> fst (removeListener l (run ops w)) = true).
Proof.
  intros H.
  assert (Hn : domLayoutObserver (run ops w) = ObserverNull).
  { revert w H; induction ops as [|o ops IH]; intros w H; cbn [run]; [exact H|].
    apply IH. apply step_ObserverNull. exact H. }
  split; [exact Hn|].
  intros Hl. unfold removeListener, has. rewrite Hl.
  cbn [existsb spliced withListeners listeners]. rewrite Nat.eqb_refl.
  cbn [orb negb]. unfold stopMutationObserver, cleanup, withListeners.
  cbn [domLayoutObserver]. rewrite Hn. reflexivity.
Qed.

End Nodes.

Arguments OnDOMCreated {node} l.
Arguments OnDOMChanged {node} l added removed.
Arguments TimerStart {node} delay.
Arguments TimerClear {node}.
Arguments Observe {node}.
Arguments Disconnect {node}.
Arguments ShutdownAdd {node}.
Arguments ShutdownRemove {node}.
Arguments Start {node}.
Arguments AddListener {node} l.
Arguments RemoveListener {node} l.
Arguments Mutations {node} ms.
Arguments TimerFires {node}.

(** A document of numbered nodes: the odd ones are [div] elements with a
    parent, the even ones are text nodes. *)
Definition oddElements (n : nat) : Z := if Nat.odd n then 1 else 3.

Lemma removals_start_no_timer_witness :
  events nat (observerHandler nat [([], [1%nat])]
                (run nat oddElements (fun _ => lit "div") (fun _ => true)
                   [Start; AddListener 7] (initial nat)))
  = [Observe; ShutdownAdd; OnDOMCreated 7] /\
  addedNodeLists nat
    (observerHandler nat [([], [1%nat])]
       (run nat oddElements (fun _ => lit "div") (fun _ => true)
          [Start; AddListener 7] (initial nat))) = [].
Proof.
  apply (removals_start_no_timer nat oddElements (fun _ => lit "div") (fun _ => true)
           [Start; AddListener 7] [([], [1%nat])]).
  - reflexivity.
  - intros m [<- | []]. reflexivity.
Defined.

Lemma observer_is_not_restarted_witness :
  domLayoutObserver nat
    (run nat oddElements (fun _ => lit "div") (fun _ => true) [AddListener 8]
       (run nat oddElements (fun _ => lit "div") (fun _ => true)
          [Start; AddListener 7; RemoveListener 7] (initial nat))) = ObserverNull /\
  fst (removeListener nat 8
         (run nat oddElements (fun _ => lit "div") (fun _ => true) [AddListener 8]
            (run nat oddElements (fun _ => lit "div") (fun _ => true)
               [Start; AddListener 7; RemoveListener 7] (initial nat)))) = true.
Proof.
  destruct (observer_is_not_restarted nat oddElements (fun _ => lit "div") (fun _ => true)
              [AddListener 8]
              (run nat oddElements (fun _ => lit "div") (fun _ => true)
                 [Start; AddListener 7; RemoveListener 7] (initial nat))
              8 eq_refl) as [H1 H2].
  split; [exact H1 | apply H2; reflexivity].
Defined.

(** Two records with a [div], a text node and a second [div]: the timer is
    started with a delay, and when it fires the listener is told of the
    two elements.  [observerHandler] queues the lists of the records from
    the last record to the first and [safeObserverHandler] reads the queue
    from its end, so that the elements of the first record come first. *)
Example handler_reports_two_elements :
  events nat
    (run nat oddElements (fun _ => lit "div") (fun _ => true)
       [Start; AddListener 7; Mutations [([1%nat; 2%nat], []); ([3%nat], [])]; TimerFires]
       (initial nat))
  = [Observe; ShutdownAdd; OnDOMCreated 7; TimerStart (Some 1); TimerClear;
     OnDOMChanged 7 [1%nat; 3%nat] false].
Proof. vm_compute. reflexivity. Qed.

End Watcher.

(** ** The surveyor's pending-chunk queues ([vAPI.domSurveyor]) *)

Module Surveyor.

Section Chunks.

Variable node : Type.

(** What a node is when it is read as an array: [Some l] when the node has
    a numeric [length] and the indexed items [l] (a form, a select), [None]
    when [node.length] is undefined. *)
Variable arrayLike : node -> option (list node).

(** An entry of [pending.added].  [addChunk] pushes arrays and node lists;
    its [concat] branch spreads an array, so that its nodes become entries
    themselves. *)
Inductive chunk :=
| ArrayChunk (l : list node)
| NodeListChunk (l : list node)
| NodeEntry (n : node).

Record pending := { nodes : list node; added : list chunk }.

(** [Array.isArray(c)] *)
Definition isArray (c : chunk) : bool :=
  match c with ArrayChunk _ => true | _ => false end.

(** [c.length]; [None] is [undefined]. *)
Definition chunkLength (c : chunk) : option nat :=
  match c with
  | ArrayChunk l | NodeListChunk l => Some (length l)
  | NodeEntry n => option_map (@length node) (arrayLike n)
  end.

(** [Array.prototype.slice.call(c)], the array itself when it is one. *)
Definition toArray (c : chunk) : list node :=
  match c with
  | ArrayChunk l | NodeListChunk l => l
  | NodeEntry n => match arrayLike n with Some l => l | None => [] end
  end.

Definition lengthIs (p : nat -> bool) (c : chunk) : bool :=
  match chunkLength c with Some k => p k | None => false end.

Definition hasChunk (p : pending) : bool :=
  negb (Nat.eqb (length (nodes p)) 0) || negb (Nat.eqb (length (added p)) 0).

Definition addChunk (p : pending) (a : chunk) : pending :=
  if lengthIs (fun k => Nat.eqb k 0) a then p
  else if negb (isArray a)
          || Nat.eqb (length (added p)) 0
          || match added p with
             | c0 :: _ => negb (isArray c0) || lengthIs (fun k => Nat.leb 1000 k) c0
             | [] => true
             end
       then {| nodes := nodes p; added := added p ++ [a] |}
       else {| nodes := nodes p; added := added p ++ map NodeEntry (toArray a) |}.

(** [nextChunk] returns the chunk to survey and leaves the queue updated. *)
Definition nextChunk (p : pending) : chunk * pending :=
  let '(a, rest) :=
    match added p with
    | c :: rest => (c, rest)
    | [] => (ArrayChunk [], [])
    end in
  if Nat.eqb (length (nodes p)) 0 then
    if lengthIs (fun k => Nat.leb k 1000) a
    then (a, {| nodes := nodes p; added := rest |})
    else
      let ns := toArray a in
      (ArrayChunk (firstn 1000 ns), {| nodes := skipn 1000 ns; added := rest |})
  else
    let a' := toArray a in
    if Nat.ltb (length (nodes p)) 1000 then
      let k := (1000 - length (nodes p))%nat in
      (ArrayChunk (nodes p ++ firstn k a'), {| nodes := skipn k a'; added := rest |})
    else
      (ArrayChunk (firstn 1000 (nodes p)),
       {| nodes := skipn 1000 (nodes p) ++ a'; added := rest |}).

(** The queue that a sequence of [addChunk] calls builds. *)
Definition addChunks (p : pending) (l : list chunk) : pending :=
  fold_left addChunk l p.

Lemma nextChunk_length (p : pending) :
  exists k, chunkLength (fst (nextChunk p)) = Some k /\ (k <= 1000)%nat.
Proof.
  unfold nextChunk.
  destruct (match added p with c :: rest => (c, rest) | [] => (ArrayChunk [], []) end)
    as [a rest].
  destruct (Nat.eqb (length (nodes p)) 0) eqn:E0.
  - destruct (lengthIs (fun k => Nat.leb k 1000) a) eqn:El.
    + unfold lengthIs in El. cbn [fst].
      destruct (chunkLength a) as [k|]; [|discriminate].
      exists k. split; [reflexivity|]. apply Nat.leb_le; assumption.
    + cbn [fst chunkLength]. eexists; split; [reflexivity|].
      rewrite length_firstn. lia.
  - destruct (Nat.ltb (length (nodes p)) 1000) eqn:E1; cbn [fst chunkLength];
      eexists; (split; [reflexivity|]).
    + apply Nat.ltb_lt in E1. rewrite length_app, length_firstn. lia.
    + rewrite length_firstn. lia.
Qed.

(** C8: whatever the node list and the overflow buffer of a pending queue
    hold, in particular after any sequence of [addChunk] calls, the value
    that one call of [nextChunk] returns has a numeric length, and this
    length is at most 1000. *)
Theorem nextChunk_at_most_1000 (p : pending) (l : list chunk) :
  (exists k, chunkLength (fst (nextChunk p)) = Some k /\ (k <= 1000)%nat) /\
  (exists k, chunkLength (fst (nextChunk (addChunks p l))) = Some k /\ (k <= 1000)%nat).
Proof. split; apply nextChunk_length. Qed.

End Chunks.

Arguments ArrayChunk {node} l.
Arguments NodeListChunk {node} l.
Arguments NodeEntry {node} n.

(** *** What the queue keeps and what it loses *)

Section Queue.

Variable node : Type.
Variable arrayLike : node -> option (list node).

#[local] Arguments nodes {node} _.
#[local] Arguments added {node} _.
#[local] Arguments Build_pending {node} _ _.
#[local] Arguments isArray {node} _.

(** An array or a node list, as [addChunk] is given one. *)
Definition isList (c : chunk node) : bool :=
  match c with ArrayChunk _ | NodeListChunk _ => true | NodeEntry _ => false end.

(** The nodes that an entry of [pending.added] stands for. *)
Definition entryNodes (c : chunk node) : list node :=
  match c with
  | ArrayChunk l | NodeListChunk l => l
  | NodeEntry n => [n]
  end.

(** The nodes that wait in the queue, in their order. *)
Definition queued (p : pending node) : list node :=
  nodes p ++ flat_map entryNodes (added p).

(** The chunks that [k] calls of [nextChunk] return, as arrays. *)
Fixpoint drain (k : nat) (p : pending node) : list (list node) :=
  match k with
  | O => []
  | S k' =>
      let '(c, p') := nextChunk node arrayLike p in
      toArray node arrayLike c :: drain k' p'
  end.

Lemma toArray_isList (c : chunk node) :
  isList c = true -> toArray node arrayLike c = entryNodes c.
Proof. destruct c; cbn; intros H; [reflexivity | reflexivity | discriminate]. Qed.

Lemma flat_map_entries (l : list node) :
  flat_map entryNodes (map (@NodeEntry node) l) = l.
Proof. induction l as [|n l IH]; cbn; [reflexivity | rewrite IH; reflexivity]. Qed.

(** [addChunk] queues the nodes of the array or node list that it is
    given, after those that wait already. *)
Theorem addChunk_queues (p : pending node) (a : chunk node) :
  isList a = true ->
  queued (addChunk node arrayLike p a) = queued p ++ entryNodes a.
Proof.
  intros Ha. unfold addChunk, queued.
  destruct (lengthIs node arrayLike (fun k => Nat.eqb k 0) a) eqn:E0.
  - unfold lengthIs in E0. destruct a as [l|l|n]; cbn in *; try discriminate;
      apply Nat.eqb_eq, length_zero_iff_nil in E0; subst; rewrite !app_nil_r; reflexivity.
  - destruct (negb (isArray a) || Nat.eqb (length (added p)) 0 || _); cbn [nodes added].
    + rewrite flat_map_app. cbn [flat_map]. rewrite app_nil_r, app_assoc. reflexivity.
    + rewrite flat_map_app, flat_map_entries, (toArray_isList a Ha), app_assoc.
      reflexivity.
Qed.

(** When the overflow buffer holds arrays and node lists only, [nextChunk]
    returns the first nodes of the queue and leaves the others queued, in
    their order: no node is lost and none is returned twice. *)
Theorem nextChunk_conserves (p : pending node) :
  forallb isList (added p) = true ->
  toArray node arrayLike (fst (nextChunk node arrayLike p))
    ++ queued (snd (nextChunk node arrayLike p)) = queued p.
Proof.
  intros Hl. unfold nextChunk, queued.
  assert (Hsplit : exists a rest,
             match added p with c :: rest => (c, rest) | [] => (ArrayChunk [], []) end
             = (a, rest) /\ isList a = true /\
             flat_map entryNodes (added p) = entryNodes a ++ flat_map entryNodes rest).
  { destruct (added p) as [|c rest].
    - exists (ArrayChunk []), []. auto.
    - cbn [forallb] in Hl. apply andb_true_iff in Hl as [Hc _].
      exists c, rest. auto. }
  destruct Hsplit as (a & rest & -> & Ha & ->).
  rewrite <- (toArray_isList a Ha).
  destruct (Nat.eqb (length (nodes p)) 0) eqn:E0.
  - apply Nat.eqb_eq, length_zero_iff_nil in E0. rewrite E0.
    destruct (lengthIs node arrayLike (fun k => Nat.leb k 1000) a); cbn [fst snd nodes added].
    + reflexivity.
    + cbn [toArray app]. rewrite app_assoc, firstn_skipn. reflexivity.
  - destruct (Nat.ltb (length (nodes p)) 1000); cbn [fst snd nodes added toArray].
    + rewrite <- !app_assoc. f_equal. rewrite app_assoc, firstn_skipn. reflexivity.
    + rewrite <- !app_assoc. rewrite (app_assoc (firstn 1000 (nodes p))), firstn_skipn.
      reflexivity.
Qed.

(** The [concat] of [addChunk] spreads the nodes of the array into
    [pending.added]; [nextChunk] then takes such a node for a chunk, and for
    a node without a [length] it returns an empty array. *)
Lemma nextChunk_entry (n : node) (rest : list (chunk node)) :
  arrayLike n = None ->
  nextChunk node arrayLike (Build_pending [] (NodeEntry n :: rest))
  = (ArrayChunk [], Build_pending [] rest).
Proof.
  intros Hn. unfold nextChunk, lengthIs. cbn [added nodes length Nat.eqb chunkLength toArray].
  rewrite Hn. reflexivity.
Qed.

Lemma drain_entries (k : nat) :
  forall b : list node,
  (forall n, In n b -> arrayLike n = None) ->
  forall x l, In l (drain k (Build_pending [] (map (@NodeEntry node) b))) -> ~ In x l.
Proof.
  induction k as [|k IH]; intros b Hb x l Hl; [contradiction|].
  destruct b as [|n b].
  - cbn [map drain] in Hl. unfold nextChunk, lengthIs in Hl.
    cbn [added nodes length Nat.eqb chunkLength toArray Nat.leb] in Hl.
    destruct Hl as [<- | Hl]; [intros []|].
    apply (IH [] (fun n H => match H with end) x l Hl).
  - cbn [map drain] in Hl. rewrite nextChunk_entry in Hl by (apply Hb; left; reflexivity).
    cbn [toArray] in Hl. destruct Hl as [<- | Hl]; [intros []|].
    apply (IH b (fun m H => Hb m (or_intror H)) x l Hl).
Qed.

(** Two arrays added in a row while the first is short: the nodes of the
    second are spread into the buffer, and however many times [nextChunk]
    is called, the chunks that it returns hold the nodes of the first
    array only.  The nodes of the second array are never surveyed. *)
Theorem second_array_is_lost (a b : list node) (k : nat) (x : node) (l : list node) :
  a <> [] ->
  (length a < 1000)%nat ->
  b <> [] ->
  (forall n, In n b -> arrayLike n = None) ->
  In l (drain k (addChunk node arrayLike
                   (addChunk node arrayLike (Build_pending [] []) (ArrayChunk a))
                   (ArrayChunk b))) ->
  In x l ->
  In x a.
Proof.
  intros Ha Hlen Hb Hnone Hl Hx.
  assert (E : addChunk node arrayLike
                (addChunk node arrayLike (Build_pending [] []) (ArrayChunk a))
                (ArrayChunk b)
              = Build_pending [] (ArrayChunk a :: map (@NodeEntry node) b)).
  { unfold addChunk at 2. unfold lengthIs. cbn [chunkLength added nodes isArray negb orb length].
    destruct a as [|a0 a']; [contradiction|]. cbn [length Nat.eqb app].
    unfold addChunk, lengthIs. cbn [chunkLength added nodes isArray negb orb length Nat.eqb].
    destruct b as [|b0 b']; [contradiction|]. cbn [length Nat.eqb].
    replace (Nat.leb 1000 (S (length a'))) with false
      by (symmetry; apply Nat.leb_gt; cbn [length] in Hlen; lia).
    reflexivity. }
  rewrite E in Hl. clear E.
  destruct k as [|k]; [contradiction|].
  cbn [drain] in Hl. unfold nextChunk at 1 in Hl. unfold lengthIs in Hl.
  cbn [added nodes length Nat.eqb chunkLength] in Hl.
  replace (Nat.leb (length a) 1000) with true in Hl
    by (symmetry; apply Nat.leb_le; lia).
  cbn [toArray] in Hl. destruct Hl as [<- | Hl]; [assumption|].
  exfalso. exact (drain_entries k b Hnone x l Hl Hx).
Qed.

(** The queue after [k] calls of [nextChunk]. *)
Fixpoint drained (k : nat) (p : pending node) : pending node :=
  match k with
  | O => p
  | S k' => drained k' (snd (nextChunk node arrayLike p))
  end.

(** One call on a queue of arrays and node lists: the chunk and the queue
    that is left make up the queue, an entry has left the overflow buffer
    when there was one, and the chunk is not empty when only [pending.nodes]
    held nodes. *)
Lemma nextChunk_step (p : pending node) :
  forallb isList (added p) = true ->
  toArray node arrayLike (fst (nextChunk node arrayLike p))
    ++ queued (snd (nextChunk node arrayLike p)) = queued p /\
  forallb isList (added (snd (nextChunk node arrayLike p))) = true /\
  length (added (snd (nextChunk node arrayLike p))) = (length (added p) - 1)%nat /\
  (added p = [] -> nodes p <> [] ->
   toArray node arrayLike (fst (nextChunk node arrayLike p)) <> []).
Proof.
  intros Hl. destruct (nextChunk node arrayLike p) as [c p'] eqn:En.
  cbn [fst snd]. unfold queued. unfold nextChunk in En.
  remember 1000%nat as cap eqn:Hcap.
  assert (Hpos : (1 <= cap)%nat) by (rewrite Hcap; apply Nat.leb_le; reflexivity).
  clear Hcap.
  destruct (added p) as [|a rest] eqn:Ea.
  - cbn [forallb flat_map length Nat.sub].
    destruct (nodes p) as [|n ns] eqn:Ens.
    + cbn in En. injection En as <- <-. cbn. auto.
    + cbn [length Nat.eqb toArray] in En.
      destruct (Nat.ltb (S (length ns)) cap) eqn:E1; injection En as <- <-;
        cbn [nodes added toArray flat_map forallb length].
      * rewrite firstn_nil, skipn_nil, !app_nil_r. auto.
      * apply Nat.ltb_ge in E1. rewrite !app_nil_r, firstn_skipn.
        split; [reflexivity|]. split; [reflexivity|]. split; [reflexivity|].
        intros _ _ E. apply (f_equal (@length node)) in E.
        rewrite length_firstn in E. cbn [length] in E. lia.
  - cbn [forallb] in Hl. apply andb_true_iff in Hl as [Ha Hrest].
    cbn [flat_map length Nat.sub]. rewrite Nat.sub_0_r.
    rewrite <- (toArray_isList a Ha).
    destruct (Nat.eqb (length (nodes p)) 0) eqn:E0.
    + apply Nat.eqb_eq, length_zero_iff_nil in E0. rewrite E0 in *.
      destruct (lengthIs node arrayLike (fun k => Nat.leb k cap) a);
        injection En as <- <-; cbn [nodes added toArray app].
      * split; [reflexivity|]. split; [exact Hrest|]. split; [reflexivity|]. discriminate.
      * rewrite app_assoc, firstn_skipn.
        split; [reflexivity|]. split; [exact Hrest|]. split; [reflexivity|]. discriminate.
    + destruct (Nat.ltb (length (nodes p)) cap); injection En as <- <-;
        cbn [nodes added toArray].
      * rewrite <- !app_assoc. rewrite (app_assoc (firstn _ _)), firstn_skipn.
        split; [reflexivity|]. split; [exact Hrest|]. split; [reflexivity|]. discriminate.
      * rewrite <- !app_assoc. rewrite (app_assoc (firstn cap (nodes p))), firstn_skipn.
        split; [reflexivity|]. split; [exact Hrest|]. split; [reflexivity|]. discriminate.
Qed.

(** A queue of arrays and node lists is drained in full: the chunks that
    [nextChunk] returns, one call after the other, are the queued nodes in
    their order, each node once, and [hasChunk] is then [false].  As many
    calls as there are nodes and entries are enough, and further calls
    return empty chunks. *)
Theorem nextChunk_drains (k : nat) :
  forall p : pending node,
  forallb isList (added p) = true ->
  (length (queued p) + length (added p) <= k)%nat ->
  concat (drain k p) = queued p /\ hasChunk node (drained k p) = false.
Proof.
  induction k as [|k IH]; intros p Hl Hk.
  - assert (Hq : queued p = []) by (apply length_zero_iff_nil; lia).
    assert (Ha : added p = []) by (apply length_zero_iff_nil; lia).
    unfold queued in Hq. apply app_eq_nil in Hq as [Hn _].
    cbn [drain drained concat]. unfold queued, hasChunk. rewrite Hn, Ha. auto.
  - destruct (nextChunk_step p Hl) as (Hsplit & Hl' & Hlen & Hne).
    cbn [drain drained].
    destruct (nextChunk node arrayLike p) as [c p'] eqn:En. cbn [fst snd] in *.
    assert (Hk' : (length (queued p') + length (added p') <= k)%nat).
    { pose proof (f_equal (@length node) Hsplit) as Hs. rewrite length_app in Hs.
      destruct (added p) as [|a rest] eqn:Ea; cbn [length] in *; [|lia].
      destruct (nodes p) as [|n ns] eqn:Ens.
      - unfold queued in Hs, Hk |- *. rewrite Ea, Ens in *. cbn [flat_map app length] in *. lia.
      - assert (H1 : toArray node arrayLike c <> []) by (apply Hne; [reflexivity | discriminate]).
        destruct (toArray node arrayLike c); [contradiction|]. cbn [length] in Hs. lia. }
    destruct (IH p' Hl' Hk') as [Hc Hh].
    cbn [concat]. rewrite Hc. split; [exact Hsplit | exact Hh].
Qed.

End Queue.

(** A queue of numbered nodes, none of which has a [length]. *)
Lemma addChunk_queues_witness :
  queued nat (addChunk nat (fun _ => None) {| nodes := [1%nat]; added := [] |}
                (ArrayChunk [2%nat; 3%nat]))
  = [1%nat; 2%nat; 3%nat].
Proof.
  apply (addChunk_queues nat (fun _ => None) {| nodes := [1%nat]; added := [] |}
           (ArrayChunk [2%nat; 3%nat])).
  reflexivity.
Defined.

Lemma nextChunk_conserves_witness :
  toArray nat (fun _ => None)
    (fst (nextChunk nat (fun _ => None)
            {| nodes := [1%nat]; added := [NodeListChunk [2%nat; 3%nat]] |}))
  ++ queued nat
       (snd (nextChunk nat (fun _ => None)
               {| nodes := [1%nat]; added := [NodeListChunk [2%nat; 3%nat]] |}))
  = [1%nat; 2%nat; 3%nat].
Proof.
  apply (nextChunk_conserves nat (fun _ => None)
           {| nodes := [1%nat]; added := [NodeListChunk [2%nat; 3%nat]] |}).
  reflexivity.
Defined.

Lemma second_array_is_lost_witness : In 1%nat [1%nat].
Proof.
  apply (second_array_is_lost nat (fun _ => None) [1%nat] [2%nat] 1 1%nat [1%nat]).
  - discriminate.
  - cbn. lia.
  - discriminate.
  - reflexivity.
  - vm_compute. left; reflexivity.
  - left; reflexivity.
Defined.

Lemma nextChunk_drains_witness :
  concat (drain nat (fun _ => None) 6
            {| nodes := [1%nat]; added := [NodeListChunk [2%nat; 3%nat]; ArrayChunk [4%nat]] |})
  = [1%nat; 2%nat; 3%nat; 4%nat] /\
  hasChunk nat
    (drained nat (fun _ => None) 6
       {| nodes := [1%nat]; added := [NodeListChunk [2%nat; 3%nat]; ArrayChunk [4%nat]] |})
  = false.
Proof.
  apply (nextChunk_drains nat (fun _ => None) 6
           {| nodes := [1%nat]; added := [NodeListChunk [2%nat; 3%nat]; ArrayChunk [4%nat]] |}).
  - reflexivity.
  - vm_compute. lia.
Defined.

(** The second array is queued, and two calls of [nextChunk] drain the
    queue without returning its node. *)
Example second_array_queued_then_lost :
  queued nat (addChunk nat (fun _ => None)
                (addChunk nat (fun _ => None) {| nodes := []; added := [] |} (ArrayChunk [1%nat]))
                (ArrayChunk [2%nat]))
  = [1%nat; 2%nat] /\
  drain nat (fun _ => None) 3
    (addChunk nat (fun _ => None)
       (addChunk nat (fun _ => None) {| nodes := []; added := [] |} (ArrayChunk [1%nat]))
       (ArrayChunk [2%nat]))
  = [[1%nat]; []; []].
Proof. split; vm_compute; reflexivity. Qed.

(** *** The identifiers and the classes of a chunk ([surveyPhase1]) *)

Section Survey.

Variable node : Type.
Variable arrayLike : node -> option (list node).

(** [node.id] and [node.className] when they are strings, and the tokens
    of [node.classList]. *)
Variable idOf : node -> option JS.str.
Variable className : node -> option JS.str.
Variable classList : node -> list JS.str.

(** [queriedIds] and [queriedClasses]: the values in insertion order. *)
Definition queriedHas (v : JS.str) (qq : list JS.str) : bool := existsb (JS.eqb v) qq.

(** The first loop of [surveyPhase1], over the nodes in the order in which
    it visits them (from the last one to the first): [ids] and the set. *)
Fixpoint collectIds (visit : list node) (ids qq : list JS.str)
  : list JS.str * list JS.str :=
  match visit with
  | [] => (ids, qq)
  | n :: rest =>
      match idOf n with
      | None => collectIds rest ids qq
      | Some v0 =>
          let v := JS.trim v0 in
          if negb (queriedHas v qq) && negb (Nat.eqb (length v) 0)
          then collectIds rest (ids ++ [v]) (qq ++ [v])
          else collectIds rest ids qq
      end
  end.

(** The loop over the tokens of a [classList], from the last one. *)
Fixpoint collectTokens (visit : list JS.str) (classes qq : list JS.str)
  : list JS.str * list JS.str :=
  match visit with
  | [] => (classes, qq)
  | v :: rest =>
      if negb (queriedHas v qq)
      then collectTokens rest (classes ++ [v]) (qq ++ [v])
      else collectTokens rest classes qq
  end.

(** The second loop of [surveyPhase1]. *)
Fixpoint collectClasses (visit : list node) (classes qq : list JS.str)
  : list JS.str * list JS.str :=
  match visit with
  | [] => (classes, qq)
  | n :: rest =>
      match className n with
      | None => collectClasses rest classes qq
      | Some vv =>
          if negb (existsb JS.isSpace vv) then
            if negb (queriedHas vv qq) && negb (Nat.eqb (length vv) 0)
            then collectClasses rest (classes ++ [vv]) (qq ++ [vv])
            else collectClasses rest classes qq
          else
            let '(classes', qq') := collectTokens (rev (classList n)) classes qq in
            collectClasses rest classes' qq'
      end
  end.

(** What [surveyPhase1] takes from the two queues: the identifiers and the
    classes to look up, the two sets and the two queues as it leaves
    them. *)
Definition surveyed (pendingIdNodes pendingClassNodes : pending node)
    (queriedIds queriedClasses : list JS.str)
  : (list JS.str * list JS.str * pending node)
    * (list JS.str * list JS.str * pending node) :=
  let '(c1, p1) := nextChunk node arrayLike pendingIdNodes in
  let '(ids, qi) := collectIds (rev (toArray node arrayLike c1)) [] queriedIds in
  let '(c2, p2) := nextChunk node arrayLike pendingClassNodes in
  let '(classes, qc) := collectClasses (rev (toArray node arrayLike c2)) [] queriedClasses in
  ((ids, qi, p1), (classes, qc, p2)).

Lemma queriedHas_In (v : JS.str) (qq : list JS.str) :
  queriedHas v qq = true <-> In v qq.
Proof.
  unfold queriedHas. rewrite existsb_exists. split.
  - intros (x & Hx & E). apply JS.eqb_eq in E. subst. assumption.
  - intros H. exists v. split; [assumption | apply JS.eqb_refl].
Qed.

Lemma queriedHas_not_In (v : JS.str) (qq : list JS.str) :
  queriedHas v qq = false <-> ~ In v qq.
Proof.
  rewrite <- queriedHas_In. destruct (queriedHas v qq); split; congruence.
Qed.

(** The values that a loop adds: none was in the set, and none twice. *)
Definition fresh (qq new : list JS.str) : Prop :=
  NoDup new /\ forall v, In v new -> ~ In v qq.

Lemma fresh_nil (qq : list JS.str) : fresh qq [].
Proof. split; [constructor | intros v []]. Qed.

Lemma fresh_cons (qq : list JS.str) (v : JS.str) (new : list JS.str) :
  ~ In v qq -> fresh (qq ++ [v]) new -> fresh qq (v :: new).
Proof.
  intros Hv [Hd Hn]. split.
  - constructor; [|assumption]. intros Hin. apply (Hn v Hin).
    apply in_or_app. right. left. reflexivity.
  - intros x [<- | Hx]; [assumption|].
    intros Hq. apply (Hn x Hx). apply in_or_app. left. assumption.
Qed.

Lemma collectIds_fresh (visit : list node) :
  forall ids qq ids' qq',
  collectIds visit ids qq = (ids', qq') ->
  exists new,
    ids' = ids ++ new /\ qq' = qq ++ new /\ fresh qq new /\
    forall v, In v new ->
      v <> [] /\ exists n v0, In n visit /\ idOf n = Some v0 /\ v = JS.trim v0.
Proof.
  induction visit as [|n rest IH]; intros ids qq ids' qq' H; cbn [collectIds] in H.
  - inversion H; subst. exists []. rewrite !app_nil_r.
    split; [reflexivity|]. split; [reflexivity|]. split; [apply fresh_nil | intros v []].
  - assert (Hskip : collectIds rest ids qq = (ids', qq') ->
              exists new,
                ids' = ids ++ new /\ qq' = qq ++ new /\ fresh qq new /\
                forall v, In v new ->
                  v <> [] /\ exists m v0, In m (n :: rest) /\ idOf m = Some v0
                                          /\ v = JS.trim v0).
    { intros H'. destruct (IH _ _ _ _ H') as (new & E1 & E2 & Hf & Hv).
      exists new. repeat split; auto; try apply Hf.
      - apply (Hv v H0).
      - destruct (Hv v H0) as (_ & m & v0 & Hm & Hid & Et).
        exists m, v0. split; [right; assumption | auto]. }
    destruct (idOf n) as [v0|] eqn:Eid; [|auto].
    cbv zeta in H.
    destruct (negb (queriedHas (JS.trim v0) qq) && negb (Nat.eqb (length (JS.trim v0)) 0))
      eqn:Ec; [|auto].
    apply andb_true_iff in Ec as [Eq El].
    apply negb_true_iff in Eq, El. apply queriedHas_not_In in Eq.
    apply Nat.eqb_neq in El.
    destruct (IH _ _ _ _ H) as (new & E1 & E2 & Hf & Hv).
    exists (JS.trim v0 :: new).
    rewrite <- app_assoc in E1, E2. cbn [app] in E1, E2.
    split; [assumption|]. split; [assumption|]. split; [apply fresh_cons; assumption|].
    intros v [<- | Hin].
    + split; [intros E; rewrite E in El; apply El; reflexivity|].
      exists n, v0. split; [left; reflexivity | auto].
    + destruct (Hv v Hin) as (Hne & m & v1 & Hm & Hid & Et).
      split; [assumption|]. exists m, v1. split; [right; assumption | auto].
Qed.

Lemma collectTokens_fresh (visit : list JS.str) :
  forall classes qq classes' qq',
  collectTokens visit classes qq = (classes', qq') ->
  exists new, classes' = classes ++ new /\ qq' = qq ++ new /\ fresh qq new.
Proof.
  induction visit as [|v rest IH]; intros classes qq classes' qq' H;
    cbn [collectTokens] in H.
  - inversion H; subst. exists []. rewrite !app_nil_r. auto using fresh_nil.
  - destruct (negb (queriedHas v qq)) eqn:Eq; [|apply IH; assumption].
    apply negb_true_iff, queriedHas_not_In in Eq.
    destruct (IH _ _ _ _ H) as (new & E1 & E2 & Hf).
    exists (v :: new). rewrite <- app_assoc in E1, E2.
    split; [assumption|]. split; [assumption|]. apply fresh_cons; assumption.
Qed.

Lemma fresh_app (qq a b : list JS.str) :
  fresh qq a -> fresh (qq ++ a) b -> fresh qq (a ++ b).
Proof.
  revert qq; induction a as [|v a IH]; intros qq Ha Hb.
  - rewrite app_nil_r in Hb. exact Hb.
  - destruct Ha as [Hd Hn]. inversion Hd; subst. cbn [app].
    apply fresh_cons; [apply Hn; left; reflexivity|].
    apply IH.
    + split; [assumption|]. intros x Hx Hq. apply in_app_or in Hq as [Hq | [<- | []]].
      * apply (Hn x (or_intror Hx) Hq).
      * contradiction.
    + rewrite <- app_assoc. exact Hb.
Qed.

Lemma collectClasses_fresh (visit : list node) :
  forall classes qq classes' qq',
  collectClasses visit classes qq = (classes', qq') ->
  exists new, classes' = classes ++ new /\ qq' = qq ++ new /\ fresh qq new.
Proof.
  induction visit as [|n rest IH]; intros classes qq classes' qq' H;
    cbn [collectClasses] in H.
  - inversion H; subst. exists []. rewrite !app_nil_r. auto using fresh_nil.
  - destruct (className n) as [vv|]; [|apply IH; assumption].
    destruct (negb (existsb JS.isSpace vv)).
    + destruct (negb (queriedHas vv qq) && negb (Nat.eqb (length vv) 0)) eqn:Ec;
        [|apply IH; assumption].
      apply andb_true_iff in Ec as [Eq _].
      apply negb_true_iff, queriedHas_not_In in Eq.
      destruct (IH _ _ _ _ H) as (new & E1 & E2 & Hf).
      exists (vv :: new). rewrite <- app_assoc in E1, E2.
      split; [assumption|]. split; [assumption|]. apply fresh_cons; assumption.
    + destruct (collectTokens (rev (classList n)) classes qq) as [c1 q1] eqn:Et.
      destruct (collectTokens_fresh _ _ _ _ _ Et) as (new1 & -> & -> & Hf1).
      destruct (IH _ _ _ _ H) as (new2 & E1 & E2 & Hf2).
      exists (new1 ++ new2). rewrite <- app_assoc in E1, E2.
      split; [assumption|]. split; [assumption|]. apply fresh_app; assumption.
Qed.

(** [surveyPhase1] asks about an identifier or a class once: what it
    collects from a chunk holds no value twice and no value of
    [queriedIds] or [queriedClasses], and it adds exactly these values to
    the two sets.  An identifier that it collects is the trimmed [id] of a
    node of the chunk and is not empty. *)
Theorem surveyed_once (pendingIdNodes pendingClassNodes : pending node)
    (queriedIds queriedClasses : list JS.str) :
  let '((ids, qi, _), (classes, qc, _)) :=
    surveyed pendingIdNodes pendingClassNodes queriedIds queriedClasses in
  (NoDup ids /\ (forall v, In v ids -> ~ In v queriedIds /\ v <> [])
   /\ qi = queriedIds ++ ids) /\
  (NoDup classes /\ (forall v, In v classes -> ~ In v queriedClasses)
   /\ qc = queriedClasses ++ classes).
Proof.
  unfold surveyed.
  destruct (nextChunk node arrayLike pendingIdNodes) as [c1 p1].
  destruct (collectIds _ [] queriedIds) as [ids qi] eqn:E1.
  destruct (nextChunk node arrayLike pendingClassNodes) as [c2 p2].
  destruct (collectClasses _ [] queriedClasses) as [classes qc] eqn:E2.
  destruct (collectIds_fresh _ _ _ _ _ E1) as (new1 & -> & -> & [Hd1 Hn1] & Hv1).
  destruct (collectClasses_fresh _ _ _ _ _ E2) as (new2 & -> & -> & [Hd2 Hn2]).
  cbn [app]. split; (split; [assumption|]); (split; [|reflexivity]).
  - intros v Hv. split; [apply Hn1; assumption | apply (Hv1 v Hv)].
  - assumption.
Qed.

End Survey.

(** *** The answers of the main process ([surveyPhase3]) *)

(** [response.result]: [simple] and [complex] are its arrays of selectors,
    [None] when the property is not an array; [injected] is its string,
    [None] when the property is not a string. *)
Record result := {
  simple : option (list JS.str);
  complex : option (list JS.str);
  injected : option JS.str
}.

(** What [surveyPhase3] calls: [domFilterer.addCSSRule] for the rules of
    the three kinds, [surveyTimer.start(1)], [surveyTimer.clear()],
    [vAPI.domWatcher.removeListener], and the assignment of [null] to
    [vAPI.domSurveyor]. *)
Inductive call :=
| AddSimple (selectors : list JS.str)
| AddComplex (selectors : list JS.str)
| AddInjected (selectors : JS.str)
| TimerStart
| TimerClear
| RemoveListener
| SurveyorNull.

(** The two variables that decide when the surveyor shuts down. *)
Record surveyor := { canShutdownAfter : Z; surveyingMissCount : Z }.

(** The module as it is created at the time [now]. *)
Definition created (now : Z) : surveyor :=
  {| canShutdownAfter := now + 300000; surveyingMissCount := 0 |}.

Section Answers.

Variable node : Type.

(** An answer as it arrives: the response ([None] when the response or its
    [result] is missing), what [Date.now()] returns during the call, and
    the two queues. *)
Record arrival := {
  response : option result;
  now : Z;
  pendingIdNodes : pending node;
  pendingClassNodes : pending node
}.

(** [surveyPhase3(response)]: its calls, and the variables as it leaves
    them. *)
Definition surveyPhase3 (a : arrival) (s : surveyor) : list call * surveyor :=
  let '(calls1, mustCommit) :=
    match response a with
    | None => ([], false)
    | Some r =>
        let '(c1, m1) :=
          match simple r with
          | Some (x :: l) => ([AddSimple (x :: l)], true)
          | _ => ([], false)
          end in
        let '(c2, m2) :=
          match complex r with
          | Some (x :: l) => (c1 ++ [AddComplex (x :: l)], true)
          | _ => (c1, m1)
          end in
        match injected r with
        | Some (c :: t) => (c2 ++ [AddInjected (c :: t)], true)
        | _ => (c2, m2)
        end
    end in
  let calls2 :=
    if hasChunk node (pendingIdNodes a) || hasChunk node (pendingClassNodes a)
    then calls1 ++ [TimerStart]
    else calls1 in
  if mustCommit then
    (calls2, {| canShutdownAfter := now a + 300000; surveyingMissCount := 0 |})
  else
    let count := surveyingMissCount s + 1 in
    if (count <? 256) || (now a <? canShutdownAfter s)
    then (calls2, {| canShutdownAfter := canShutdownAfter s; surveyingMissCount := count |})
    else (calls2 ++ [TimerClear; RemoveListener; SurveyorNull],
          {| canShutdownAfter := canShutdownAfter s; surveyingMissCount := count |}).

(** The variables after the answers [hs], the earliest first. *)
Definition answered (hs : list arrival) (s : surveyor) : surveyor :=
  fold_left (fun s a => snd (surveyPhase3 a s)) hs s.

(** The answer brings a rule: a selector in [simple] or in [complex], or
    a text in [injected]. *)
Definition fruitful (a : arrival) : bool :=
  match response a with
  | None => false
  | Some r =>
      match simple r with Some (_ :: _) => true | _ => false end
      || match complex r with Some (_ :: _) => true | _ => false end
      || match injected r with Some (_ :: _) => true | _ => false end
  end.

(** Over the answers from the latest one back: how many came since the
    last fruitful one, and the time of the last fruitful one, [t0] when
    there is none. *)
Fixpoint misses (recent : list arrival) : nat :=
  match recent with
  | [] => O
  | a :: older => if fruitful a then O else S (misses older)
  end.

Fixpoint lastFruitful (t0 : Z) (recent : list arrival) : Z :=
  match recent with
  | [] => t0
  | a :: older => if fruitful a then now a else lastFruitful t0 older
  end.

Lemma surveyPhase3_fruitful (a : arrival) (s : surveyor) :
  fruitful a = true ->
  snd (surveyPhase3 a s) = {| canShutdownAfter := now a + 300000; surveyingMissCount := 0 |}
  /\ ~ In SurveyorNull (fst (surveyPhase3 a s)).
Proof.
  unfold fruitful, surveyPhase3. intros H.
  assert (Hno : forall l : list call,
            (forall c, In c l -> c <> SurveyorNull) ->
            ~ In SurveyorNull
                (if hasChunk node (pendingIdNodes a) || hasChunk node (pendingClassNodes a)
                 then l ++ [TimerStart] else l)).
  { intros l Hl Hin. destruct (hasChunk node _ || hasChunk node _).
    - apply in_app_or in Hin as [Hin | [Hin | []]]; [|discriminate].
      apply (Hl _ Hin). reflexivity.
    - apply (Hl _ Hin). reflexivity. }
  destruct (response a) as [r|]; [|discriminate].
  destruct (simple r) as [[|x l]|], (complex r) as [[|y l']|], (injected r) as [[|c t]|];
    try discriminate; cbn [fst snd]; (split; [reflexivity|]); apply Hno;
    intros e He; cbn [In app] in He; intuition (subst; discriminate).
Qed.

Lemma surveyPhase3_fruitless (a : arrival) (s : surveyor) :
  fruitful a = false ->
  snd (surveyPhase3 a s)
  = {| canShutdownAfter := canShutdownAfter s;
       surveyingMissCount := surveyingMissCount s + 1 |}
  /\ (In SurveyorNull (fst (surveyPhase3 a s)) <->
      256 <= surveyingMissCount s + 1 /\ canShutdownAfter s <= now a).
Proof.
  unfold fruitful, surveyPhase3. intros H.
  assert (Hm : match response a with
               | None => ([], false)
               | Some r =>
                   let '(c1, m1) :=
                     match simple r with
                     | Some (x :: l) => ([AddSimple (x :: l)], true)
                     | _ => ([], false)
                     end in
                   let '(c2, m2) :=
                     match complex r with
                     | Some (x :: l) => (c1 ++ [AddComplex (x :: l)], true)
                     | _ => (c1, m1)
                     end in
                   match injected r with
                   | Some (c :: t) => (c2 ++ [AddInjected (c :: t)], true)
                   | _ => (c2, m2)
                   end
               end = (@nil call, false)).
  { destruct (response a) as [r|]; [|reflexivity].
    destruct (simple r) as [[|x l]|], (complex r) as [[|y l']|], (injected r) as [[|c t]|];
      try discriminate; reflexivity. }
  rewrite Hm. cbn [app].
  assert (Hno : ~ In SurveyorNull
                  (if hasChunk node (pendingIdNodes a) || hasChunk node (pendingClassNodes a)
                   then [TimerStart] else [])).
  { destruct (hasChunk node _ || hasChunk node _); cbn [In]; intuition discriminate. }
  destruct ((surveyingMissCount s + 1 <? 256) || (now a <? canShutdownAfter s)) eqn:E;
    cbn [fst snd]; (split; [reflexivity|]).
  - apply orb_true_iff in E. split; [intros Hin; contradiction|].
    intros [H1 H2]. destruct E as [E | E]; apply Z.ltb_lt in E; lia.
  - apply orb_false_iff in E as [E1 E2]. apply Z.ltb_ge in E1, E2.
    split; [intros _; split; assumption|].
    intros _. apply in_or_app. right. right. right. left. reflexivity.
Qed.

(** The two variables follow the answers: the count is the number of
    answers since the last fruitful one, and the time is five minutes
    after the last fruitful one. *)
Lemma answered_follows (t0 : Z) (hs : list arrival) :
  answered hs (created t0)
  = {| canShutdownAfter := lastFruitful t0 (rev hs) + 300000;
       surveyingMissCount := Z.of_nat (misses (rev hs)) |}.
Proof.
  induction hs as [|a hs IH] using rev_ind; [reflexivity|].
  unfold answered in *. rewrite fold_left_app, IH. cbn [fold_left].
  rewrite rev_app_distr. cbn [rev app misses lastFruitful].
  destruct (fruitful a) eqn:Ef.
  - apply (surveyPhase3_fruitful a _ Ef).
  - rewrite (proj1 (surveyPhase3_fruitless a _ Ef)).
    cbn [canShutdownAfter surveyingMissCount]. f_equal. lia.
Qed.

(** The surveyor shuts down on an answer exactly when this answer and the
    255 answers before it, at least, brought no rule, and five minutes
    have passed since the last answer that brought one, or since the
    surveyor was created when none did.  The answers are given from the
    earliest one; [t0] is the time of the creation. *)
Theorem surveyor_shuts_down (t0 : Z) (hs : list arrival) (a : arrival) :
  In SurveyorNull (fst (surveyPhase3 a (answered hs (created t0)))) <->
  fruitful a = false /\
  (255 <= misses (rev hs))%nat /\
  lastFruitful t0 (rev hs) + 300000 <= now a.
Proof.
  rewrite answered_follows.
  destruct (fruitful a) eqn:Ef.
  - split; [|intros [H _]; discriminate].
    intros Hin. exfalso. exact (proj2 (surveyPhase3_fruitful a _ Ef) Hin).
  - rewrite (proj2 (surveyPhase3_fruitless a _ Ef)).
    cbn [canShutdownAfter surveyingMissCount]. split.
    + intros [H1 H2]. split; [reflexivity|]. split; [lia | exact H2].
    + intros (_ & H1 & H2). split; [lia | exact H2].
Qed.

End Answers.

Arguments response {node} _.
Arguments now {node} _.
Arguments Build_arrival {node} _ _ _ _.

(** An answer without a rule, and one with a simple selector. *)
Definition emptyAnswer (t : Z) : arrival nat :=
  Build_arrival None t {| nodes := []; added := [] |} {| nodes := []; added := [] |}.

Definition simpleAnswer (t : Z) : arrival nat :=
  Build_arrival (Some {| simple := Some [JS.lit ".ad"]; complex := None; injected := None |})
    t {| nodes := []; added := [] |} {| nodes := []; added := [] |}.

(** After 255 answers without a rule in the first second, the next one
    shuts the surveyor down when it comes after five minutes, and not when
    it comes after four; after a fruitful answer the count starts again. *)
Example shutdown_after_256_misses :
  fst (surveyPhase3 nat (emptyAnswer 300000) (answered nat (repeat (emptyAnswer 1000) 255) (created 0)))
  = [TimerClear; RemoveListener; SurveyorNull] /\
  fst (surveyPhase3 nat (emptyAnswer 240000) (answered nat (repeat (emptyAnswer 1000) 255) (created 0)))
  = [] /\
  fst (surveyPhase3 nat (emptyAnswer 900000)
         (answered nat (repeat (emptyAnswer 1000) 255 ++ [simpleAnswer 2000]) (created 0)))
  = [] /\
  fst (surveyPhase3 nat (simpleAnswer 2000) (created 0)) = [AddSimple [JS.lit ".ad"]].
Proof. repeat split; vm_compute; reflexivity. Qed.

End Surveyor.

(** ** The collapser of blocked resources ([vAPI.domCollapser]) *)

Module Collapser.

Import JS.

(** An element as [onProcessed] reads and writes it.  [property] holds the
    properties that name a resource ([src], [data], [srcset]) when they are
    strings, [attribute] is [getAttribute], [style] maps a property name of
    the element's inline style to its value and priority, [hidden] is the
    [hidden] property, [parentNode] is the place of the element in the
    document tree.  The document object model reflects the inline style in
    the attribute [style] and the [hidden] property in the attribute
    [hidden]: a write to either changes what [getAttribute] returns for
    that name. *)
Record element := {
  localName : str;
  property : str -> option str;
  attribute : str -> option str;
  parentNode : option nat;
  style : str -> option (str * str);
  hidden : bool
}.

Record response := {
  id : Z;
  hash : Z;
  blockedResources : list str;
  netSelectorCacheCountMax : option Z
}.

(** The variables of the module and the document.  Elements are held by
    reference: [document] maps a reference to the element, and the target
    lists of [toCollapse] hold references. *)
Record state := {
  document : nat -> element;
  toCollapse : list (Z * list nat);
  cachedBlockedSet : option (list str);
  cachedBlockedSetHash : option Z;
  cachedBlockedSetTimer : bool;
  netSelectorCacheCount : Z;
  sent : list (list str);
  patched : list nat
}.

Definition src1stProps (tag : str) : option str :=
  if eqb tag (lit "embed") then Some (lit "src")
  else if eqb tag (lit "iframe") then Some (lit "src")
  else if eqb tag (lit "img") then Some (lit "src")
  else if eqb tag (lit "object") then Some (lit "data")
  else None.

Definition src2ndProps (tag : str) : option str :=
  if eqb tag (lit "img") then Some (lit "srcset") else None.

Definition tagToTypeMap (tag : str) : option str :=
  if eqb tag (lit "embed") then Some (lit "object")
  else if eqb tag (lit "iframe") then Some (lit "sub_frame")
  else if eqb tag (lit "img") then Some (lit "image")
  else if eqb tag (lit "object") then Some (lit "object")
  else None.

(** [toCollapse.get(id)] and [toCollapse.delete(id)] *)
Fixpoint mapGet (k : Z) (m : list (Z * list nat)) : option (list nat) :=
  match m with
  | [] => None
  | (k', v) :: m' => if k' =? k then Some v else mapGet k m'
  end.

Definition mapDelete (k : Z) (m : list (Z * list nat)) : list (Z * list nat) :=
  filter (fun kv => negb (fst kv =? k)) m.

Definition setHas (x : str) (l : list str) : bool := existsb (eqb x) l.

(** The resource that the element names: the first property when it is a
    string that is not empty, the second one otherwise. *)
Definition resourceOf (e : element) : option (str * str) :=
  match src1stProps (localName e) with
  | None => None
  | Some prop =>
      match property e prop with
      | Some (c :: src) => Some (prop, c :: src)
      | _ =>
          match src2ndProps (localName e) with
          | None => None
          | Some prop2 =>
              match property e prop2 with
              | Some (c :: src) => Some (prop2, c :: src)
              | _ => None
              end
          end
      end
  end.

(** The element is confirmed as blocked: its resource is in the set that
    the background process returned. *)
Definition confirmedBlocked (blocked : list str) (e : element) : option str :=
  match resourceOf e, tagToTypeMap (localName e) with
  | Some (prop, src), Some type =>
      if setHas (type ++ lit " " ++ src) blocked then Some prop else None
  | _, _ => None
  end.

Definition setElement (d : nat -> element) (r : nat) (e : element) : nat -> element :=
  fun r' => if Nat.eqb r' r then e else d r'.

(** The text that the host gives the attribute [style] of an element for
    the declarations of its inline style. *)
Definition serializer : Type := (str -> option (str * str)) -> str.

Section Patch.

Variable cssText : serializer.

(** Whether the platform defines [vAPI.iframeLoadEventPatch]; its calls are
    recorded in [patched]. *)
Variable iframeLoadEventPatch : bool.

(** [target.style.setProperty('display', 'none', 'important')] followed by
    [target.hidden = true].  The first sets the declaration and, with it,
    the attribute [style] to the text of the new declarations; the second
    sets the property and, with it, the attribute [hidden] to the empty
    string. *)
Definition hide (e : element) : element :=
  let style' := fun name =>
                  if eqb name (lit "display")
                  then Some (lit "none", lit "important")
                  else style e name in
  {| localName := localName e;
     property := property e;
     attribute := fun a =>
                    if eqb a (lit "style") then Some (cssText style')
                    else if eqb a (lit "hidden") then Some []
                    else attribute e a;
     parentNode := parentNode e;
     style := style';
     hidden := true |}.

(** One turn of the loop over the targets: the document, the selectors
    collected so far, the count of cached selectors and the patch calls. *)
Definition collapseTarget (blocked : list str) (countMax : option Z)
    (acc : (nat -> element) * list str * Z * list nat) (target : nat)
  : (nat -> element) * list str * Z * list nat :=
  let '(d, selectors, count, calls) := acc in
  let e := d target in
  match confirmedBlocked blocked e with
  | None => acc
  | Some prop =>
      let d' := setElement d target (hide e) in
      let '(selectors', count') :=
        if match countMax with Some m => count <=? m | None => false end
        then match attribute (hide e) prop with
             | Some (c :: value) =>
                 (selectors ++
                    [localName e ++ lit "[" ++ prop ++ lit "=" ++ [34] ++
                     (c :: value) ++ [34] ++ lit "]"],
                  count + 1)
             | _ => (selectors, count)
             end
        else (selectors, count) in
      (d', selectors', count',
       if iframeLoadEventPatch then calls ++ [target] else calls)
  end.

Definition onProcessed (resp : option response) (s : state) : state :=
  match resp with
  | None =>
      {| document := document s; toCollapse := [];
         cachedBlockedSet := cachedBlockedSet s;
         cachedBlockedSetHash := cachedBlockedSetHash s;
         cachedBlockedSetTimer := cachedBlockedSetTimer s;
         netSelectorCacheCount := netSelectorCacheCount s;
         sent := sent s; patched := patched s |}
  | Some r =>
      match mapGet (id r) (toCollapse s) with
      | None => s
      | Some targets =>
          let fresh :=
            match cachedBlockedSetHash s with
            | Some h => negb (h =? hash r)
            | None => true
            end in
          let set := if fresh then Some (blockedResources r) else cachedBlockedSet s in
          let hsh := if fresh then Some (hash r) else cachedBlockedSetHash s in
          let timer := if fresh then true else cachedBlockedSetTimer s in
          let blocked := match set with Some l => l | None => [] end in
          let '(d, selectors, count, calls) :=
            match blocked with
            | [] => (document s, [], netSelectorCacheCount s, patched s)
            | _ :: _ =>
                fold_left (collapseTarget blocked (netSelectorCacheCountMax r))
                  targets (document s, [], netSelectorCacheCount s, patched s)
            end in
          {| document := d;
             toCollapse := mapDelete (id r) (toCollapse s);
             cachedBlockedSet := set;
             cachedBlockedSetHash := hsh;
             cachedBlockedSetTimer := timer;
             netSelectorCacheCount := count;
             sent := match selectors with
                     | [] => sent s
                     | _ :: _ => sent s ++ [selectors]
                     end;
             patched := calls |}
      end
  end.

(** What [onProcessed] may change of an element: the [display] declaration
    of its inline style and its [hidden] property, with the attributes
    [style] and [hidden] that reflect them, and these only towards hiding. *)
Definition onlyHidden (e e' : element) : Prop :=
  localName e' = localName e /\
  property e' = property e /\
  (forall a, a <> lit "style" -> a <> lit "hidden" ->
             attribute e' a = attribute e a) /\
  parentNode e' = parentNode e /\
  (forall name, name <> lit "display" -> style e' name = style e name) /\
  (e' = e \/ (style e' (lit "display") = Some (lit "none", lit "important")
              /\ hidden e' = true
              /\ attribute e' (lit "style") = Some (cssText (style e'))
              /\ attribute e' (lit "hidden") = Some [])).

Lemma onlyHidden_refl (e : element) : onlyHidden e e.
Proof. unfold onlyHidden; intuition. Qed.

Lemma onlyHidden_hide (e : element) : onlyHidden e (hide e).
Proof.
  unfold onlyHidden, hide; cbn [localName property attribute parentNode style hidden].
  split; [reflexivity|]. split; [reflexivity|]. split.
  { intros a Hs Hh. apply eqb_neq in Hs, Hh. rewrite Hs, Hh. reflexivity. }
  split; [reflexivity|]. split.
  - intros name Hn. apply eqb_neq in Hn. rewrite Hn. reflexivity.
  - right. rewrite eqb_refl. repeat split; reflexivity.
Qed.

Lemma onlyHidden_trans (a b c : element) :
  onlyHidden a b -> onlyHidden b c -> onlyHidden a c.
Proof.
  intros (L1 & P1 & A1 & N1 & S1 & H1) (L2 & P2 & A2 & N2 & S2 & H2).
  unfold onlyHidden.
  split; [congruence|]. split; [congruence|]. split.
  { intros x Hs Hh. rewrite A2, A1 by assumption. reflexivity. }
  split; [congruence|]. split.
  - intros name Hn. rewrite S2, S1 by assumption. reflexivity.
  - destruct H2 as [-> | H2]; [assumption | right; assumption].
Qed.

Lemma collapseTarget_frame blocked countMax acc target r :
  onlyHidden (fst (fst (fst acc)) r)
             (fst (fst (fst (collapseTarget blocked countMax acc target))) r).
Proof.
  destruct acc as [[[d selectors] count] calls]. unfold collapseTarget.
  destruct (confirmedBlocked blocked (d target)) as [prop|]; [|apply onlyHidden_refl].
  destruct (if match countMax with Some m => count <=? m | None => false end
            then _ else _) as [selectors' count'].
  cbn [fst]. unfold setElement.
  destruct (Nat.eqb r target) eqn:E.
  - apply Nat.eqb_eq in E; subst. apply onlyHidden_hide.
  - apply onlyHidden_refl.
Qed.

Lemma collapseTargets_frame blocked countMax targets acc r :
  onlyHidden (fst (fst (fst acc)) r)
             (fst (fst (fst (fold_left (collapseTarget blocked countMax) targets acc))) r).
Proof.
  revert acc; induction targets as [|t targets IH]; intros acc; simpl.
  - apply onlyHidden_refl.
  - eapply onlyHidden_trans; [apply collapseTarget_frame | apply IH].
Qed.

(** A confirmed element stays confirmed when it is hidden: [hide] leaves
    what [confirmedBlocked] reads. *)
Lemma confirmedBlocked_onlyHidden blocked e e' :
  onlyHidden e e' -> confirmedBlocked blocked e' = confirmedBlocked blocked e.
Proof.
  intros (L & P & _). unfold confirmedBlocked, resourceOf. rewrite L, P. reflexivity.
Qed.

Definition isHidden (e : element) : Prop :=
  style e (lit "display") = Some (lit "none", lit "important") /\ hidden e = true /\
  attribute e (lit "style") = Some (cssText (style e)) /\
  attribute e (lit "hidden") = Some [].

Lemma isHidden_onlyHidden e e' : onlyHidden e e' -> isHidden e -> isHidden e'.
Proof.
  intros (_ & _ & _ & _ & _ & [-> | H]) He; [assumption | exact H].
Qed.

Lemma collapseTarget_hides blocked countMax acc target :
  confirmedBlocked blocked (fst (fst (fst acc)) target) <> None ->
  isHidden (fst (fst (fst (collapseTarget blocked countMax acc target))) target).
Proof.
  destruct acc as [[[d selectors] count] calls]. unfold collapseTarget. cbn [fst].
  destruct (confirmedBlocked blocked (d target)) as [prop|]; [|congruence].
  intros _.
  destruct (if match countMax with Some m => count <=? m | None => false end
            then _ else _) as [selectors' count'].
  cbn [fst]. unfold setElement. rewrite Nat.eqb_refl. repeat split; reflexivity.
Qed.

Lemma collapseTargets_hide blocked countMax targets acc target :
  In target targets ->
  confirmedBlocked blocked (fst (fst (fst acc)) target) <> None ->
  isHidden (fst (fst (fst (fold_left (collapseTarget blocked countMax) targets acc))) target).
Proof.
  revert acc; induction targets as [|t targets IH]; intros acc Hin Hc; [contradiction|].
  simpl. destruct Hin as [-> | Hin].
  - eapply isHidden_onlyHidden; [apply collapseTargets_frame|].
    apply collapseTarget_hides; assumption.
  - apply IH; [assumption|].
    rewrite (confirmedBlocked_onlyHidden _ _ _ (collapseTarget_frame _ _ _ _ _)).
    assumption.
Qed.

(** C9: [onProcessed] leaves every element of the document with its name,
    its resource properties, its parent node (it stays where it is in the
    tree), every attribute other than [style] and [hidden] and every
    declaration of its inline style other than [display]; an element that
    changes at all ends with [display: none !important] in its inline
    style, with the [hidden] property set, and with the attributes [style]
    and [hidden] that reflect the two.  Every target of the answered
    request that is confirmed as blocked ends hidden in this way. *)
Theorem onProcessed_only_hides (resp : option response) (s : state) :
  (forall r, onlyHidden (document s r) (document (onProcessed resp s) r)) /\
  (forall r targets target,
      resp = Some r ->
      mapGet (id r) (toCollapse s) = Some targets ->
      In target targets ->
      confirmedBlocked
        (match cachedBlockedSet (onProcessed resp s) with Some l => l | None => [] end)
        (document s target) <> None ->
      isHidden (document (onProcessed resp s) target)).
Proof.
  split.
  - intros r. unfold onProcessed.
    destruct resp as [rs|]; [|apply onlyHidden_refl].
    destruct (mapGet (id rs) (toCollapse s)) as [targets|]; [|apply onlyHidden_refl].
    set (fresh := match cachedBlockedSetHash s with
                  | Some h => negb (h =? hash rs) | None => true end).
    set (set0 := if fresh then Some (blockedResources rs) else cachedBlockedSet s).
    destruct (match set0 with Some l => l | None => [] end) as [|b blocked] eqn:Eb.
    + apply onlyHidden_refl.
    + pose proof (collapseTargets_frame (b :: blocked) (netSelectorCacheCountMax rs)
                    targets (document s, [], netSelectorCacheCount s, patched s) r) as H.
      destruct (fold_left _ targets _) as [[[d selectors] count] calls].
      exact H.
  - intros r targets target -> Hget Hin. unfold onProcessed. rewrite Hget.
    set (fresh := match cachedBlockedSetHash s with
                  | Some h => negb (h =? hash r) | None => true end).
    set (set0 := if fresh then Some (blockedResources r) else cachedBlockedSet s).
    destruct (match set0 with Some l => l | None => [] end) as [|b blocked] eqn:Eb.
    + cbn [cachedBlockedSet document]. rewrite Eb.
      unfold confirmedBlocked.
      destruct (resourceOf (document s target)) as [[prop src]|]; [|congruence].
      destruct (tagToTypeMap (localName (document s target))); simpl; congruence.
    + pose proof (collapseTargets_hide (b :: blocked) (netSelectorCacheCountMax r)
                    targets (document s, [], netSelectorCacheCount s, patched s)
                    target Hin) as H.
      destruct (fold_left _ targets _) as [[[d selectors] count] calls].
      cbn [cachedBlockedSet document]. rewrite Eb. exact H.
Qed.

End Patch.

(** The text of an inline style that declares [display] alone. *)
Definition displayText : serializer :=
  fun declarations =>
    match declarations (lit "display") with
    | Some (value, priority) =>
        lit "display: " ++ value ++ lit " !" ++ priority ++ lit ";"
    | None => []
    end.

(** A document of two elements: an image of a blocked resource inside a
    division, and the request that asked about it. *)
Definition adImage : element :=
  {| localName := lit "img";
     property := fun p => if eqb p (lit "src") then Some (lit "http://ads.example/a.png") else None;
     attribute := fun a => if eqb a (lit "src") then Some (lit "//ads.example/a.png") else None;
     parentNode := Some 1%nat;
     style := fun _ => None;
     hidden := false |}.

Definition division : element :=
  {| localName := lit "div";
     property := fun _ => None;
     attribute := fun _ => None;
     parentNode := None;
     style := fun _ => None;
     hidden := false |}.

Definition pendingState : state :=
  {| document := fun r => if Nat.eqb r 0 then adImage else division;
     toCollapse := [(1, [0%nat])];
     cachedBlockedSet := None;
     cachedBlockedSetHash := None;
     cachedBlockedSetTimer := false;
     netSelectorCacheCount := 0;
     sent := [];
     patched := [] |}.

Definition blockedAnswer : response :=
  {| id := 1; hash := 7;
     blockedResources := [lit "image http://ads.example/a.png"];
     netSelectorCacheCountMax := Some 10 |}.

Lemma onProcessed_only_hides_witness :
  isHidden displayText
    (document (onProcessed displayText true (Some blockedAnswer) pendingState) 0%nat) /\
  onlyHidden displayText adImage
    (document (onProcessed displayText true (Some blockedAnswer) pendingState) 0%nat).
Proof.
  split.
  - apply (proj2 (onProcessed_only_hides displayText true (Some blockedAnswer) pendingState)
             blockedAnswer [0%nat] 0%nat).
    + reflexivity.
    + reflexivity.
    + left; reflexivity.
    + vm_compute. discriminate.
  - apply (proj1 (onProcessed_only_hides displayText true (Some blockedAnswer) pendingState)
             0%nat).
Defined.

(** What [getAttribute] returns for the hidden image: the text of the
    declaration for [style], the empty string for [hidden], and the address
    as the page wrote it for [src]. *)
Example onProcessed_sets_attributes :
  let e := document (onProcessed displayText true (Some blockedAnswer) pendingState) 0%nat in
  attribute adImage (lit "style") = None /\
  attribute adImage (lit "hidden") = None /\
  attribute e (lit "style") = Some (lit "display: none !important;") /\
  attribute e (lit "hidden") = Some [] /\
  attribute e (lit "src") = Some (lit "//ads.example/a.png").
Proof. vm_compute. repeat split; reflexivity. Qed.

Example onProcessed_sends_selector :
  sent (onProcessed displayText true (Some blockedAnswer) pendingState)
  = [[lit "img[src=" ++ [34] ++ lit "//ads.example/a.png" ++ [34] ++ lit "]"]].
Proof. vm_compute. reflexivity. Qed.

(** *** The pending requests and the count of the cached selectors *)

Lemma mapGet_mapDelete (k : Z) (m : list (Z * list nat)) :
  mapGet k (mapDelete k m) = None.
Proof.
  induction m as [|[k' v] m IH]; [reflexivity|].
  unfold mapDelete in *. cbn [filter fst].
  destruct (k' =? k) eqn:E; cbn [negb]; [exact IH|].
  cbn [mapGet]. rewrite E. exact IH.
Qed.

Lemma mapGet_mapDelete_other (k j : Z) (m : list (Z * list nat)) :
  j <> k -> mapGet j (mapDelete k m) = mapGet j m.
Proof.
  intros Hj. induction m as [|[k' v] m IH]; [reflexivity|].
  unfold mapDelete in *. cbn [filter fst].
  destruct (k' =? k) eqn:E; cbn [negb mapGet].
  - apply Z.eqb_eq in E. subst k'.
    replace (k =? j) with false by (symmetry; apply Z.eqb_neq; congruence).
    exact IH.
  - destruct (k' =? j); [reflexivity | exact IH].
Qed.

Lemma toCollapse_onProcessed (cssText : serializer) (patch : bool) (r : response) (s : state) :
  toCollapse (onProcessed cssText patch (Some r) s) =
  match mapGet (id r) (toCollapse s) with
  | None => toCollapse s
  | Some _ => mapDelete (id r) (toCollapse s)
  end.
Proof.
  unfold onProcessed. destruct (mapGet (id r) (toCollapse s)); [|reflexivity].
  destruct (match (if match cachedBlockedSetHash s with
                       | Some h => negb (h =? hash r) | None => true end
                    then Some (blockedResources r) else cachedBlockedSet s)
            with Some l0 => l0 | None => [] end) as [|b blocked].
  - reflexivity.
  - destruct (fold_left _ _ _) as [[[d selectors] count] calls]. reflexivity.
Qed.

(** A request is answered once: [onProcessed] takes the targets of the
    answered request out of [toCollapse] and leaves the other requests
    pending, so that the same answer, delivered again, changes nothing. *)
Theorem onProcessed_answers_once (cssText : serializer) (patch : bool) (r : response) (s : state) :
  mapGet (id r) (toCollapse (onProcessed cssText patch (Some r) s)) = None /\
  (forall j, j <> id r ->
     mapGet j (toCollapse (onProcessed cssText patch (Some r) s)) = mapGet j (toCollapse s)) /\
  onProcessed cssText patch (Some r) (onProcessed cssText patch (Some r) s)
  = onProcessed cssText patch (Some r) s.
Proof.
  assert (Hgone : mapGet (id r) (toCollapse (onProcessed cssText patch (Some r) s)) = None).
  { rewrite toCollapse_onProcessed.
    destruct (mapGet (id r) (toCollapse s)) eqn:E; [apply mapGet_mapDelete | exact E]. }
  split; [exact Hgone|]. split.
  - intros j Hj. rewrite toCollapse_onProcessed.
    destruct (mapGet (id r) (toCollapse s)); [|reflexivity].
    apply mapGet_mapDelete_other. assumption.
  - unfold onProcessed at 1. rewrite Hgone. reflexivity.
Qed.

(** One turn of the loop moves the count of the cached selectors up by one
    at most, and only while it is not above [netSelectorCacheCountMax]. *)
Lemma collapseTarget_count (cssText : serializer) (patch : bool) (blocked : list str) (max : Z)
    (acc : (nat -> element) * list str * Z * list nat) (target : nat) :
  let count := snd (fst acc) in
  let count' := snd (fst (collapseTarget cssText patch blocked (Some max) acc target)) in
  count <= count' <= Z.max count (max + 1).
Proof.
  destruct acc as [[[d selectors] count] calls]. unfold collapseTarget. cbn [fst snd].
  destruct (confirmedBlocked blocked (d target)) as [prop|]; cbn [fst snd]; [|lia].
  destruct (count <=? max) eqn:E.
  - apply Z.leb_le in E.
    destruct (attribute (hide cssText (d target)) prop) as [[|c value]|]; cbn [fst snd]; lia.
  - cbn [fst snd]. lia.
Qed.

Lemma collapseTargets_count (cssText : serializer) (patch : bool) (blocked : list str) (max : Z)
    (targets : list nat) :
  forall acc,
  let count := snd (fst acc) in
  let count' := snd (fst (fold_left (collapseTarget cssText patch blocked (Some max)) targets acc)) in
  count <= count' <= Z.max count (max + 1).
Proof.
  induction targets as [|t targets IH]; intros acc; cbn [fold_left]; [lia|].
  pose proof (collapseTarget_count cssText patch blocked max acc t) as H1.
  pose proof (IH (collapseTarget cssText patch blocked (Some max) acc t)) as H2.
  cbv zeta in *. lia.
Qed.

(** The count of the selectors that the collapser has sent to the cache
    never goes down, and an answer takes it no higher than one above its
    [netSelectorCacheCountMax]: the test is [count <= max], so that
    [max + 1] selectors are cached before the collapser stops. *)
Theorem onProcessed_cache_cap (cssText : serializer) (patch : bool) (r : response) (s : state) (max : Z) :
  netSelectorCacheCountMax r = Some max ->
  netSelectorCacheCount s <= netSelectorCacheCount (onProcessed cssText patch (Some r) s)
    <= Z.max (netSelectorCacheCount s) (max + 1).
Proof.
  intros Hmax. unfold onProcessed.
  destruct (mapGet (id r) (toCollapse s)) as [targets|]; [|lia].
  destruct (match (if match cachedBlockedSetHash s with
                       | Some h => negb (h =? hash r) | None => true end
                    then Some (blockedResources r) else cachedBlockedSet s)
            with Some l0 => l0 | None => [] end) as [|b blocked].
  - cbn [netSelectorCacheCount]. lia.
  - pose proof (collapseTargets_count cssText patch (b :: blocked) max targets
                  (document s, [], netSelectorCacheCount s, patched s)) as H.
    rewrite Hmax.
    destruct (fold_left _ targets _) as [[[d selectors] count] calls].
    cbn [fst snd netSelectorCacheCount] in *. exact H.
Qed.

Lemma onProcessed_cache_cap_witness :
  0 <= netSelectorCacheCount (onProcessed displayText true (Some blockedAnswer) pendingState)
    <= Z.max 0 (10 + 1).
Proof.
  apply (onProcessed_cache_cap displayText true blockedAnswer pendingState 10).
  reflexivity.
Defined.

(** With ten selectors cached and a maximum of ten, the collapser caches
    an eleventh. *)
Example cache_cap_reached :
  netSelectorCacheCount
    (onProcessed displayText true (Some blockedAnswer)
       {| document := document pendingState; toCollapse := toCollapse pendingState;
          cachedBlockedSet := None; cachedBlockedSetHash := None;
          cachedBlockedSetTimer := false; netSelectorCacheCount := 10;
          sent := []; patched := [] |}) = 11.
Proof. vm_compute. reflexivity. Qed.

(** *** The queue of the collapser ([add], [addIFrame], [process], [send]) *)

(** The variables of the module that the queue adds to those of
    [onProcessed], and what the queue calls outside: [requests] are the
    messages [getCollapsibleBlockedRequests] sent, each with its [id] and
    its [resources]; [observed] are the frames given to
    [iframeSourceObserver]; [primed] are the frames given to
    [primeLocalIFrame].  [resquestIdGenerator] counts in integers, as the
    numbers of the source do below 2^53. *)
Record queue := {
  collapser : state;
  resquestIdGenerator : Z;
  processTimer : bool;
  toProcess : list nat;
  toFilter : list (str * str);
  requests : list (Z * list (str * str));
  observed : list nat;
  primed : list nat
}.

Definition started (s : state) : queue :=
  {| collapser := s; resquestIdGenerator := 1; processTimer := false;
     toProcess := []; toFilter := []; requests := []; observed := []; primed := [] |}.

(** [toCollapse.set(id, targets)] *)
Fixpoint mapSet (k : Z) (v : list nat) (m : list (Z * list nat)) : list (Z * list nat) :=
  match m with
  | [] => [(k, v)]
  | (k', v') :: m' => if k' =? k then (k, v) :: m' else (k', v') :: mapSet k v m'
  end.

Definition withToCollapse (m : list (Z * list nat)) (s : state) : state :=
  {| document := document s; toCollapse := m;
     cachedBlockedSet := cachedBlockedSet s;
     cachedBlockedSetHash := cachedBlockedSetHash s;
     cachedBlockedSetTimer := cachedBlockedSetTimer s;
     netSelectorCacheCount := netSelectorCacheCount s;
     sent := sent s; patched := patched s |}.

Definition send (q : queue) : queue :=
  {| collapser := withToCollapse
                    (mapSet (resquestIdGenerator q) (toProcess q) (toCollapse (collapser q)))
                    (collapser q);
     resquestIdGenerator := resquestIdGenerator q + 1;
     processTimer := false;
     toProcess := [];
     toFilter := [];
     requests := requests q ++ [(resquestIdGenerator q, toFilter q)];
     observed := observed q; primed := primed q |}.

(** [process(delay)]; [None] is the call without a delay. *)
Definition process (delay : option Z) (q : queue) : queue :=
  match toProcess q with
  | [] => q
  | _ :: _ =>
      match delay with
      | Some 0 => send q
      | _ =>
          if processTimer q then q
          else {| collapser := collapser q;
                  resquestIdGenerator := resquestIdGenerator q;
                  processTimer := true;
                  toProcess := toProcess q; toFilter := toFilter q;
                  requests := requests q; observed := observed q; primed := primed q |}
      end
  end.

Definition add (target : nat) (q : queue) : queue :=
  {| collapser := collapser q; resquestIdGenerator := resquestIdGenerator q;
     processTimer := processTimer q;
     toProcess := toProcess q ++ [target]; toFilter := toFilter q;
     requests := requests q; observed := observed q; primed := primed q |}.

(** [addIFrame(iframe, dontObserve)]; [injectedScripts] is whether
    [vAPI.injectedScripts] is set. *)
Definition addIFrame (injectedScripts : bool) (iframe : nat) (dontObserve : bool)
    (q : queue) : queue :=
  let q1 :=
    if dontObserve then q
    else {| collapser := collapser q; resquestIdGenerator := resquestIdGenerator q;
            processTimer := processTimer q;
            toProcess := toProcess q; toFilter := toFilter q;
            requests := requests q; observed := observed q ++ [iframe];
            primed := primed q |} in
  match property (document (collapser q) iframe) (lit "src") with
  | Some (c :: src) =>
      if startsWith (lit "http") (c :: src)
      then add iframe
             {| collapser := collapser q1; resquestIdGenerator := resquestIdGenerator q1;
                processTimer := processTimer q1;
                toProcess := toProcess q1;
                toFilter := toFilter q1 ++ [(lit "sub_frame", c :: src)];
                requests := requests q1; observed := observed q1; primed := primed q1 |}
      else q1
  | _ =>
      if injectedScripts
      then {| collapser := collapser q1; resquestIdGenerator := resquestIdGenerator q1;
              processTimer := processTimer q1;
              toProcess := toProcess q1; toFilter := toFilter q1;
              requests := requests q1; observed := observed q1;
              primed := primed q1 ++ [iframe] |}
      else q1
  end.

Definition onResourceFailed (target : nat) (q : queue) : queue :=
  match tagToTypeMap (localName (document (collapser q) target)) with
  | Some _ => process None (add target q)
  | None => q
  end.

(** What happens to the collapser: its interface is called, an element
    fails to load, the timer of [process] fires, or the answer to a request
    arrives.  The timer fires while it is set. *)
Inductive happening :=
| Add (target : nat)
| AddIFrame (iframe : nat) (dontObserve : bool)
| Process (delay : option Z)
| ResourceFailed (target : nat)
| ProcessTimerFires
| Answer (resp : option response).

Section Happenings.

Variable cssText : serializer.
Variable iframeLoadEventPatch : bool.
Variable injectedScripts : bool.

Definition happen (h : happening) (q : queue) : queue :=
  match h with
  | Add target => add target q
  | AddIFrame iframe dontObserve => addIFrame injectedScripts iframe dontObserve q
  | Process delay => process delay q
  | ResourceFailed target => onResourceFailed target q
  | ProcessTimerFires => if processTimer q then send q else q
  | Answer resp =>
      {| collapser := onProcessed cssText iframeLoadEventPatch resp (collapser q);
         resquestIdGenerator := resquestIdGenerator q;
         processTimer := processTimer q;
         toProcess := toProcess q; toFilter := toFilter q;
         requests := requests q; observed := observed q; primed := primed q |}
  end.

Definition happenAll (hs : list happening) (q : queue) : queue :=
  fold_left (fun q h => happen h q) hs q.

(** The requests that wait for their answer have identifiers of their
    own, all below the next one. *)
Definition distinctRequests (q : queue) : Prop :=
  NoDup (map fst (toCollapse (collapser q))) /\
  forall k, In k (map fst (toCollapse (collapser q))) -> k < resquestIdGenerator q.

Lemma mapSet_new (k : Z) (v : list nat) (m : list (Z * list nat)) :
  ~ In k (map fst m) -> mapSet k v m = m ++ [(k, v)].
Proof.
  induction m as [|[k' v'] m IH]; cbn [mapSet map fst In app]; [reflexivity|].
  intros H. destruct (k' =? k) eqn:E.
  - apply Z.eqb_eq in E. exfalso. apply H. left. exact E.
  - rewrite IH; [reflexivity|]. intros Hin. apply H. right. exact Hin.
Qed.

Lemma mapDelete_keys (k j : Z) (m : list (Z * list nat)) :
  In j (map fst (mapDelete k m)) -> In j (map fst m).
Proof.
  unfold mapDelete. intros H. apply in_map_iff in H as (kv & E & Hin).
  apply filter_In in Hin as [Hin _]. apply in_map_iff. exists kv. auto.
Qed.

Lemma mapDelete_NoDup (k : Z) (m : list (Z * list nat)) :
  NoDup (map fst m) -> NoDup (map fst (mapDelete k m)).
Proof.
  induction m as [|[k' v'] m IH]; cbn [map fst]; intros H; [constructor|].
  inversion H; subst. unfold mapDelete in *. cbn [filter fst].
  destruct (negb (k' =? k)); [|apply IH; assumption].
  cbn [map fst]. constructor; [|apply IH; assumption].
  intros Hin. apply (mapDelete_keys k) in Hin. contradiction.
Qed.

Lemma send_distinct (q : queue) : distinctRequests q -> distinctRequests (send q).
Proof.
  intros [Hd Hlt]. unfold distinctRequests, send. cbn [collapser withToCollapse toCollapse
    resquestIdGenerator].
  assert (Hnew : ~ In (resquestIdGenerator q) (map fst (toCollapse (collapser q)))).
  { intros Hin. apply Hlt in Hin. lia. }
  rewrite (mapSet_new _ _ _ Hnew), map_app. cbn [map fst]. split.
  - rewrite <- (rev_involutive (_ ++ _)). apply NoDup_rev. rewrite rev_app_distr.
    cbn [rev app]. constructor; [|apply NoDup_rev; exact Hd].
    rewrite <- in_rev. exact Hnew.
  - intros k Hk. apply in_app_or in Hk as [Hk | [<- | []]]; [apply Hlt in Hk|]; lia.
Qed.

Lemma happen_distinct (h : happening) (q : queue) :
  distinctRequests q -> distinctRequests (happen h q).
Proof.
  intros H. destruct h; cbn [happen].
  - exact H.
  - unfold addIFrame.
    destruct (property (document (collapser q) iframe) (lit "src")) as [[|c src]|];
      try (destruct injectedScripts; destruct dontObserve; exact H).
    destruct (startsWith (lit "http") (c :: src)); destruct dontObserve; exact H.
  - unfold process. destruct (toProcess q); [exact H|].
    destruct delay as [[| |]|]; try (destruct (processTimer q); exact H).
    apply send_distinct. exact H.
  - unfold onResourceFailed.
    destruct (tagToTypeMap _); [|exact H].
    unfold process, add. cbn [toProcess processTimer].
    destruct (toProcess q ++ [target]); [exact H|].
    destruct (processTimer q); exact H.
  - destruct (processTimer q); [apply send_distinct|]; exact H.
  - destruct H as [Hd Hlt]. unfold distinctRequests. cbn [collapser resquestIdGenerator].
    destruct resp as [r|].
    + rewrite toCollapse_onProcessed.
      destruct (mapGet (id r) (toCollapse (collapser q))); [|split; assumption].
      split; [apply mapDelete_NoDup; exact Hd|].
      intros k Hk. apply Hlt. apply (mapDelete_keys (id r)). exact Hk.
    + cbn. split; [constructor | intros k []].
Qed.

(** Whatever happens to the collapser, the requests that wait for their
    answer have distinct identifiers and the next identifier is new: [send]
    never replaces the targets of a request that still waits, so that an
    answer finds the targets of its own request. *)
Theorem requests_are_distinct (hs : list happening) (s : state) :
  toCollapse s = [] ->
  let q := happenAll hs (started s) in
  NoDup (map fst (toCollapse (collapser q))) /\
  mapGet (resquestIdGenerator q) (toCollapse (collapser q)) = None /\
  mapGet (resquestIdGenerator q) (toCollapse (collapser (send q))) = Some (toProcess q).
Proof.
  intros Hs. cbv zeta.
  assert (H : forall q, distinctRequests q -> distinctRequests (happenAll hs q)).
  { unfold happenAll. induction hs as [|h hs IH]; intros q Hq; cbn [fold_left]; [exact Hq|].
    apply IH. apply happen_distinct. exact Hq. }
  assert (H0 : distinctRequests (started s)).
  { unfold distinctRequests, started. cbn [collapser]. rewrite Hs.
    split; [constructor | intros k []]. }
  destruct (H _ H0) as [Hd Hlt].
  set (q := happenAll hs (started s)) in *.
  assert (Hnew : ~ In (resquestIdGenerator q) (map fst (toCollapse (collapser q)))).
  { intros Hin. apply Hlt in Hin. lia. }
  assert (Hget : forall m, ~ In (resquestIdGenerator q) (map fst m) ->
                 mapGet (resquestIdGenerator q) m = None /\
                 mapGet (resquestIdGenerator q) (m ++ [(resquestIdGenerator q, toProcess q)])
                 = Some (toProcess q)).
  { induction m as [|[k v] m IH]; cbn [map fst In mapGet app]; intros Hm.
    - rewrite Z.eqb_refl. auto.
    - destruct (k =? resquestIdGenerator q) eqn:E.
      + apply Z.eqb_eq in E. exfalso. apply Hm. left. exact E.
      + apply IH. intros Hin. apply Hm. right. exact Hin. }
  destruct (Hget _ Hnew) as [Hg1 Hg2].
  split; [exact Hd|]. split; [exact Hg1|].
  unfold send. cbn [collapser withToCollapse toCollapse].
  rewrite (mapSet_new _ _ _ Hnew). exact Hg2.
Qed.

End Happenings.

Lemma requests_are_distinct_witness :
  NoDup (map fst (toCollapse (collapser
           (happenAll displayText true false [Add 0; Process (Some 0); Add 0; Process None; ProcessTimerFires]
              (started {| document := document pendingState; toCollapse := [];
                          cachedBlockedSet := None; cachedBlockedSetHash := None;
                          cachedBlockedSetTimer := false; netSelectorCacheCount := 0;
                          sent := []; patched := [] |}))))) /\
  map fst (toCollapse (collapser
           (happenAll displayText true false [Add 0; Process (Some 0); Add 0; Process None; ProcessTimerFires]
              (started {| document := document pendingState; toCollapse := [];
                          cachedBlockedSet := None; cachedBlockedSetHash := None;
                          cachedBlockedSetTimer := false; netSelectorCacheCount := 0;
                          sent := []; patched := [] |})))) = [1; 2].
Proof.
  split.
  - apply (requests_are_distinct displayText true false
             [Add 0; Process (Some 0); Add 0; Process None; ProcessTimerFires]
             {| document := document pendingState; toCollapse := [];
                cachedBlockedSet := None; cachedBlockedSetHash := None;
                cachedBlockedSetTimer := false; netSelectorCacheCount := 0;
                sent := []; patched := [] |} eq_refl).
  - vm_compute. reflexivity.
Defined.

End Collapser.

(** ** Procedural filtering in the content script ([vAPI.DOMFilterer]) *)

Module Procedural.

Import JS.

(** A call either returns or throws. *)
Inductive result (A : Type) :=
| Returned (a : A)
| Thrown.

Arguments Returned {A} a.
Arguments Thrown {A}.

Definition bind {A B : Type} (r : result A) (k : A -> result B) : result B :=
  match r with
  | Returned a => k a
  | Thrown => Thrown
  end.

(** [String(n)] for a count. *)
Definition decimal (n : nat) : str :=
  lit (DecimalString.NilZero.string_of_uint (Nat.to_uint n)).

(** The task objects of a [PSelector].  [IfTask] is [PSelectorIfTask] with
    its [target] ([true]) and [PSelectorIfNotTask] ([false]); it holds the
    selector and the tasks of its nested [PSelector].  [MatchesCSSTask]
    holds its [pseudo].  [SpathTask] holds [spath] and [nth] as the
    constructor leaves them. *)
Inductive task :=
| HasTextTask (needle : str) (flags : option str)
| IfTask (target : bool) (selector : str) (tasks : list task)
| MatchesCSSTask (pseudo : option str) (name : str) (value : str) (flags : option str)
| MinTextLengthTask (min : Z)
| Passthru
| SpathTask (spath : str) (nth : bool)
| UpwardTask (i : Z) (s : str)
| WatchAttrs (attrs : list str)
| XpathTask (xpe : str).

Record pselector := {
  budget : Z;
  raw : str;
  cost : Z;
  lastAllowanceTime : Z;
  selector : str;
  tasks : list task;
  action : option str;
  hit : bool
}.

(** The state of a [DOMProceduralFilterer] over nodes [N].  [selectors] is
    the map of the descriptors in insertion order, the order of
    [selectors.values()]; [hiddenNodes] is the set of the hidden nodes in
    insertion order. *)
Record DOMProceduralFilterer (N : Type) := {
  domIsReady : bool;
  domIsWatched : bool;
  mustApplySelectors : bool;
  selectors : list pselector;
  hiddenNodes : list N
}.

Arguments domIsReady {N} _.
Arguments domIsWatched {N} _.
Arguments mustApplySelectors {N} _.
Arguments selectors {N} _.
Arguments hiddenNodes {N} _.

(** What a pass does to the outside, in order: [Exec k] is the call of
    [exec] on the descriptor at place [k] of the map, [Disabling k] is the
    [console.info] of its disabling, the others are the calls of
    [hideNode], [unhideNode] and [node.remove()]. *)
Inductive passEvent (N : Type) :=
| Exec (k : nat)
| Disabling (k : nat)
| HideNode (n : N)
| UnhideNode (n : N)
| RemoveNode (n : N).

Arguments Exec {N} k.
Arguments Disabling {N} k.
Arguments HideNode {N} n.
Arguments UnhideNode {N} n.
Arguments RemoveNode {N} n.

(** The host: the nodes, the states [W] of the document and of the clock,
    and the calls of the DOM that the tasks make.  A call that may throw
    returns a [result].  [elementIndex w n] is the number of element
    siblings before [n], which the loop of [PSelectorSpathTask.qsa] counts.
    [hideNode] and [unhideNode] are those of the platform's
    [DOMFiltererBase]. *)
Class Host := {
  node : Type;
  node_eq_dec : forall a b : node, {a = b} + {a <> b};
  W : Type;
  document : node;
  querySelectorAll : W -> node -> str -> result (list node);
  textContent : W -> node -> option str;
  regExpTest : str -> option str -> str -> bool;
  getComputedStyle : W -> node -> option str -> result (option (str -> option str));
  parentElement : W -> node -> option node;
  elementIndex : W -> node -> nat;
  closest : W -> node -> str -> result (option node);
  xpathEvaluate : W -> str -> node -> result (list node);
  nodeType : W -> node -> Z;
  dateNow : W -> Z * W;
  removeNode : node -> W -> W;
  hideNode : node -> W -> W;
  unhideNode : node -> W -> W
}.

Section Host.

Context {host : Host}.

(** *** The task pipeline ([PSelector]) *)

Section Pipeline.

Variable w : W.

(** [String(v)] of what a regular expression is asked to test. *)
Definition stringOf (v : option str) (missing : str) : str :=
  match v with Some s => s | None => missing end.

(** The ancestor [k] levels up, as the loop of [PSelectorUpwardTask]
    reaches it. *)
Fixpoint ancestor (k : nat) (n : node) : option node :=
  match k with
  | O => Some n
  | S k' => match parentElement w n with
            | Some p => ancestor k' p
            | None => None
            end
  end.

(** [PSelector.prototype.prime] *)
Definition prime (selector : str) (input : option node) : result (list node) :=
  let root := match input with Some n => n | None => document end in
  match selector with
  | [] => Returned [root]
  | _ :: _ => querySelectorAll w root selector
  end.

Section Chain.

Variable transpose : task -> node -> result (list node).

(** [for ( let node of nodes ) { task.transpose(node, transposed); }] *)
Fixpoint transposeEach (t : task) (nodes : list node) : result (list node) :=
  match nodes with
  | [] => Returned []
  | n :: ns =>
      bind (transpose t n) (fun out =>
      bind (transposeEach t ns) (fun outs => Returned (out ++ outs)))
  end.

(** The loop over the tasks of [exec]. *)
Fixpoint execTasks (ts : list task) (nodes : list node) : result (list node) :=
  match ts with
  | [] => Returned nodes
  | t :: ts' =>
      match nodes with
      | [] => Returned nodes
      | _ :: _ => bind (transposeEach t nodes) (execTasks ts')
      end
  end.

(** The loop over the tasks of [test], for one node of [prime]. *)
Fixpoint testTasks (ts : list task) (output : list node) : result (list node) :=
  match ts with
  | [] => Returned output
  | t :: ts' =>
      bind (transposeEach t output) (fun transposed =>
      match transposed with
      | [] => Returned []
      | _ :: _ => testTasks ts' transposed
      end)
  end.

(** The loop over the nodes of [test]. *)
Fixpoint testNodes (ts : list task) (nodes : list node) : result bool :=
  match nodes with
  | [] => Returned false
  | n :: ns =>
      bind (testTasks ts [n]) (fun output =>
      match output with
      | [] => testNodes ts ns
      | _ :: _ => Returned true
      end)
  end.

Definition testWith (selector : str) (ts : list task) (input : option node) : result bool :=
  bind (prime selector input) (testNodes ts).

Definition execWith (selector : str) (ts : list task) (input : option node)
  : result (list node) :=
  bind (prime selector input) (execTasks ts).

End Chain.

(** [task.transpose(node, output)]: the nodes that the task pushes.  The
    observer that [PSelectorWatchAttrs] registers on the node calls
    [onDOMChanged] later and pushes nothing. *)
Fixpoint transpose (t : task) (n : node) : result (list node) :=
  match t with
  | HasTextTask needle flags =>
      Returned (if regExpTest needle flags (stringOf (textContent w n) (lit "null"))
                then [n] else [])
  | IfTask target selector ts =>
      bind (testWith transpose selector ts (Some n)) (fun found =>
      Returned (if Bool.eqb found target then [n] else []))
  | MatchesCSSTask pseudo name value flags =>
      bind (getComputedStyle w n pseudo) (fun style =>
      Returned (match style with
                | Some st =>
                    if regExpTest value flags (stringOf (st name) (lit "undefined"))
                    then [n] else []
                | None => []
                end))
  | MinTextLengthTask min =>
      match textContent w n with
      | Some text => Returned (if min <=? Z.of_nat (length text) then [n] else [])
      | None => Thrown
      end
  | Passthru => Returned [n]
  | SpathTask spath nth =>
      if nth then
        match parentElement w n with
        | None => Returned []
        | Some parent =>
            querySelectorAll w parent
              (lit ":scope > :nth-child(" ++ decimal (S (elementIndex w n)) ++ lit ")"
                 ++ spath)
        end
      else querySelectorAll w n spath
  | UpwardTask i s =>
      match s with
      | _ :: _ =>
          match parentElement w n with
          | None => Returned []
          | Some parent =>
              bind (closest w parent s) (fun found =>
              Returned (match found with Some a => [a] | None => [] end))
          end
      | [] =>
          if i <=? 0 then Returned []
          else Returned (match ancestor (Z.to_nat i) n with
                         | Some a => [a]
                         | None => []
                         end)
      end
  | WatchAttrs _ => Returned [n]
  | XpathTask xpe =>
      bind (xpathEvaluate w xpe n) (fun snapshot =>
      Returned (filter (fun m => nodeType w m =? 1) (rev snapshot)))
  end.

(** [PSelector.prototype.exec] and [PSelector.prototype.test] *)
Definition exec (selector : str) (ts : list task) (input : option node)
  : result (list node) :=
  execWith transpose selector ts input.

Definition test (selector : str) (ts : list task) (input : option node) : result bool :=
  testWith transpose selector ts input.

(** The tasks that push their own node or nothing. *)
Definition keepsOrDrops (t : task) : bool :=
  match t with
  | HasTextTask _ _ | IfTask _ _ _ | MatchesCSSTask _ _ _ _
  | MinTextLengthTask _ | Passthru | WatchAttrs _ => true
  | SpathTask _ _ | UpwardTask _ _ | XpathTask _ => false
  end.

(** A task of [keepsOrDrops] pushes its node or nothing. *)
Lemma transpose_keepsOrDrops (t : task) (n : node) (out : list node) :
  keepsOrDrops t = true ->
  transpose t n = Returned out ->
  out = [n] \/ out = [].
Proof.
  destruct t; cbn [keepsOrDrops transpose]; intros Hk H; try discriminate.
  - destruct (regExpTest _ _ _); inversion H; auto.
  - destruct (testWith transpose selector0 tasks0 (Some n)) as [found|];
      cbn [bind] in H; [|discriminate].
    destruct (Bool.eqb found target); inversion H; auto.
  - destruct (getComputedStyle w n pseudo) as [[st|]|]; cbn [bind] in H;
      try discriminate; [|inversion H; auto].
    destruct (regExpTest _ _ _); inversion H; auto.
  - destruct (textContent w n); [|discriminate].
    destruct (min <=? _); inversion H; auto.
  - inversion H; auto.
  - inversion H; auto.
Qed.

Lemma transposeEach_keepsOrDrops (t : task) (nodes out : list node) :
  keepsOrDrops t = true ->
  transposeEach transpose t nodes = Returned out ->
  incl out nodes.
Proof.
  intros Hk. revert out; induction nodes as [|n ns IH]; intros out H.
  - inversion H. apply incl_refl.
  - cbn [transposeEach] in H.
    destruct (transpose t n) as [o|] eqn:Ho; cbn [bind] in H; [|discriminate].
    destruct (transposeEach transpose t ns) as [os|]; cbn [bind] in H; [|discriminate].
    inversion H; subst.
    destruct (transpose_keepsOrDrops t n o Hk Ho) as [-> | ->].
    + intros x [<- | Hx]; [left; reflexivity | right; apply (IH os eq_refl x Hx)].
    + intros x Hx. right. apply (IH os eq_refl x Hx).
Qed.

Lemma execTasks_keepsOrDrops (ts : list task) (nodes out : list node) :
  forallb keepsOrDrops ts = true ->
  execTasks transpose ts nodes = Returned out ->
  incl out nodes.
Proof.
  revert nodes out; induction ts as [|t ts IH]; intros nodes out Hk H.
  - inversion H. apply incl_refl.
  - cbn [forallb] in Hk. apply andb_true_iff in Hk as [Ht Hts].
    cbn [execTasks] in H. destruct nodes as [|n ns]; [inversion H; apply incl_refl|].
    destruct (transposeEach transpose t (n :: ns)) as [mid|] eqn:Hm;
      cbn [bind] in H; [|discriminate].
    eapply incl_tran; [apply (IH mid out Hts H)|].
    apply (transposeEach_keepsOrDrops t _ _ Ht Hm).
Qed.

(** What an [:if-not] or [:not] task pushes fails the [test] of its nested
    descriptor. *)
Lemma transposeEach_ifNot (selector : str) (ts : list task) (nodes out : list node) :
  transposeEach transpose (IfTask false selector ts) nodes = Returned out ->
  forall n, In n out -> test selector ts (Some n) = Returned false.
Proof.
  revert out; induction nodes as [|m ns IH]; intros out H n Hn.
  - inversion H; subst. contradiction.
  - cbn [transposeEach transpose] in H. fold (test selector ts (Some m)) in H.
    destruct (test selector ts (Some m)) as [found|] eqn:Hf; cbn [bind] in H;
      [|discriminate].
    destruct (transposeEach transpose (IfTask false selector ts) ns) as [os|];
      cbn [bind] in H; [|discriminate].
    inversion H; subst. apply in_app_or in Hn as [Hn | Hn].
    + destruct found; cbn in Hn; [contradiction|].
      destruct Hn as [<- | []]. assumption.
    + apply (IH os eq_refl n Hn).
Qed.

Lemma execTasks_ifNot (pre post : list task) (selector : str) (ts : list task)
    (nodes out : list node) :
  forallb keepsOrDrops post = true ->
  execTasks transpose (pre ++ IfTask false selector ts :: post) nodes = Returned out ->
  forall n, In n out -> test selector ts (Some n) = Returned false.
Proof.
  intros Hpost. revert nodes out; induction pre as [|t pre IH]; intros nodes out H n Hn.
  - cbn [app execTasks] in H. destruct nodes as [|m ns].
    + inversion H; subst. contradiction.
    + destruct (transposeEach transpose (IfTask false selector ts) (m :: ns))
        as [mid|] eqn:Hm; cbn [bind] in H; [|discriminate].
      apply (transposeEach_ifNot selector ts _ _ Hm).
      apply (execTasks_keepsOrDrops post mid out Hpost H). assumption.
  - cbn [app execTasks] in H. destruct nodes as [|m ns].
    + inversion H; subst. contradiction.
    + destruct (transposeEach transpose t (m :: ns)) as [mid|]; cbn [bind] in H;
        [|discriminate].
      apply (IH mid out H n Hn).
Qed.

(** C5, amended: when every task after a [:not] or [:if-not] task pushes
    its own node or nothing, no node that [exec] returns passes the [test]
    of the nested descriptor of that task. *)
Theorem exec_excludes_negated (selector : str) (pre post : list task)
    (inner : str) (ts : list task) (input : option node) (out : list node) (n : node) :
  forallb keepsOrDrops post = true ->
  exec selector (pre ++ IfTask false inner ts :: post) input = Returned out ->
  In n out ->
  test inner ts (Some n) = Returned false.
Proof.
  intros Hpost H Hn. unfold exec, execWith in H.
  destruct (prime selector input) as [nodes|]; cbn [bind] in H; [|discriminate].
  apply (execTasks_ifNot pre post inner ts nodes out Hpost H n Hn).
Qed.

End Pipeline.

(** *** The procedural filterer ([DOMProceduralFilterer]) *)

Definition filterer := DOMProceduralFilterer node.

Definition event := passEvent node.

Definition setHas (n : node) (s : list node) : bool :=
  if in_dec node_eq_dec n s then true else false.

Definition setAdd (n : node) (s : list node) : list node :=
  if setHas n s then s else s ++ [n].

Definition withBudget (b : Z) (p : pselector) : pselector :=
  {| budget := b; raw := raw p; cost := cost p;
     lastAllowanceTime := lastAllowanceTime p; selector := selector p;
     tasks := tasks p; action := action p; hit := hit p |}.

Definition withAllowance (b t : Z) (p : pselector) : pselector :=
  {| budget := b; raw := raw p; cost := cost p;
     lastAllowanceTime := t; selector := selector p;
     tasks := tasks p; action := action p; hit := hit p |}.

Definition withHit (p : pselector) : pselector :=
  {| budget := budget p; raw := raw p; cost := cost p;
     lastAllowanceTime := lastAllowanceTime p; selector := selector p;
     tasks := tasks p; action := action p; hit := true |}.

(** The allowance that the time since [lastAllowanceTime] grants. *)
Definition replenish (t0 : Z) (p : pselector) : pselector :=
  let allowance := (t0 - lastAllowanceTime p) / 2000 in
  if 1 <=? allowance then
    let b := budget p + allowance * 50 in
    withAllowance (if 200 <? b then 200 else b) t0 p
  else p.

(** The cost of an execution that started at [t0] and ended at [t1]; the
    descriptor is disabled below the floor. *)
Definition charge (t0 t1 : Z) (p : pselector) : pselector * bool :=
  let b := budget p + (t0 - t1) in
  if b <? -500 then (withBudget (-0x7FFFFFFF) p, true) else (withBudget b p, false).

Fixpoint hideNodes (nodes : list node) (hidden : list node) (w : W)
  : list node * list event * W :=
  match nodes with
  | [] => (hidden, [], w)
  | n :: ns =>
      match parentElement w n with
      | None => hideNodes ns hidden w
      | Some _ =>
          let '(hidden', evs, w') := hideNodes ns (setAdd n hidden) (hideNode n w) in
          (hidden', HideNode n :: evs, w')
      end
  end.

Fixpoint removeNodes (nodes : list node) (w : W) : list event * W :=
  match nodes with
  | [] => ([], w)
  | n :: ns =>
      let '(evs, w') := removeNodes ns (removeNode n w) in
      (RemoveNode n :: evs, w')
  end.

(** The loop of [commitNow] over [selectors.values()], from the descriptor
    at place [k]: the outcome, the descriptors as the loop leaves them, the
    new set of hidden nodes, the events and the state of the host. *)
Fixpoint applySelectors (k : nat) (ps : list pselector) (t0 : Z)
    (hidden : list node) (w : W)
  : result unit * list pselector * list node * list event * W :=
  match ps with
  | [] => (Returned tt, [], hidden, [], w)
  | p :: rest =>
      let p1 := replenish t0 p in
      if budget p1 <=? 0 then
        let '(r, rest', hidden', evs, w') := applySelectors (S k) rest t0 hidden w in
        (r, p1 :: rest', hidden', evs, w')
      else
        match exec w (selector p1) (tasks p1) None with
        | Thrown => (Thrown, p1 :: rest, hidden, [Exec k], w)
        | Returned nodes =>
            let '(t1, w1) := dateNow w in
            let '(p2, disabled) := charge t0 t1 p1 in
            let evs0 := Exec k :: (if disabled then [Disabling k] else []) in
            match nodes with
            | [] =>
                let '(r, rest', hidden', evs, w') :=
                  applySelectors (S k) rest t1 hidden w1 in
                (r, p2 :: rest', hidden', evs0 ++ evs, w')
            | _ :: _ =>
                let p3 := withHit p2 in
                let '(hidden2, evs2, w2) :=
                  match action p3 with
                  | Some a =>
                      if eqb a (lit "remove")
                      then let '(evs, w') := removeNodes nodes w1 in (hidden, evs, w')
                      else hideNodes nodes hidden w1
                  | None => hideNodes nodes hidden w1
                  end in
                let '(r, rest', hidden', evs, w') :=
                  applySelectors (S k) rest t1 hidden2 w2 in
                (r, p3 :: rest', hidden', evs0 ++ evs2 ++ evs, w')
            end
        end
  end.

(** The last loop of [commitNow]: the nodes of the previous set that the
    pass did not hide again are unhidden. *)
Fixpoint unhideNodes (toRemove hidden : list node) (w : W) : list event * W :=
  match toRemove with
  | [] => ([], w)
  | n :: ns =>
      if setHas n hidden then unhideNodes ns hidden w
      else
        let '(evs, w') := unhideNodes ns hidden (unhideNode n w) in
        (UnhideNode n :: evs, w')
  end.

Definition commitNow (f : filterer) (w : W) : result unit * filterer * list event * W :=
  if Nat.eqb (length (selectors f)) 0 || negb (domIsReady f) then (Returned tt, f, [], w)
  else
    let toRemove := hiddenNodes f in
    let '(t0, w0) := dateNow w in
    let '(r, ps, hidden, evs, w1) := applySelectors 0 (selectors f) t0 [] w0 in
    let f' := {| domIsReady := domIsReady f; domIsWatched := domIsWatched f;
                 mustApplySelectors := false;
                 selectors := ps; hiddenNodes := hidden |} in
    match r with
    | Thrown => (Thrown, f', evs, w1)
    | Returned _ =>
        let '(evs', w2) := unhideNodes toRemove hidden w1 in
        (Returned tt, f', evs ++ evs', w2)
    end.


(** **** What the loops log *)

(** The events of the turn of the loop for the descriptor at place [k]. *)
Definition ofTurn (k : nat) (e : event) : Prop :=
  match e with
  | Exec j | Disabling j => j = k
  | HideNode _ | RemoveNode _ => True
  | UnhideNode _ => False
  end.

Lemma hideNodes_events k nodes hidden w hidden' evs w' :
  hideNodes nodes hidden w = (hidden', evs, w') ->
  forall e, In e evs -> ofTurn k e.
Proof.
  revert hidden w hidden' evs w'; induction nodes as [|n ns IH];
    intros hidden w hidden' evs w' H e He; cbn [hideNodes] in H.
  - inversion H; subst. contradiction.
  - destruct (parentElement w n).
    + destruct (hideNodes ns (setAdd n hidden) (hideNode n w)) as [[h1 e1] w1] eqn:E.
      inversion H; subst. destruct He as [<- | He]; [exact I | eapply IH; eauto].
    + eapply IH; eauto.
Qed.

Lemma removeNodes_events k nodes w evs w' :
  removeNodes nodes w = (evs, w') ->
  forall e, In e evs -> ofTurn k e.
Proof.
  revert w evs w'; induction nodes as [|n ns IH]; intros w evs w' H e He;
    cbn [removeNodes] in H.
  - inversion H; subst. contradiction.
  - destruct (removeNodes ns (removeNode n w)) as [e1 w1] eqn:E.
    inversion H; subst. destruct He as [<- | He]; [exact I | eapply IH; eauto].
Qed.

Lemma setAdd_In n m hidden : In m (setAdd n hidden) -> m = n \/ In m hidden.
Proof.
  unfold setAdd. destruct (setHas n hidden); [auto|].
  intros H. apply in_app_or in H as [H | [<- | []]]; auto.
Qed.

Lemma setHas_In n hidden : setHas n hidden = true <-> In n hidden.
Proof.
  unfold setHas. destruct (in_dec node_eq_dec n hidden); split; auto; discriminate.
Qed.

(** A node is in the set after [hideNodes] only if it was there before or
    [hideNode] was called on it. *)
Lemma hideNodes_hidden nodes hidden w hidden' evs w' :
  hideNodes nodes hidden w = (hidden', evs, w') ->
  forall m, In m hidden' -> In m hidden \/ In (HideNode m) evs.
Proof.
  revert hidden w hidden' evs w'; induction nodes as [|n ns IH];
    intros hidden w hidden' evs w' H m Hm; cbn [hideNodes] in H.
  - inversion H; subst. auto.
  - destruct (parentElement w n).
    + destruct (hideNodes ns (setAdd n hidden) (hideNode n w)) as [[h1 e1] w1] eqn:E.
      inversion H; subst.
      destruct (IH _ _ _ _ _ E m Hm) as [Hin | Hin].
      * apply setAdd_In in Hin as [-> | Hin]; [right; left; reflexivity | auto].
      * right; right; assumption.
    + eapply IH; eauto.
Qed.

(** The hiding or the removal of the nodes of one descriptor. *)
Definition applyAction (a : option str) (nodes hidden : list node) (w : W)
  : list node * list event * W :=
  match a with
  | Some a =>
      if eqb a (lit "remove")
      then let '(evs, w') := removeNodes nodes w in (hidden, evs, w')
      else hideNodes nodes hidden w
  | None => hideNodes nodes hidden w
  end.

Lemma applyAction_events k a nodes hidden w hidden' evs w' :
  applyAction a nodes hidden w = (hidden', evs, w') ->
  (forall e, In e evs -> ofTurn k e) /\
  (forall m, In m hidden' -> In m hidden \/ In (HideNode m) evs).
Proof.
  unfold applyAction. intros H.
  assert (Hh : hideNodes nodes hidden w = (hidden', evs, w') ->
               (forall e, In e evs -> ofTurn k e) /\
               (forall m, In m hidden' -> In m hidden \/ In (HideNode m) evs)).
  { intros E. split.
    - apply (hideNodes_events k _ _ _ _ _ _ E).
    - apply (hideNodes_hidden _ _ _ _ _ _ E). }
  destruct a as [a|]; [|auto].
  destruct (eqb a (lit "remove")); [|auto].
  destruct (removeNodes nodes w) as [e1 w1] eqn:E. inversion H; subst. split.
  - apply (removeNodes_events k _ _ _ _ E).
  - auto.
Qed.

(** One turn of the loop of [applySelectors], unfolded. *)
Lemma applySelectors_cons k p rest t0 hidden w :
  applySelectors k (p :: rest) t0 hidden w =
  let p1 := replenish t0 p in
  if budget p1 <=? 0 then
    let '(r, rest', hidden', evs, w') := applySelectors (S k) rest t0 hidden w in
    (r, p1 :: rest', hidden', evs, w')
  else
    match exec w (selector p1) (tasks p1) None with
    | Thrown => (Thrown, p1 :: rest, hidden, [Exec k], w)
    | Returned nodes =>
        let '(t1, w1) := dateNow w in
        let '(p2, disabled) := charge t0 t1 p1 in
        let evs0 := Exec k :: (if disabled then [Disabling k] else []) in
        match nodes with
        | [] =>
            let '(r, rest', hidden', evs, w') :=
              applySelectors (S k) rest t1 hidden w1 in
            (r, p2 :: rest', hidden', evs0 ++ evs, w')
        | _ :: _ =>
            let p3 := withHit p2 in
            let '(hidden2, evs2, w2) := applyAction (action p3) nodes hidden w1 in
            let '(r, rest', hidden', evs, w') :=
              applySelectors (S k) rest t1 hidden2 w2 in
            (r, p3 :: rest', hidden', evs0 ++ evs2 ++ evs, w')
        end
    end.
Proof. reflexivity. Qed.

(** The cases of one turn: the descriptor is skipped, its execution
    throws, or it returns and the loop goes on. *)
Inductive turn (k : nat) (p : pselector) (rest : list pselector) (t0 : Z)
    (hidden : list node) (w : W)
  : result unit * list pselector * list node * list event * W -> Prop :=
| TurnSkipped r rest' hidden' evs w' :
    budget (replenish t0 p) <= 0 ->
    applySelectors (S k) rest t0 hidden w = (r, rest', hidden', evs, w') ->
    turn k p rest t0 hidden w (r, replenish t0 p :: rest', hidden', evs, w')
| TurnThrown :
    0 < budget (replenish t0 p) ->
    exec w (selector p) (tasks p) None = Thrown ->
    turn k p rest t0 hidden w (Thrown, replenish t0 p :: rest, hidden, [Exec k], w)
| TurnReturned nodes p' hidden2 evs2 w2 r rest' hidden' evs w' :
    0 < budget (replenish t0 p) ->
    exec w (selector p) (tasks p) None = Returned nodes ->
    (forall e, In e evs2 -> ofTurn k e) ->
    (forall m, In m hidden2 -> In m hidden \/ In (HideNode m) evs2) ->
    applySelectors (S k) rest (fst (dateNow w)) hidden2 w2 = (r, rest', hidden', evs, w') ->
    turn k p rest t0 hidden w (r, p' :: rest', hidden', evs2 ++ evs, w').

Lemma replenish_selector t0 p :
  selector (replenish t0 p) = selector p /\ tasks (replenish t0 p) = tasks p.
Proof. unfold replenish. destruct (1 <=? _); split; reflexivity. Qed.

Lemma applySelectors_turn k p rest t0 hidden w :
  turn k p rest t0 hidden w (applySelectors k (p :: rest) t0 hidden w).
Proof.
  rewrite applySelectors_cons. cbv zeta.
  destruct (replenish_selector t0 p) as [Hs Ht].
  destruct (budget (replenish t0 p) <=? 0) eqn:Hb.
  - apply Z.leb_le in Hb.
    destruct (applySelectors (S k) rest t0 hidden w) as [[[[r rest'] hidden'] evs] w'] eqn:E.
    apply TurnSkipped; assumption.
  - apply Z.leb_gt in Hb. rewrite Hs, Ht.
    destruct (exec w (selector p) (tasks p) None) as [nodes|] eqn:He.
    + destruct (dateNow w) as [t1 w1] eqn:Hn.
      destruct (charge t0 t1 (replenish t0 p)) as [p2 disabled] eqn:Hc.
      destruct nodes as [|n ns].
      * destruct (applySelectors (S k) rest t1 hidden w1)
          as [[[[r rest'] hidden'] evs] w'] eqn:E.
        eapply (TurnReturned k p rest t0 hidden w [] p2 hidden
                  (Exec k :: (if disabled then [Disabling k] else [])) w1);
          try eassumption.
        -- intros e He'. revert He'.
           destruct disabled; cbn; intuition (subst; reflexivity).
        -- auto.
        -- rewrite Hn. exact E.
      * destruct (applyAction (action (withHit p2)) (n :: ns) hidden w1)
          as [[hidden2 evs2] w2] eqn:Ea.
        destruct (applySelectors (S k) rest t1 hidden2 w2)
          as [[[[r rest'] hidden'] evs] w'] eqn:E.
        destruct (applyAction_events k _ _ _ _ _ _ _ Ea) as [Hev Hhid].
        replace ((Exec k :: (if disabled then [Disabling k] else [])) ++ evs2 ++ evs)
          with (((Exec k :: (if disabled then [Disabling k] else [])) ++ evs2) ++ evs)
          by (rewrite app_assoc; reflexivity).
        eapply (TurnReturned k p rest t0 hidden w (n :: ns) (withHit p2) hidden2
                  ((Exec k :: (if disabled then [Disabling k] else [])) ++ evs2) w2);
          try eassumption.
        -- intros e He'. apply in_app_or in He' as [He' | He'].
           ++ revert He'. destruct disabled; cbn; intuition (subst; reflexivity).
           ++ apply Hev; assumption.
        -- intros m Hm. destruct (Hhid m Hm) as [H1 | H1]; [auto|].
           right. apply in_or_app. right. assumption.
        -- rewrite Hn. exact E.
    + apply TurnThrown; assumption.
Qed.

(** The events of the turns from place [k] on, [len] turns at most. *)
Definition ofTurns (k len : nat) (e : event) : Prop :=
  match e with
  | Exec j | Disabling j => (k <= j < k + len)%nat
  | HideNode _ | RemoveNode _ => True
  | UnhideNode _ => False
  end.

Lemma ofTurn_ofTurns k len e : ofTurn k e -> ofTurns k (S len) e.
Proof. destruct e; cbn; intros; subst; try lia; auto. Qed.

Lemma ofTurns_next k len e : ofTurns (S k) len e -> ofTurns k (S len) e.
Proof. destruct e; cbn; intros; try lia; auto. Qed.

Ltac turn_cases E T :=
  match type of E with
  | applySelectors ?k (?p :: ?rest) ?t0 ?hidden ?w = _ =>
      pose proof (applySelectors_turn k p rest t0 hidden w) as T;
      rewrite E in T; inversion T; subst; clear T
  end.

Lemma applySelectors_events ps k t0 hidden w r ps' hidden' evs w' :
  applySelectors k ps t0 hidden w = (r, ps', hidden', evs, w') ->
  length ps' = length ps /\
  (forall e, In e evs -> ofTurns k (length ps) e) /\
  (forall m, In m hidden' -> In m hidden \/ In (HideNode m) evs).
Proof.
  revert k t0 hidden w r ps' hidden' evs w'; induction ps as [|p rest IH];
    intros k t0 hidden w r ps' hidden' evs w' E.
  - cbn in E. inversion E; subst. repeat split; auto. intros e [].
  - turn_cases E T.
    + match goal with H : applySelectors _ _ _ _ _ = _ |- _ =>
        destruct (IH _ _ _ _ _ _ _ _ _ H) as (Hl & He & Hh) end.
      cbn [length]. repeat split; auto.
      intros e Hin. apply ofTurns_next, He, Hin.
    + cbn [length]. repeat split; auto.
      intros e [<- | []]. cbn. lia.
    + match goal with H : applySelectors _ _ _ _ _ = _ |- _ =>
        destruct (IH _ _ _ _ _ _ _ _ _ H) as (Hl & He & Hh) end.
      cbn [length]. repeat split; auto.
      * intros e Hin. apply in_app_or in Hin as [Hin | Hin].
        -- apply ofTurn_ofTurns; auto.
        -- apply ofTurns_next, He, Hin.
      * intros m Hm. destruct (Hh m Hm) as [H1 | H1].
        -- match goal with H : forall m, In m hidden2 -> _ |- _ =>
             destruct (H m H1) as [H2 | H2] end; [auto|].
           right. apply in_or_app; auto.
        -- right. apply in_or_app; auto.
Qed.

(** **** A descriptor whose execution throws *)




(** **** The nodes that a pass does not hide again *)

Lemma unhideNodes_events toRemove hidden w evs w' :
  unhideNodes toRemove hidden w = (evs, w') ->
  forall n, In n toRemove -> ~ In n hidden -> In (UnhideNode n) evs.
Proof.
  revert w evs w'; induction toRemove as [|m ns IH]; intros w evs w' H n Hn Hh;
    [contradiction|].
  cbn [unhideNodes] in H. destruct (setHas m hidden) eqn:Em.
  - destruct Hn as [-> | Hn]; [apply setHas_In in Em; contradiction|].
    eapply IH; eauto.
  - destruct (unhideNodes ns hidden (unhideNode m w)) as [e1 w1] eqn:E.
    inversion H; subst. destruct Hn as [-> | Hn]; [left; reflexivity|].
    right. eapply IH; eauto.
Qed.

(** C4, amended: in a pass that runs (the document is ready and the map
    holds a descriptor) and that ends without a descriptor throwing, a node
    of the previous set of hidden nodes on which the pass does not call
    [hideNode] again is not in the new set, and [unhideNode] is called on
    it. *)
Theorem commitNow_unhides (f f' : filterer) (w w' : W) (evs : list event) (n : node) :
  domIsReady f = true ->
  selectors f <> [] ->
  commitNow f w = (Returned tt, f', evs, w') ->
  In n (hiddenNodes f) ->
  ~ In (HideNode n) evs ->
  ~ In n (hiddenNodes f') /\ In (UnhideNode n) evs.
Proof.
  intros Hready Hsel H Hn Hnot. unfold commitNow in H. rewrite Hready in H.
  destruct (selectors f) as [|p ps] eqn:Es; [contradiction|].
  cbn [length Nat.eqb negb orb] in H.
  destruct (dateNow w) as [t0 w0].
  destruct (applySelectors 0 (p :: ps) t0 [] w0)
    as [[[[r ps'] hidden'] evs1] w1] eqn:E.
  destruct r as [[]|]; [|discriminate].
  destruct (unhideNodes (hiddenNodes f) hidden' w1) as [evs2 w2] eqn:Eu.
  inversion H; subst. cbn [hiddenNodes].
  destruct (applySelectors_events _ _ _ _ _ _ _ _ _ _ E) as (_ & _ & Hh).
  assert (Hfresh : ~ In n hidden').
  { intros Hin. destruct (Hh n Hin) as [[] | Hin'].
    apply Hnot. apply in_or_app; auto. }
  split; [assumption|].
  apply in_or_app. right. eapply unhideNodes_events; eauto.
Qed.

(** **** A disabled descriptor *)










End Host.

(** *** A small page

    The document (node 0) holds an [html] element (4), which holds a [div]
    (1), which holds a [span] (2) and a [b] (3).  The text of the [span] is
    [a] until a script of the page edits it to [c]; the text of the [b] is
    [x].  A state of the host is the number of clock readings made and
    whether the [span] was edited. *)

Module Page.

Record state := { tick : nat; edited : bool }.

Definition tagName (n : nat) : str :=
  match n with
  | 1%nat => lit "div"
  | 2%nat => lit "span"
  | 3%nat => lit "b"
  | 4%nat => lit "html"
  | _ => []
  end.

Definition descendants (n : nat) : list nat :=
  match n with
  | 0%nat => [4; 1; 2; 3]%nat
  | 4%nat => [1; 2; 3]%nat
  | 1%nat => [2; 3]%nat
  | _ => []
  end.

Definition spanText (w : state) : str := if edited w then lit "c" else lit "a".

#[local] Instance page (clock : nat -> Z) : Host := {|
  node := nat;
  node_eq_dec := Nat.eq_dec;
  W := state;
  document := 0%nat;
  querySelectorAll := fun _ root s =>
    if existsb (eqb s) [lit "div"; lit "span"; lit "b"; lit "html"]
    then Returned (filter (fun n => eqb (tagName n) s) (descendants root))
    else Thrown;
  textContent := fun w n =>
    match n with
    | 0%nat => None
    | 2%nat => Some (spanText w)
    | 3%nat => Some (lit "x")
    | _ => Some (spanText w ++ lit "x")
    end;
  regExpTest := fun source _ s => includes source s;
  getComputedStyle := fun _ n _ =>
    match n with
    | 0%nat => Thrown
    | _ => Returned (Some (fun _ => None))
    end;
  parentElement := fun _ n =>
    match n with
    | 1%nat => Some 4%nat
    | 2%nat | 3%nat => Some 1%nat
    | _ => None
    end;
  elementIndex := fun _ n => match n with 3%nat => 1%nat | _ => 0%nat end;
  closest := fun _ _ _ => Returned None;
  xpathEvaluate := fun _ _ _ => Thrown;
  nodeType := fun _ n => match n with 0%nat => 9 | _ => 1 end;
  dateNow := fun w => (clock (tick w), {| tick := S (tick w); edited := edited w |});
  removeNode := fun _ w => w;
  hideNode := fun _ w => w;
  unhideNode := fun _ w => w
|}.

Definition newPSelector (r s : str) (ts : list task) : pselector :=
  {| budget := 200; raw := r; cost := 0; lastAllowanceTime := 0;
     selector := s; tasks := ts; action := None; hit := false |}.

(** [span:has-text(a)] *)
Definition spanWithA : pselector :=
  newPSelector (lit "span:has-text(a)") (lit "span") [HasTextTask (lit "a") None].

(** [:min-text-length(3)]: the selector is empty, [prime] returns the
    document, whose [textContent] is [null]. *)
Definition ofDocument : pselector :=
  newPSelector (lit ":min-text-length(3)") [] [MinTextLengthTask 3].

(** [span:not(:has-text(x)):upward(1)] *)
Definition parentOfPlainSpan : pselector :=
  newPSelector (lit "span:not(:has-text(x)):upward(1)") (lit "span")
    [IfTask false [] [HasTextTask (lit "x") None]; UpwardTask 1 []].

Definition start : state := {| tick := 0; edited := false |}.
Definition afterEdit : state := {| tick := 10; edited := true |}.

Definition clockStart : Z := 1700000000000.

(** A clock that starts at [t] and advances by a millisecond a reading. *)
Definition steady (t : Z) (k : nat) : Z := t + Z.min (Z.of_nat k) 1000.

(** A clock on which the first execution takes 800 milliseconds and the
    next pass starts 85899346000 milliseconds after the first. *)
Definition stalled (t : Z) (k : nat) : Z :=
  match k with
  | 0%nat => t
  | 1%nat => t + 800
  | _ => t + 85899346000
  end.

Definition ready (ps : list pselector) (hidden : list nat)
  : DOMProceduralFilterer nat :=
  {| domIsReady := true; domIsWatched := true; mustApplySelectors := true;
     selectors := ps; hiddenNodes := hidden |}.

Definition pass (clock : nat -> Z) (f : DOMProceduralFilterer nat) (w : state) :=
  @commitNow (page clock) f w.

Definition outcomeOf {F E S : Type} (r : result unit * F * E * S) := fst (fst (fst r)).
Definition filtererOf {F E S : Type} (r : result unit * F * E * S) := snd (fst (fst r)).
Definition eventsOf {F E S : Type} (r : result unit * F * E * S) := snd (fst r).

(** C5, as stated, fails: [exec] of [span:not(:has-text(x)):upward(1)]
    returns the [div], and the [test] of the nested [:has-text(x)] succeeds
    on the [div]. *)
Lemma exec_returns_negated_match :
  @exec (page (steady clockStart)) start (selector parentOfPlainSpan) (tasks parentOfPlainSpan) None
    = Returned [1%nat] /\
  @test (page (steady clockStart)) start [] [HasTextTask (lit "x") None] (Some 1%nat)
    = Returned true.
Proof. split; vm_compute; reflexivity. Qed.

Lemma exec_excludes_negated_witness :
  @test (page (steady clockStart)) start [] [HasTextTask (lit "x") None] (Some 2%nat)
    = Returned false.
Proof.
  apply (@exec_excludes_negated (page (steady clockStart)) start (lit "span") []
           [WatchAttrs []] [] [HasTextTask (lit "x") None] None [2%nat] 2%nat).
  - reflexivity.
  - vm_compute. reflexivity.
  - left. reflexivity.
Defined.



(** The filterer after a first pass in which [span:has-text(a)] hides the
    [span] and the execution of the second descriptor throws. *)
Definition afterFirstPass : DOMProceduralFilterer nat :=
  filtererOf (pass (steady clockStart) (ready [spanWithA; ofDocument] []) start).

Example afterFirstPass_hidden : hiddenNodes afterFirstPass = [2%nat].
Proof. vm_compute. reflexivity. Qed.

(** C4, as stated, fails: the [span] is hidden, the page edits its text,
    and in the next pass no descriptor hides it again; the second
    descriptor throws, and [unhideNode] is not called on the [span]. *)
Lemma commitNow_throw_leaves_hidden :
  In 2%nat (hiddenNodes afterFirstPass) /\
  ~ In (HideNode 2%nat) (eventsOf (pass (steady clockStart) afterFirstPass afterEdit)) /\
  ~ In (UnhideNode 2%nat) (eventsOf (pass (steady clockStart) afterFirstPass afterEdit)).
Proof.
  split; [|split].
  - vm_compute. left; reflexivity.
  - vm_compute. intros [H | [H | []]]; discriminate.
  - vm_compute. intros [H | [H | []]]; discriminate.
Qed.

Lemma commitNow_unhides_witness :
  ~ In 2%nat (hiddenNodes (filtererOf (pass (steady clockStart) (ready [spanWithA] [2%nat]) afterEdit))) /\
  In (UnhideNode 2%nat) (eventsOf (pass (steady clockStart) (ready [spanWithA] [2%nat]) afterEdit)).
Proof.
  apply (@commitNow_unhides (page (steady clockStart)) (ready [spanWithA] [2%nat])
           (filtererOf (pass (steady clockStart) (ready [spanWithA] [2%nat]) afterEdit))
           afterEdit
           (snd (pass (steady clockStart) (ready [spanWithA] [2%nat]) afterEdit))).
  - reflexivity.
  - discriminate.
  - vm_compute. reflexivity.
  - left. reflexivity.
  - vm_compute. intros [H | [H | []]]; discriminate.
Defined.

(** The filterer after a first pass in which the execution of
    [span:has-text(a)] takes 800 milliseconds. *)
Definition afterSlowPass : DOMProceduralFilterer nat :=
  filtererOf (pass (stalled clockStart) (ready [spanWithA] []) start).

Example afterSlowPass_disabled :
  map budget (selectors afterSlowPass) = [-0x7FFFFFFF] /\
  map lastAllowanceTime (selectors afterSlowPass) = [clockStart] /\
  In (Disabling 0) (eventsOf (pass (stalled clockStart) (ready [spanWithA] []) start)).
Proof. vm_compute. repeat split. right; left; reflexivity. Qed.




End Page.

(** *** [test] against [exec], and the set of the hidden nodes *)

Section Agreement.

Context {host : Host}.

Variable tr : task -> node -> result (list node).

Lemma transposeEach_app (t : task) (a b out : list node) :
  transposeEach tr t (a ++ b) = Returned out ->
  exists oa ob,
    transposeEach tr t a = Returned oa /\
    transposeEach tr t b = Returned ob /\ out = oa ++ ob.
Proof.
  revert out; induction a as [|n a IH]; intros out H.
  - exists [], out. auto.
  - cbn [app transposeEach] in H |- *.
    destruct (tr t n) as [o|]; cbn [bind] in H |- *; [|discriminate].
    destruct (transposeEach tr t (a ++ b)) as [os|] eqn:E; cbn [bind] in H; [|discriminate].
    destruct (IH os eq_refl) as (oa & ob & Ha & Hb & ->).
    rewrite Ha. cbn [bind]. inversion H; subst.
    exists (o ++ oa), ob. rewrite app_assoc. auto.
Qed.

Lemma execTasks_nil (ts : list task) : execTasks tr ts [] = Returned [].
Proof. destruct ts; reflexivity. Qed.

(** The inner loop of [test] computes what the loop of [exec] computes. *)
Lemma testTasks_execTasks (ts : list task) (nodes : list node) :
  testTasks tr ts nodes = execTasks tr ts nodes.
Proof.
  revert nodes; induction ts as [|t ts IH]; intros nodes; [reflexivity|].
  cbn [testTasks execTasks]. destruct nodes as [|n ns]; [reflexivity|].
  destruct (transposeEach tr t (n :: ns)) as [[|m mid]|]; cbn [bind]; auto.
  symmetry. apply execTasks_nil.
Qed.

(** The loop of [exec] handles the nodes one by one. *)
Lemma execTasks_app (ts : list task) :
  forall a b out,
  execTasks tr ts (a ++ b) = Returned out ->
  exists oa ob,
    execTasks tr ts a = Returned oa /\
    execTasks tr ts b = Returned ob /\ out = oa ++ ob.
Proof.
  induction ts as [|t ts IH]; intros a b out H.
  - cbn [execTasks] in *. inversion H; subst. eauto.
  - destruct (a ++ b) as [|n ns] eqn:Eab.
    + apply app_eq_nil in Eab as [-> ->]. cbn in H. inversion H; subst.
      exists [], []. auto.
    + cbn [execTasks] in H. rewrite <- Eab in H. clear Eab.
      destruct (transposeEach tr t (a ++ b)) as [mid|] eqn:Em; cbn [bind] in H;
        [|discriminate].
      destruct (transposeEach_app t a b mid Em) as (ma & mb & Ha & Hb & ->).
      destruct (IH ma mb out H) as (oa & ob & Hoa & Hob & ->).
      exists oa, ob. split; [|split; [|reflexivity]].
      * destruct a as [|x a]; [|cbn [execTasks]; rewrite Ha; exact Hoa].
        cbn in Ha. inversion Ha; subst. rewrite execTasks_nil in Hoa. exact Hoa.
      * destruct b as [|x b]; [|cbn [execTasks]; rewrite Hb; exact Hob].
        cbn in Hb. inversion Hb; subst. rewrite execTasks_nil in Hob. exact Hob.
Qed.

Lemma testNodes_execTasks (ts : list task) (nodes out : list node) :
  execTasks tr ts nodes = Returned out ->
  testNodes tr ts nodes = Returned (match out with [] => false | _ :: _ => true end).
Proof.
  revert out; induction nodes as [|n ns IH]; intros out H.
  - rewrite execTasks_nil in H. inversion H; subst. reflexivity.
  - destruct (execTasks_app ts [n] ns out H) as (o1 & o2 & H1 & H2 & ->).
    cbn [testNodes]. rewrite testTasks_execTasks, H1. cbn [bind].
    destruct o1 as [|x o1]; [|reflexivity].
    apply (IH o2 H2).
Qed.

End Agreement.

Section Passes.

Context {host : Host}.

(** When [exec] returns, [test] returns on the same input, and it returns
    [true] exactly when [exec] returns a node: the two loops, over the
    tasks in [exec] and over the nodes in [test], agree. *)
Theorem test_agrees_with_exec (w : W) (selector : str) (ts : list task)
    (input : option node) (out : list node) :
  exec w selector ts input = Returned out ->
  test w selector ts input = Returned (match out with [] => false | _ :: _ => true end).
Proof.
  unfold exec, test, execWith, testWith.
  destruct (prime w selector input) as [nodes|]; cbn [bind]; [|discriminate].
  apply testNodes_execTasks.
Qed.

(** A descriptor whose tasks are all filters ([:has-text], [:has], [:if],
    [:if-not], [:not], the [:matches-css] operators, [:min-text-length],
    [:remove], [:watch-attr]) returns nodes that its selector matches:
    [exec] adds no node to those of [prime]. *)
Theorem exec_filters_prime (w : W) (selector : str) (ts : list task)
    (input : option node) (out : list node) :
  forallb keepsOrDrops ts = true ->
  exec w selector ts input = Returned out ->
  exists nodes, prime w selector input = Returned nodes /\ incl out nodes.
Proof.
  intros Hk H. unfold exec, execWith in H.
  destruct (prime w selector input) as [nodes|]; cbn [bind] in H; [|discriminate].
  exists nodes. split; [reflexivity|].
  apply (execTasks_keepsOrDrops w ts nodes out Hk H).
Qed.

Lemma unhideNodes_sound toRemove hidden w evs w' :
  unhideNodes toRemove hidden w = (evs, w') ->
  forall e, In e evs -> exists n, e = UnhideNode n /\ In n toRemove /\ ~ In n hidden.
Proof.
  revert w evs w'; induction toRemove as [|m ns IH]; intros w evs w' H e He;
    cbn [unhideNodes] in H.
  - inversion H; subst. contradiction.
  - destruct (setHas m hidden) eqn:Em.
    + destruct (IH _ _ _ H e He) as (n & -> & Hn & Hh). exists n. cbn; auto.
    + destruct (unhideNodes ns hidden (unhideNode m w)) as [e1 w1] eqn:E.
      inversion H; subst. destruct He as [<- | He].
      * exists m. split; [reflexivity|]. split; [left; reflexivity|].
        intros Hin. apply setHas_In in Hin. congruence.
      * destruct (IH _ _ _ E e He) as (n & -> & Hn & Hh). exists n. cbn; auto.
Qed.

(** In a pass that runs, the new set of hidden nodes holds only nodes on
    which the pass called [hideNode], and [unhideNode] is called only on
    nodes of the previous set that are not in the new one: a pass unhides
    no node that it has just hidden, and none that was not hidden. *)
Theorem commitNow_hidden_set (f f' : filterer) (w w' : W) (r : result unit)
    (evs : list event) :
  domIsReady f = true ->
  selectors f <> [] ->
  commitNow f w = (r, f', evs, w') ->
  (forall n, In n (hiddenNodes f') -> In (HideNode n) evs) /\
  (forall n, In (UnhideNode n) evs -> In n (hiddenNodes f) /\ ~ In n (hiddenNodes f')).
Proof.
  intros Hready Hsel H. unfold commitNow in H. rewrite Hready in H.
  destruct (selectors f) as [|p ps] eqn:Es; [contradiction|].
  cbn [length Nat.eqb negb orb] in H.
  destruct (dateNow w) as [t0 w0].
  destruct (applySelectors 0 (p :: ps) t0 [] w0)
    as [[[[r1 ps'] hidden'] evs1] w1] eqn:E.
  destruct (applySelectors_events _ _ _ _ _ _ _ _ _ _ E) as (_ & He & Hh).
  destruct r1 as [[]|].
  - destruct (unhideNodes (hiddenNodes f) hidden' w1) as [evs2 w2] eqn:Eu.
    inversion H; subst. cbn [hiddenNodes]. split.
    + intros n Hn. destruct (Hh n Hn) as [[] | Hin]. apply in_or_app; auto.
    + intros n Hn. apply in_app_or in Hn as [Hn | Hn].
      * apply He in Hn. contradiction.
      * destruct (unhideNodes_sound _ _ _ _ _ Eu _ Hn) as (n' & En & Hin & Hout).
        inversion En; subst. auto.
  - inversion H; subst. cbn [hiddenNodes]. split.
    + intros n Hn. destruct (Hh n Hn) as [[] | Hin]. assumption.
    + intros n Hn. apply He in Hn. contradiction.
Qed.

End Passes.

Module PageFacts.

Import Page.

Lemma test_agrees_with_exec_witness :
  @test (page (steady clockStart)) start (lit "span") [HasTextTask (lit "a") None] None
    = Returned true.
Proof.
  apply (@test_agrees_with_exec (page (steady clockStart)) start (lit "span")
           [HasTextTask (lit "a") None] None [2%nat]).
  vm_compute. reflexivity.
Defined.

Lemma exec_filters_prime_witness :
  exists nodes,
    @prime (page (steady clockStart)) start (lit "span") None = Returned nodes /\
    incl [2%nat] nodes.
Proof.
  apply (@exec_filters_prime (page (steady clockStart)) start (lit "span")
           [HasTextTask (lit "a") None; MinTextLengthTask 1] None [2%nat]).
  - reflexivity.
  - vm_compute. reflexivity.
Defined.

Lemma commitNow_hidden_set_witness :
  In (HideNode 2%nat) (eventsOf (pass (steady clockStart) (ready [spanWithA] [3%nat]) start)) /\
  (In 3%nat [3%nat] /\
   ~ In 3%nat (hiddenNodes (filtererOf (pass (steady clockStart) (ready [spanWithA] [3%nat]) start)))).
Proof.
  pose proof (@commitNow_hidden_set (page (steady clockStart)) (ready [spanWithA] [3%nat])
                (filtererOf (pass (steady clockStart) (ready [spanWithA] [3%nat]) start))
                start
                (snd (pass (steady clockStart) (ready [spanWithA] [3%nat]) start))
                (outcomeOf (pass (steady clockStart) (ready [spanWithA] [3%nat]) start))
                (eventsOf (pass (steady clockStart) (ready [spanWithA] [3%nat]) start))
                eq_refl ltac:(discriminate) ltac:(vm_compute; reflexivity)) as [H1 H2].
  split.
  - apply (H1 2%nat). vm_compute. left; reflexivity.
  - apply (H2 3%nat). vm_compute. right; right; left; reflexivity.
Defined.

End PageFacts.

(** *** The classes of the tasks ([operatorToTaskMap])

    The constructor of [PSelector] looks up the class of each task of a
    compiled descriptor by the name of its operator and calls it with
    [new]; a name without a class would make [new] throw. *)

Inductive taskClass :=
| PSelectorHasTextTask
| PSelectorIfTask
| PSelectorIfNotTask
| PSelectorMatchesCSSTask
| PSelectorMatchesCSSAfterTask
| PSelectorMatchesCSSBeforeTask
| PSelectorMinTextLengthTask
| PSelectorPassthru
| PSelectorSpathTask
| PSelectorUpwardTask
| PSelectorWatchAttrs
| PSelectorXpathTask.

Definition operatorToTaskMap : list (str * taskClass) :=
  [ (lit ":has", PSelectorIfTask);
    (lit ":has-text", PSelectorHasTextTask);
    (lit ":if", PSelectorIfTask);
    (lit ":if-not", PSelectorIfNotTask);
    (lit ":matches-css", PSelectorMatchesCSSTask);
    (lit ":matches-css-after", PSelectorMatchesCSSAfterTask);
    (lit ":matches-css-before", PSelectorMatchesCSSBeforeTask);
    (lit ":min-text-length", PSelectorMinTextLengthTask);
    (lit ":not", PSelectorIfNotTask);
    (lit ":nth-ancestor", PSelectorUpwardTask);
    (lit ":remove", PSelectorPassthru);
    (lit ":spath", PSelectorSpathTask);
    (lit ":upward", PSelectorUpwardTask);
    (lit ":watch-attr", PSelectorWatchAttrs);
    (lit ":xpath", PSelectorXpathTask) ].

(** [operatorToTaskMap.get(name)] *)
Definition taskClassOf (name : str) : option taskClass :=
  option_map snd (find (fun e => eqb (fst e) name) operatorToTaskMap).

(** The loop of the constructor finds a class for every task of the
    descriptor, and so do the constructors of [PSelectorIfTask] and
    [PSelectorIfNotTask], which construct the [PSelector] of the nested
    descriptor. *)
Fixpoint classesFound (d : Compiler.descriptor) : bool :=
  match d with
  | Compiler.Descriptor _ ts _ =>
      forallb (fun t : Compiler.operator * Compiler.argument =>
                 match taskClassOf (Compiler.operatorName (fst t)) with
                 | None => false
                 | Some (PSelectorIfTask | PSelectorIfNotTask) =>
                     match snd t with
                     | Compiler.ArgDescriptor d' => classesFound d'
                     | _ => true
                     end
                 | Some _ => true
                 end) ts
  end.

Definition classFound (t : Compiler.task) : bool :=
  match taskClassOf (Compiler.operatorName (fst t)) with
  | None => false
  | Some (PSelectorIfTask | PSelectorIfNotTask) =>
      match snd t with
      | Compiler.ArgDescriptor d' => classesFound d'
      | _ => true
      end
  | Some _ => true
  end.

Lemma classesFound_tasks sel ts a :
  classesFound (Compiler.Descriptor sel ts a) = forallb classFound ts.
Proof. reflexivity. Qed.

(** [:style] is the one operator of the compiler without a class. *)
Lemma taskClassOf_operatorName (op : Compiler.operator) :
  taskClassOf (Compiler.operatorName op) =
  match op with
  | Compiler.Has | Compiler.If => Some PSelectorIfTask
  | Compiler.HasText => Some PSelectorHasTextTask
  | Compiler.IfNot | Compiler.Not => Some PSelectorIfNotTask
  | Compiler.MatchesCss => Some PSelectorMatchesCSSTask
  | Compiler.MatchesCssAfter => Some PSelectorMatchesCSSAfterTask
  | Compiler.MatchesCssBefore => Some PSelectorMatchesCSSBeforeTask
  | Compiler.MinTextLength => Some PSelectorMinTextLengthTask
  | Compiler.Remove => Some PSelectorPassthru
  | Compiler.Spath => Some PSelectorSpathTask
  | Compiler.Style => None
  | Compiler.Upward => Some PSelectorUpwardTask
  | Compiler.WatchAttr => Some PSelectorWatchAttrs
  | Compiler.Xpath => Some PSelectorXpathTask
  end.
Proof. destruct op; vm_compute; reflexivity. Qed.

Lemma actionFree_classesFound :
  forall d, Compiler.actionFree d = true -> classesFound d = true.
Proof.
  fix IH 1. intros [sel ts a]. rewrite classesFound_tasks.
  cbn [Compiler.actionFree]. intros H. apply andb_true_iff in H as [_ H].
  induction ts as [|[op arg] ts IHts]; [reflexivity|].
  cbn [forallb fst snd] in *. apply andb_true_iff in H as [Ht Hts].
  rewrite (IHts Hts), andb_true_r.
  apply andb_true_iff in Ht as [Hop Harg].
  unfold classFound. cbn [fst snd]. rewrite taskClassOf_operatorName.
  destruct op; try discriminate; try reflexivity;
    (destruct arg; try reflexivity; apply IH; exact Harg).
Qed.

Lemma taskFree_classFound (t : Compiler.task) :
  Compiler.taskFree t = true -> classFound t = true.
Proof.
  destruct t as [op arg]. unfold Compiler.taskFree, classFound. cbn [fst snd].
  intros H. apply andb_true_iff in H as [Hop Harg].
  rewrite taskClassOf_operatorName.
  destruct op; try discriminate; try reflexivity;
    (destruct arg; try reflexivity; apply actionFree_classesFound; exact Harg).
Qed.

Lemma forallb_classFound_rev (ts : list Compiler.task) :
  forallb classFound (rev ts) = true -> forallb classFound ts = true.
Proof.
  rewrite !forallb_forall. intros H t Ht. apply H. apply in_rev in Ht. exact Ht.
Qed.

(** A descriptor that the compiler returns for a procedural selector and
    whose action is not [style] has a class in [operatorToTaskMap] for
    every task, down the nested descriptors: [new PSelector(o)] never
    calls [new] on a missing class.  [:style] has no class, and the
    compiler leaves it in a descriptor only with the action [style], which
    [addProceduralSelectors] turns into a CSS rule without constructing a
    [PSelector]. *)
Theorem compiled_tasks_have_classes {chost : Compiler.Host} (raw : str)
    (m m' : Compiler.rawValues) (d : Compiler.descriptor) :
  Compiler.compile raw true m = Compiler.Done (Some d, m') ->
  Compiler.actionOf d <> Some (lit "style") ->
  classesFound d = true.
Proof.
  intros H Ha.
  pose proof (Compiler.compileFuel_placed _ _ _ _ _ _ H) as Hp.
  destruct d as [sel ts a]. cbn [Compiler.wellPlaced Compiler.actionOf] in *.
  rewrite classesFound_tasks.
  destruct a as [name|]; cbn [Compiler.placed andb] in Hp.
  - apply forallb_classFound_rev.
    destruct (@rev Compiler.task ts) as [|[op arg] before]; [discriminate Hp|].
    apply andb_true_iff in Hp as [Hp Hbefore].
    apply andb_true_iff in Hp as [Hp Harg].
    apply andb_true_iff in Hp as [Hop Hname].
    apply eqb_eq in Hname.
    cbn [forallb]. apply andb_true_iff. split.
    + unfold classFound. cbn [fst snd]. rewrite taskClassOf_operatorName.
      destruct op; try discriminate; [reflexivity|].
      exfalso. apply Ha. rewrite Hname. reflexivity.
    + apply forallb_forall. intros t Ht. apply taskFree_classFound.
      rewrite forallb_forall in Hbefore. apply Hbefore. exact Ht.
  - apply forallb_forall. intros t Ht. apply taskFree_classFound.
    rewrite forallb_forall in Hp. apply Hp. exact Ht.
Qed.

Lemma compiled_tasks_have_classes_witness :
  classesFound
    (Compiler.Descriptor (lit ".ad")
       [(Compiler.Has,
         Compiler.ArgDescriptor
           (Compiler.Descriptor (lit "span")
              [(Compiler.HasText, Compiler.ArgRegex (lit "Spo.s") (Some (lit "i")))] None));
        (Compiler.Remove, Compiler.ArgString [])]
       (Some (lit "remove"))) = true.
Proof.
  apply (@compiled_tasks_have_classes Compiler.Legacy.legacy
           (lit ".ad:has(span:has-text(/Spo.s/i)):remove()") [] []).
  - vm_compute. reflexivity.
  - discriminate.
Defined.

(** The descriptor of [.ad:style(color: red)] has a [:style] task, for
    which the map has no class. *)
Example style_task_has_no_class :
  @Compiler.compile Compiler.Legacy.legacy (lit ".ad:style(color: red)") true []
  = Compiler.Done
      (Some (Compiler.Descriptor (lit ".ad")
               [(Compiler.Style, Compiler.ArgString (lit "color: red"))]
               (Some (lit "style"))), []) /\
  classesFound
    (Compiler.Descriptor (lit ".ad")
       [(Compiler.Style, Compiler.ArgString (lit "color: red"))]
       (Some (lit "style"))) = false.
Proof. split; vm_compute; reflexivity. Qed.

End Procedural.
